(** * libvips_precompile_mobile: the three platform copy scripts

    A shallow embedding of [tools/copy_libvips_linux.py],
    [tools/copy_libvips_macos.py] and [tools/copy_libvips_windows.py], and
    the properties of the dependency closure builder, of the two path
    rewriters, of the Windows asset selection and of the functions that
    read what [ldd], [readelf], [otool] and [brew] print.

    Conventions.
    - Python [str] is [string] (a sequence of 8-bit characters); the
      asset names, paths and flags the scripts handle are ASCII.
    - A [pathlib.Path] is the string [str(path)] in normal form; the
      constructor [Path] performs the normalisation pathlib performs.
    - A [set[str]] passed around and mutated in place is a [gset string]
      threaded through the state.
    - The operating system (file system, [ldd]/[otool], [patchelf],
      [install_name_tool]) is an interface, [OS]; every function of the
      scripts that touches it takes the current [World] and returns the
      next one together with the calls it made. *)

From Stdlib Require Import Ascii String.
From stdpp Require Import base tactics option list gmap strings relations pretty.

(** ** Python strings *)

Module Py.

(** [s.startswith(p)] *)
Definition startswith (s p : string) : bool := String.prefix p s.

(** [s.endswith(p)] *)
Fixpoint endswith (s p : string) : bool :=
  if String.eqb s p then true
  else match s with
       | EmptyString => false
       | String _ s' => endswith s' p
       end.

(** [sub in s] *)
Fixpoint contains (sub s : string) : bool :=
  if String.prefix sub s then true
  else match s with
       | EmptyString => false
       | String _ s' => contains sub s'
       end.

(** [s.split(sep)] for a non-empty separator: [skip] counts the
    characters of a separator that has just been matched and is still
    to be dropped. *)
Fixpoint split_go (sep s : string) (skip : nat) (cur : string) : list string :=
  match s with
  | EmptyString => [cur]
  | String c s' =>
      match skip with
      | S k => split_go sep s' k cur
      | O =>
          if String.prefix sep s
          then cur :: split_go sep s' (String.length sep - 1) EmptyString
          else split_go sep s' 0 (cur +:+ String c EmptyString)
      end
  end.

Definition split (sep s : string) : list string := split_go sep s 0 EmptyString.

(** [s.replace(old, new)] for a non-empty [old]: non-overlapping
    occurrences, leftmost first. *)
Fixpoint replace_go (old new s : string) (skip : nat) : string :=
  match s with
  | EmptyString => EmptyString
  | String c s' =>
      match skip with
      | S k => replace_go old new s' k
      | O =>
          if String.prefix old s
          then new +:+ replace_go old new s' (String.length old - 1)
          else String c (replace_go old new s' 0)
      end
  end.

Definition replace (old new s : string) : string := replace_go old new s 0.

(** [sep.join(xs)] *)
Fixpoint join (sep : string) (xs : list string) : string :=
  match xs with
  | [] => EmptyString
  | [x] => x
  | x :: rest => x +:+ sep +:+ join sep rest
  end.

(** [c.isdigit()] on an ASCII character *)
Definition isdigit (c : ascii) : bool :=
  match Ascii.is_nat c with Some _ => true | None => false end.

(** The exceptions the modelled code can raise. *)
Inductive exn : Type :=
| IndexError
| RuntimeError (msg : string)
| URLError
| OSError
| SystemExit (code : Z).

(** The result of a call that either returns or raises. *)
Inductive result (A : Type) : Type :=
| Return (a : A)
| Raise (e : exn).
Global Arguments Return {A} a.
Global Arguments Raise {A} e.

(** The status of the process for [sys.exit(main())]: the value [main]
    returned, the code of a [sys.exit], 1 for an uncaught exception. *)
Definition exit_code (r : result Z) : Z :=
  match r with
  | Return n => n
  | Raise (SystemExit c) => c
  | Raise _ => 1
  end.

(** A call of the [logging] module: level and message. *)
Inductive level : Type := DEBUG | INFO | WARNING | ERROR.

Global Instance level_eq_dec : EqDecision level.
Proof. solve_decision. Defined.

Definition record : Type := level * string.

End Py.

(** ** pathlib (POSIX flavour) *)

Module pathlib.

(** The components pathlib keeps: empty ones and ["."] are dropped. *)
Definition kept (c : string) : bool :=
  negb (String.eqb c "") && negb (String.eqb c ".").

Definition parts (s : string) : list string := filter (λ c, Is_true (kept c)) (Py.split "/" s).

(** The root: ["//"] for exactly two leading slashes, ["/"] for one or
    for three and more, nothing for a relative path. *)
Definition root (s : string) : string :=
  if Py.startswith s "///" then "/"
  else if Py.startswith s "//" then "//"
  else if Py.startswith s "/" then "/"
  else "".

(** [str(Path(s))] *)
Definition Path (s : string) : string :=
  match root s, parts s with
  | EmptyString, [] => "."
  | r, ps => r +:+ Py.join "/" ps
  end.

(** [Path(s).name] *)
Definition name (s : string) : string := List.last (parts s) "".

(** [Path(s).is_absolute()] *)
Definition is_absolute (s : string) : bool := Py.startswith s "/".

(** [Path(d) / n] *)
Definition joinpath (d n : string) : string :=
  if is_absolute n then Path n else Path (d +:+ "/" +:+ n).

(** [fnmatch] restricted to literal characters and [*], the only
    wildcard the scripts' glob patterns use. *)
Fixpoint fnmatch (pat name : string) {struct pat} : bool :=
  match pat with
  | EmptyString => String.eqb name ""
  | String "*"%char pat' =>
      (fix star (n : string) : bool :=
         if fnmatch pat' n then true
         else match n with
              | EmptyString => false
              | String _ n' => star n'
              end) name
  | String c pat' =>
      match name with
      | String d name' => Ascii.eqb c d && fnmatch pat' name'
      | EmptyString => false
      end
  end.

End pathlib.

(** ** argparse

    The part of [argparse] the three parsers use: optional arguments
    with the actions [store] and [store_true], given by their exact
    option strings.  (The other spellings [argparse] accepts, such as
    unambiguous prefixes, resolve to the same declared arguments, whose
    actions are applied by [take].) *)

Module argparse.

Inductive value : Type :=
| VNone
| VBool (b : bool)
| VStr (s : string).

Global Instance value_eq_dec : EqDecision value.
Proof. solve_decision. Defined.

Inductive action : Type :=
| store (type : string → string)
| store_true.

Record Argument : Type := {
  option_strings : list string;
  dest : string;
  act : action;
  default_ : value;
  required : bool
}.

(** [dest] as [add_argument] derives it: the first long option string
    without its dashes, [-] turned into [_]. *)
Definition dest_of (flags : list string) : string :=
  match List.find (λ f, Py.startswith f "--") flags with
  | Some f => Py.replace "-" "_" (String.substring 2 (String.length f - 2) f)
  | None => match flags with
            | f :: _ => String.substring 1 (String.length f - 1) f
            | [] => ""
            end
  end.

(** [parser.add_argument(flags..., action=..., default=..., required=...)];
    a [store_true] argument without [default] defaults to [False], a
    [store] argument to [None]. *)
Definition add_argument (flags : list string) (a : action) (dflt : option value)
    (req : bool) : Argument :=
  {| option_strings := flags;
     dest := dest_of flags;
     act := a;
     default_ := match dflt, a with
                | Some v, _ => v
                | None, store_true => VBool false
                | None, store _ => VNone
                end;
     required := req |}.

Definition Namespace : Type := gmap string value.

Definition defaults (parser : list Argument) : gmap string value :=
  list_to_map (map (λ a, (dest a, default_ a)) parser).

(** What an occurrence of argument [a] does to the namespace; [v] is
    the argument string that follows a [store] option. *)
Definition take (a : Argument) (v : string) (ns : gmap string value) : gmap string value :=
  match act a with
  | store type => <[dest a := VStr (type v)]> ns
  | store_true => <[dest a := VBool true]> ns
  end.

Definition lookup_option (parser : list Argument) (tok : string) : option Argument :=
  List.find (λ a, bool_decide (tok ∈ option_strings a)) parser.

(** The scan of the command line; [None] is a usage error. *)
Fixpoint scan (parser : list Argument) (argv : list string)
    (ns : gmap string value) (seen : gset string)
  : option (gmap string value * gset string) :=
  match argv with
  | [] => Some (ns, seen)
  | tok :: rest =>
      match lookup_option parser tok with
      | None => None
      | Some a =>
          match act a with
          | store_true => scan parser rest (take a "" ns) ({[dest a]} ∪ seen)
          | store _ =>
              match rest with
              | v :: rest' =>
                  if Py.startswith v "-" then None
                  else scan parser rest' (take a v ns) ({[dest a]} ∪ seen)
              | [] => None
              end
          end
      end
  end.

(** [parser.parse_args()]: a usage error is [sys.exit(2)]. *)
Definition parse_args (parser : list Argument) (argv : list string)
  : Py.result (gmap string value) :=
  match scan parser argv (defaults parser) ∅ with
  | Some (ns, seen) =>
      if forallb (λ a, negb (required a) || bool_decide (dest a ∈ seen)) parser
      then Py.Return ns
      else Py.Raise (Py.SystemExit 2)
  | None => Py.Raise (Py.SystemExit 2)
  end.

(** [args.<dest>] *)
Definition attr (ns : gmap string value) (d : string) : value :=
  default VNone (ns !! d).

(** The truth value of [if v:]. *)
Definition truthy (v : value) : bool :=
  match v with
  | VNone => false
  | VBool b => b
  | VStr s => negb (String.eqb s "")
  end.

End argparse.

(** ** tools/copy_libvips_windows.py *)

Module Windows.

Import Py.

(** An entry of the [assets] array of the release JSON. *)
Record Asset : Type := {
  asset_name : string;
  browser_download_url : string
}.

(** The release JSON as far as the script reads it; a missing key is
    [None]. *)
Record ReleaseInfo : Type := {
  assets : option (list Asset);
  tag_name : option string
}.

(** [release_info.get("assets", [])] *)
Definition get_assets (release_info : ReleaseInfo) : list Asset :=
  default [] (assets release_info).

Definition ARCH_MAP : gmap string string :=
  list_to_map [("x64", "w64"); ("x86_64", "w64"); ("amd64", "w64");
               ("arm64", "arm64"); ("aarch64", "arm64")].

(** The test both loops of [find_asset_for_arch] apply to an asset
    name. *)
Definition asset_matches (arch_suffix build_type name : string) : bool :=
  contains arch_suffix name && contains build_type name && endswith name ".zip".

(** The first loop: the first matching asset that is not an ffi build. *)
Fixpoint first_loop (arch_suffix build_type : string) (l : list Asset)
  : option (list record * (string * string)) :=
  match l with
  | [] => None
  | asset :: rest =>
      let name := asset_name asset in
      if asset_matches arch_suffix build_type name && negb (contains "ffi" name)
      then Some ([(INFO, "Found asset: " +:+ name)],
                 (browser_download_url asset, name))
      else first_loop arch_suffix build_type rest
  end.

(** The fallback loop: the first matching asset. *)
Fixpoint fallback_loop (arch_suffix build_type : string) (l : list Asset)
  : option (list record * (string * string)) :=
  match l with
  | [] => None
  | asset :: rest =>
      let name := asset_name asset in
      if asset_matches arch_suffix build_type name
      then Some ([(INFO, "Found fallback asset: " +:+ name)],
                 (browser_download_url asset, name))
      else fallback_loop arch_suffix build_type rest
  end.

Definition find_asset_for_arch (release_info : ReleaseInfo) (arch build_type : string)
  : list record * option (string * string) :=
  let arch_suffix := default arch (ARCH_MAP !! arch) in
  let looking :=
    (INFO, "Looking for architecture: " +:+ arch +:+ " (suffix: " +:+ arch_suffix
           +:+ "), build type: " +:+ build_type) in
  match first_loop arch_suffix build_type (get_assets release_info) with
  | Some (l, r) => (looking :: l, Some r)
  | None =>
      match fallback_loop arch_suffix build_type (get_assets release_info) with
      | Some (l, r) => (looking :: l, Some r)
      | None => ([looking], None)
      end
  end.

(** The loop of [get_version_from_filename]: [part[0]] raises
    [IndexError] on an empty part. *)
Fixpoint version_loop (parts : list string) : result string :=
  match parts with
  | [] => Return "unknown"
  | part :: rest =>
      match part with
      | EmptyString => Raise IndexError
      | String c _ => if isdigit c then Return part else version_loop rest
      end
  end.

(** [part[0].isdigit()] where [part] is not empty. *)
Definition starts_with_digit (part : string) : bool :=
  match part with
  | EmptyString => false
  | String c _ => isdigit c
  end.

Definition filename_parts (filename : string) : list string :=
  split "-" (replace ".zip" "" filename).

Definition get_version_from_filename (filename : string) : result string :=
  version_loop (filename_parts filename).

(** The parsed command line ([argparse] restricts [arch] and
    [build_type] to their choices). *)
Record Args : Type := {
  output : string;
  arch : string;
  build_type : string;
  version : string;
  include_headers : bool;
  verbose : bool
}.

Definition banner (args : Args) : list record :=
  [(INFO, "============================================================");
   (INFO, "libvips Windows Binary Downloader");
   (INFO, "============================================================");
   (INFO, "Target architecture: " +:+ arch args);
   (INFO, "Build type: " +:+ build_type args);
   (INFO, "Target version: " +:+ version args);
   (INFO, "Output directory: " +:+ output args)].

(** The lines [main] logs when no asset was found. *)
Definition not_found_lines (args : Args) (release_info : ReleaseInfo) : list record :=
  [(ERROR, "Could not find a download for architecture: " +:+ arch args
           +:+ ", build type: " +:+ build_type args);
   (ERROR, "Available assets:")]
  ++ map (λ a, (ERROR, "  - " +:+ asset_name a)) (get_assets release_info).

(** [main].  The two collaborators are parameters: [fetch] is what
    [get_latest_release_info()] logged and returned or raised, and
    [deliver url filename v] stands for everything after the version
    line (download, extraction, copy, VERSION.txt, summary), which logs
    and either completes or raises. *)
Definition main (args : Args) (fetch : list record * result ReleaseInfo)
    (deliver : string → string → string → list record * result unit)
  : list record * result Z :=
  match fetch with
  | (lf, Raise e) => (banner args ++ lf, Raise e)
  | (lf, Return release_info) =>
      let release_tag := default "unknown" (tag_name release_info) in
      let l0 := banner args ++ lf ++ [(INFO, "Latest release: " +:+ release_tag)] in
      match find_asset_for_arch release_info (arch args) (build_type args) with
      | (l1, None) =>
          (l0 ++ l1 ++ not_found_lines args release_info, Raise (SystemExit 1))
      | (l1, Some (download_url, filename)) =>
          match get_version_from_filename filename with
          | Raise e => (l0 ++ l1, Raise e)
          | Return v =>
              let l2 := [(INFO, "Download URL: " +:+ download_url);
                         (INFO, "Filename: " +:+ filename);
                         (INFO, "Version: " +:+ v)] in
              match deliver download_url filename v with
              | (l3, Raise e) => (l0 ++ l1 ++ l2 ++ l3, Raise e)
              | (l3, Return _) => (l0 ++ l1 ++ l2 ++ l3, Return 0%Z)
              end
          end
      end
  end.

End Windows.

(** ** The operating system *)

(** What [subprocess.run] hands back. *)
Record CompletedProcess : Type := {
  returncode : Z;
  stdout : string;
  stderr : string
}.

(** The collaborators of the Linux and macOS scripts.  [list_deps] is
    the dependency lister ([get_so_deps] on Linux: [ldd], then
    [readelf]; [get_dylib_deps] on macOS: [otool -L]) with the scraping of
    its output; it reads the file at the path it is given.  [copy2] is
    [shutil.copy2], which raises when it cannot copy.  [iterdir] gives
    the names in a directory in the order the system lists them. *)
Class OS : Type := {
  World : Type;
  path_exists : World → string → bool;
  is_file : World → string → bool;
  is_symlink : World → string → bool;
  resolve : World → string → string;
  iterdir : World → string → list string;
  copy2 : World → string → string → option World;
  list_deps : World → string → list string;
  subprocess_run : World → list string → World * CompletedProcess
}.

(** What a run leaves behind, in the order it happened. *)
Inductive Event : Type :=
| Log (r : Py.record)
| Copy2 (src dst : string)
| Add (name : string)
| ListDeps (path : string) (deps : list string)
| Run (cmd : list string) (rc : Z).

Global Instance Event_eq_dec : EqDecision Event.
Proof. solve_decision. Defined.

(** How a call ends.  [Exhausted] is the recursion budget running out
    (the interpreter bounds the depth of recursion as well). *)
Inductive Outcome (A : Type) : Type :=
| Done (a : A)
| Raised (e : Py.exn)
| Exhausted.
Global Arguments Done {A} a.
Global Arguments Raised {A} e.
Global Arguments Exhausted {A}.

Section Script.

Context `{os : OS}.

(** The state the scripts thread through their calls: the machine, the
    [copied] set every call of the closure builder shares, and the
    trace. *)
Record State : Type := {
  world : World;
  copied : gset string;
  trace : list Event
}.

Definition init (w : World) : State :=
  {| world := w; copied := ∅; trace := [] |}.

Definition M (A : Type) : Type := State → State * Outcome A.

Definition ret {A} (a : A) : M A := λ st, (st, Done a).

(** Sequencing stops at the first call that does not return. *)
Definition bind {A B} (c : M A) (k : A → M B) : M B :=
  λ st, match c st with
        | (st', Done a) => k a st'
        | (st', Raised e) => (st', Raised e)
        | (st', Exhausted) => (st', Exhausted)
        end.

(** [raise e] and the recursion budget running out. *)
Definition raise {A} (e : Py.exn) : M A := λ st, (st, Raised e).
Definition exhausted {A} : M A := λ st, (st, Exhausted).

Definition emit (e : Event) : M unit :=
  λ st, ({| world := world st; copied := copied st; trace := trace st ++ [e] |}, Done tt).

Definition log (lvl : Py.level) (msg : string) : M unit := emit (Log (lvl, msg)).

Local Notation "x ;; z" := (bind x (λ _, z))
  (at level 100, z at level 200, only parsing, right associativity).

(** Reading the machine. *)
Definition ask {A} (f : World → A) : M A := λ st, (st, Done (f (world st))).

Definition get_copied : M (gset string) := λ st, (st, Done (copied st)).

(** [copied.add(name)] *)
Definition copied_add (n : string) : M unit :=
  λ st, ({| world := world st; copied := {[n]} ∪ copied st;
            trace := trace st ++ [Add n] |}, Done tt).

(** [shutil.copy2(src, dst)] *)
Definition shutil_copy2 (src dst : string) : M unit :=
  λ st, match copy2 (world st) src dst with
        | Some w' => ({| world := w'; copied := copied st;
                         trace := trace st ++ [Copy2 src dst] |}, Done tt)
        | None => (st, Raised Py.OSError)
        end.

(** The call of the dependency lister on [path]: one event, which
    stands for the commands the lister runs and the lines they log. *)
Definition get_deps (path : string) : M (list string) :=
  λ st, let deps := list_deps (world st) path in
        ({| world := world st; copied := copied st;
            trace := trace st ++ [ListDeps path deps] |}, Done deps).

(** [for x in xs: body(x)] *)
Fixpoint for_each {A} (xs : list A) (body : A → M unit) : M unit :=
  match xs with
  | [] => ret tt
  | x :: rest => body x;; for_each rest body
  end.

(** [list(d.glob(pattern))] for a pattern without a directory part. *)
Definition glob (w : World) (d pattern : string) : list string :=
  map (pathlib.joinpath d) (List.filter (pathlib.fnmatch pattern) (iterdir w d)).

End Script.

Declare Scope script_scope.
Notation "x ← y ; z" := (bind y (λ x, z))
  (at level 20, y at level 100, z at level 200, only parsing) : script_scope.
Notation "x ;; z" := (bind x (λ _, z))
  (at level 100, z at level 200, only parsing, right associativity) : script_scope.
Local Open Scope script_scope.


(** [run_command(cmd)]: log, run, log a failure, hand back the result. *)
Definition run_command `{os : OS} (cmd : list string) : M CompletedProcess :=
  log Py.INFO ("Running command: " +:+ Py.join " " cmd);;
  result ← (λ st, let '(w', r) := subprocess_run (world st) cmd in
                  ({| world := w'; copied := copied st;
                      trace := trace st ++ [Run cmd (returncode r)] |}, Done r));
  (if bool_decide (returncode result ≠ 0%Z)
   then log Py.ERROR ("Command failed with code " +:+ pretty (returncode result));;
        (if negb (String.eqb (stderr result) "")
         then log Py.ERROR ("stderr: " +:+ stderr result)
         else ret tt)
   else ret tt);;
  ret result.

(** The three lines both recursive copiers log around the copy. *)
Definition log_symlink `{os : OS} (lib_path real_path : string) : M unit :=
  is_link ← ask (λ w, is_symlink w lib_path);
  if is_link
  then let symlink_name := pathlib.name lib_path in
       if negb (String.eqb symlink_name (pathlib.name real_path))
       then log Py.INFO ("  (resolved from symlink: " +:+ symlink_name +:+ " -> "
                         +:+ pathlib.name real_path +:+ ")")
       else ret tt
  else ret tt.

(** The search for the main library in both [main]s: the first
    pattern with a match, and its first match. *)
Fixpoint find_main_lib `{os : OS} (w : World) (vips_lib_dir : string)
    (patterns : list string) : option string :=
  match patterns with
  | [] => None
  | pattern :: rest =>
      match glob w vips_lib_dir pattern with
      | lib :: _ => Some lib
      | [] => find_main_lib w vips_lib_dir rest
      end
  end.

(** ** The common shape of the two recursive copiers

    [copy_shared_libs_recursive] and [copy_dylibs_recursive] differ in
    the guard that skips system libraries and in the references they
    follow; [walk] is the recursion with these two as parameters.  It is
    what the properties of the closure builder are proved on, see
    [Linux_walk] and [MacOS_walk]. *)

Section Walk.

Context `{os : OS}.

Variable skips : string → bool.
Variable next : World → string → option string.
Variable output_dir : string.

Import Py pathlib.

Fixpoint walk (fuel : nat) (lib_path : string) : M unit :=
  match fuel with
  | O => exhausted
  | S fuel' =>
      let lib_name := name lib_path in
      copied ← get_copied;
      if bool_decide (lib_name ∈ copied) then ret tt
      else if skips lib_path
      then log DEBUG ("Skipping system library: " +:+ lib_path)
      else
        there ← ask (λ w, path_exists w lib_path);
        if negb there
        then log WARNING ("Library not found: " +:+ lib_path)
        else
          log INFO ("Copying: " +:+ lib_path);;
          real_path ← ask (λ w, resolve w lib_path);
          let dest_path := joinpath output_dir lib_name in
          shutil_copy2 real_path dest_path;;
          copied_add lib_name;;
          log_symlink lib_path real_path;;
          log INFO ("  -> " +:+ dest_path);;
          deps ← get_deps dest_path;
          for_each deps (λ dep,
            target ← ask (λ w, next w dep);
            match target with
            | Some p => walk fuel' p
            | None => ret tt
            end)
  end.

End Walk.

(** ** tools/copy_libvips_linux.py *)

Module Linux.
Section Linux.

Context `{os : OS}.

Import Py pathlib.

(** [find_library(lib_name, search_paths)] *)
Fixpoint find_library (w : World) (lib_name : string) (search_paths : list string)
: option string :=
match search_paths with
| [] => None
| search_path :: rest =>
    let lib_path := joinpath search_path lib_name in
    if path_exists w lib_path then Some lib_path
    else match List.find (is_file w) (glob w search_path (lib_name +:+ "*")) with
         | Some lib => Some lib
         | None => find_library w lib_name rest
         end
end.

Definition system_prefixes : list string := ["/lib"; "/lib64"; "/usr/lib"; "/usr/lib64"].

Definition essential_libs : list string := ["libstdc++"; "libgcc_s"].

(** The guard "Skip system libraries": under a system prefix and not
  one of the essential libraries. *)
Definition skips (lib_path : string) : bool :=
existsb (λ prefix, startswith lib_path prefix) system_prefixes
&& negb (existsb (λ essential, contains essential (name lib_path)) essential_libs).

(** [copy_shared_libs_recursive(lib_path, output_dir, copied,
  homebrew_prefix, search_paths)]; [copied] is in the state, [fuel]
  bounds the depth of the recursion. *)
Fixpoint copy_shared_libs_recursive (fuel : nat)
  (lib_path output_dir homebrew_prefix : string) (search_paths : list string)
: M unit :=
match fuel with
| O => exhausted
| S fuel' =>
    let lib_name := name lib_path in
    copied ← get_copied;
    if bool_decide (lib_name ∈ copied) then ret tt
    else if skips lib_path
    then log DEBUG ("Skipping system library: " +:+ lib_path)
    else
      there ← ask (λ w, path_exists w lib_path);
      if negb there
      then log WARNING ("Library not found: " +:+ lib_path)
      else
        log INFO ("Copying: " +:+ lib_path);;
        real_path ← ask (λ w, resolve w lib_path);
        let dest_path := joinpath output_dir lib_name in
        shutil_copy2 real_path dest_path;;
        copied_add lib_name;;
        log_symlink lib_path real_path;;
        log INFO ("  -> " +:+ dest_path);;
        deps ← get_deps dest_path;
        for_each deps (λ dep,
          let dep_path := Path dep in
          if startswith dep_path homebrew_prefix
          then copy_shared_libs_recursive fuel' dep_path output_dir
                 homebrew_prefix search_paths
          else if negb (is_absolute dep_path)
          then
            found ← ask (λ w, find_library w dep search_paths);
            match found with
            | Some found =>
                if startswith found homebrew_prefix
                then copy_shared_libs_recursive fuel' found output_dir
                       homebrew_prefix search_paths
                else ret tt
            | None => ret tt
            end
          else ret tt)
end.

(** The body of the loop over [deps] in a call with budget
  [S fuel]. *)
Definition visit_dep (fuel : nat) (output_dir homebrew_prefix : string)
  (search_paths : list string) (dep : string) : M unit :=
let dep_path := Path dep in
if startswith dep_path homebrew_prefix
then copy_shared_libs_recursive fuel dep_path output_dir homebrew_prefix search_paths
else if negb (is_absolute dep_path)
then
  found ← ask (λ w, find_library w dep search_paths);
  match found with
  | Some found =>
      if startswith found homebrew_prefix
      then copy_shared_libs_recursive fuel found output_dir homebrew_prefix search_paths
      else ret tt
  | None => ret tt
  end
else ret tt.

(** The reference [dep] is followed as it stands: it lies under the
  Homebrew prefix. *)
Definition follows (homebrew_prefix dep : string) : bool :=
startswith (Path dep) homebrew_prefix.

(** The node the loop over [deps] recurses into for [dep], if any. *)
Definition next (homebrew_prefix : string) (search_paths : list string)
  (w : World) (dep : string) : option string :=
let dep_path := Path dep in
if startswith dep_path homebrew_prefix then Some dep_path
else if negb (is_absolute dep_path)
then match find_library w dep search_paths with
     | Some found => if startswith found homebrew_prefix then Some found else None
     | None => None
     end
else None.

(** The body of the loop of [fix_library_rpath]. *)
Definition set_rpath (so_file : string) : M unit :=
log INFO ("Fixing: " +:+ name so_file);;
run_command ["patchelf"; "--set-rpath"; "$ORIGIN"; so_file];;
ret tt.

(** [fix_library_rpath(output_dir)] *)
Definition fix_library_rpath (output_dir : string) : M unit :=
log INFO "Fixing library RPATH for redistribution...";;
result ← run_command ["which"; "patchelf"];
if bool_decide (returncode result ≠ 0%Z)
then log WARNING "patchelf not found, skipping RPATH fixing";;
     log WARNING "Install patchelf with: sudo apt-get install patchelf"
else
  so_files ← ask (λ w, glob w output_dir "*.so*");
  for_each so_files set_rpath.

(** The parser [main] builds. *)
Definition parser : list argparse.Argument :=
[argparse.add_argument ["--output"; "-o"] (argparse.store Path) None true;
 argparse.add_argument ["--include-headers"] argparse.store_true None false;
 argparse.add_argument ["--fix-rpath"] argparse.store_true
   (Some (argparse.VBool true)) false;
 argparse.add_argument ["--verbose"; "-v"] argparse.store_true None false].

(** The step "Fix RPATH" of [main]. *)
Definition rewrite_phase (args : gmap string argparse.value) (lib_output_dir : string)
: M unit :=
if argparse.truthy (argparse.attr args "fix_rpath")
then log INFO "";; fix_library_rpath lib_output_dir
else ret tt.

(** [main] from "Build search paths" to "Total libraries copied": the
  closure builder.  [sys.exit(1)] when there is no main library. *)
Definition build_closure (fuel : nat) (output homebrew_prefix vips_prefix : string)
: M unit :=
let lib_output_dir := joinpath output "lib" in
let search_paths := [joinpath vips_prefix "lib"; joinpath homebrew_prefix "lib"] in
let vips_lib_dir := joinpath vips_prefix "lib" in
main_lib ← ask (λ w, find_main_lib w vips_lib_dir ["libvips.so"; "libvips.so.*"]);
match main_lib with
| None =>
    log ERROR ("Could not find libvips.so in " +:+ vips_lib_dir);;
    raise (SystemExit 1)
| Some main_lib =>
    log INFO ("Main library: " +:+ main_lib);;
    log INFO "";;
    log INFO "Copying shared libraries...";;
    log INFO "----------------------------------------";;
    copy_shared_libs_recursive fuel main_lib lib_output_dir homebrew_prefix search_paths;;
    siblings ← ask (λ w, glob w vips_lib_dir "libvips*.so*");
    for_each siblings (λ lib,
      copied ← get_copied;
      if bool_decide (name lib ∉ copied)
      then copy_shared_libs_recursive fuel lib lib_output_dir homebrew_prefix search_paths
      else ret tt);;
    log INFO "----------------------------------------";;
    copied ← get_copied;
    log INFO ("Total libraries copied: " +:+ pretty (size copied))
end.

End Linux.
End Linux.

(** ** tools/copy_libvips_macos.py *)

Module MacOS.
Section MacOS.

Context `{os : OS}.

Import Py pathlib.

(** The guard "Skip system libraries". *)
Definition skips (lib_path : string) : bool :=
startswith lib_path "/usr/lib" || startswith lib_path "/System".

(** [copy_dylibs_recursive(lib_path, output_dir, copied,
  homebrew_prefix)] *)
Fixpoint copy_dylibs_recursive (fuel : nat)
  (lib_path output_dir homebrew_prefix : string) : M unit :=
match fuel with
| O => exhausted
| S fuel' =>
    let lib_name := name lib_path in
    copied ← get_copied;
    if bool_decide (lib_name ∈ copied) then ret tt
    else if skips lib_path
    then log DEBUG ("Skipping system library: " +:+ lib_path)
    else
      there ← ask (λ w, path_exists w lib_path);
      if negb there
      then log WARNING ("Library not found: " +:+ lib_path)
      else
        log INFO ("Copying: " +:+ lib_path);;
        real_path ← ask (λ w, resolve w lib_path);
        let dest_path := joinpath output_dir lib_name in
        shutil_copy2 real_path dest_path;;
        copied_add lib_name;;
        log_symlink lib_path real_path;;
        log INFO ("  -> " +:+ dest_path);;
        deps ← get_deps dest_path;
        for_each deps (λ dep,
          let dep_path := Path dep in
          if startswith dep_path homebrew_prefix
          then copy_dylibs_recursive fuel' dep_path output_dir homebrew_prefix
          else ret tt)
end.

(** The body of the loop over [deps] in a call with budget
  [S fuel]. *)
Definition visit_dep (fuel : nat) (output_dir homebrew_prefix : string)
  (dep : string) : M unit :=
let dep_path := Path dep in
if startswith dep_path homebrew_prefix
then copy_dylibs_recursive fuel dep_path output_dir homebrew_prefix
else ret tt.

(** The reference [dep] is followed: it lies under the Homebrew
  prefix. *)
Definition follows (homebrew_prefix dep : string) : bool :=
startswith (Path dep) homebrew_prefix.

(** The node the loop over [deps] recurses into for [dep], if any. *)
Definition next (homebrew_prefix : string) (w : World) (dep : string) : option string :=
let dep_path := Path dep in
if startswith dep_path homebrew_prefix then Some dep_path else None.

(** The body of the inner loop of [fix_library_paths], over the
  dependencies of [dylib]. *)
Definition fix_dep (output_dir dylib dep : string) : M unit :=
let dep_path := Path dep in
let dep_name := name dep_path in
there ← ask (λ w, path_exists w (joinpath output_dir dep_name));
if there
then let new_dep := "@rpath/" +:+ dep_name in
     run_command ["install_name_tool"; "-change"; dep; new_dep; dylib];;
     log INFO ("  Changed: " +:+ dep +:+ " -> " +:+ new_dep)
else ret tt.

(** The body of its outer loop, over the libraries. *)
Definition fix_dylib (output_dir dylib : string) : M unit :=
log INFO ("Fixing: " +:+ name dylib);;
let new_id := "@rpath/" +:+ name dylib in
run_command ["install_name_tool"; "-id"; new_id; dylib];;
deps ← get_deps dylib;
for_each deps (fix_dep output_dir dylib).

(** [fix_library_paths(output_dir)] *)
Definition fix_library_paths (output_dir : string) : M unit :=
log INFO "Fixing library paths for redistribution...";;
dylibs ← ask (λ w, glob w output_dir "*.dylib");
for_each dylibs (fix_dylib output_dir).

(** The parser [main] builds. *)
Definition parser : list argparse.Argument :=
[argparse.add_argument ["--output"; "-o"] (argparse.store Path) None true;
 argparse.add_argument ["--include-headers"] argparse.store_true None false;
 argparse.add_argument ["--fix-paths"] argparse.store_true
   (Some (argparse.VBool true)) false;
 argparse.add_argument ["--verbose"; "-v"] argparse.store_true None false].

(** The step "Fix library paths" of [main]. *)
Definition rewrite_phase (args : gmap string argparse.value) (lib_output_dir : string)
: M unit :=
if argparse.truthy (argparse.attr args "fix_paths")
then log INFO "";; fix_library_paths lib_output_dir
else ret tt.

(** [main] from "Find the main libvips dylib" to "Total libraries
  copied". *)
Definition build_closure (fuel : nat) (output homebrew_prefix vips_prefix : string)
: M unit :=
let lib_output_dir := joinpath output "lib" in
let vips_lib_dir := joinpath vips_prefix "lib" in
main_lib ← ask (λ w, find_main_lib w vips_lib_dir ["libvips.dylib"; "libvips.*.dylib"]);
match main_lib with
| None =>
    log ERROR ("Could not find libvips.dylib in " +:+ vips_lib_dir);;
    raise (SystemExit 1)
| Some main_lib =>
    log INFO ("Main library: " +:+ main_lib);;
    log INFO "";;
    log INFO "Copying dynamic libraries...";;
    log INFO "----------------------------------------";;
    copy_dylibs_recursive fuel main_lib lib_output_dir homebrew_prefix;;
    siblings ← ask (λ w, glob w vips_lib_dir "libvips*.dylib");
    for_each siblings (λ lib,
      copied ← get_copied;
      if bool_decide (name lib ∉ copied)
      then copy_dylibs_recursive fuel lib lib_output_dir homebrew_prefix
      else ret tt);;
    log INFO "----------------------------------------";;
    copied ← get_copied;
    log INFO ("Total libraries copied: " +:+ pretty (size copied))
end.

End MacOS.
End MacOS.

(** ** A small machine

    An instance of [OS] to run the scripts on.  The file system is a
    base of regular files, symbolic links and directories keyed by path,
    under an overlay that holds every file written since; a file carries
    what the lister and the patch tools read and write (the identifier
    of a Mach-O library, the references to other libraries, the ELF
    run-time search path). *)

Module Sim.

Record Obj : Type := {
  install_id : option string;
  needed : list string;
  rpath : option string
}.

Inductive Node : Type :=
| File (o : Obj)
| Symlink (target : string)
| Dir.

Record Machine : Type := {
  base : gmap string Node;
  overlay : gmap string Obj;
  installed : list string
}.

(** The node at [p]: a written file hides what the base has there. *)
Definition lookup (w : Machine) (p : string) : option Node :=
  match overlay w !! p with
  | Some o => Some (File o)
  | None => base w !! p
  end.

(** Follow symbolic links, at most [n] of them. *)
Fixpoint follow (n : nat) (w : Machine) (p : string) : option (string * Obj) :=
  match lookup w p with
  | Some (File o) => Some (p, o)
  | Some (Symlink target) =>
      match n with
      | O => None
      | S n' => follow n' w target
      end
  | Some Dir | None => None
  end.

Definition max_links : nat := 40.

Definition read (w : Machine) (p : string) : option (string * Obj) :=
  follow max_links w p.

Definition write (w : Machine) (p : string) (o : Obj) : Machine :=
  {| base := base w; overlay := <[p := o]> (overlay w); installed := installed w |}.

Definition sim_is_file (w : Machine) (p : string) : bool :=
  bool_decide (is_Some (read w p)).

Definition sim_exists (w : Machine) (p : string) : bool :=
  match lookup w p with
  | Some Dir => true
  | _ => sim_is_file w p
  end.

Definition sim_is_symlink (w : Machine) (p : string) : bool :=
  match lookup w p with
  | Some (Symlink _) => true
  | _ => false
  end.

Definition sim_resolve (w : Machine) (p : string) : string :=
  match read w p with
  | Some (q, _) => q
  | None => p
  end.

(** The name of [p] when [p] is an entry of directory [d]. *)
Definition entry_of (d p : string) : option string :=
  let n := pathlib.name p in
  if bool_decide (p = pathlib.joinpath d n ∧ n ≠ "") then Some n else None.

(** The paths that hold something: the written ones, then those of
    the base that are not hidden. *)
Definition paths (w : Machine) : list string :=
  (map_to_list (overlay w)).*1
  ++ List.filter (λ p, bool_decide (overlay w !! p = None)) (map_to_list (base w)).*1.

Definition sim_iterdir (w : Machine) (d : string) : list string :=
  omap (entry_of d) (paths w).

Definition sim_copy2 (w : Machine) (src dst : string) : option Machine :=
  match read w src with
  | Some (_, o) => Some (write w dst o)
  | None => None
  end.

Definition sim_list_deps (w : Machine) (p : string) : list string :=
  match read w p with
  | Some (_, o) => option_list (install_id o) ++ needed o
  | None => []
  end.

Definition completed (rc : Z) : CompletedProcess :=
  {| returncode := rc; stdout := ""; stderr := "" |}.

(** Apply [f] to the file at [p]; status 1 when there is none. *)
Definition patch (w : Machine) (p : string) (f : Obj → Obj) : Machine * CompletedProcess :=
  match read w p with
  | Some (q, o) => (write w q (f o), completed 0)
  | None => (w, completed 1)
  end.

Definition set_rpath (v : string) (o : Obj) : Obj :=
  {| install_id := install_id o; needed := needed o; rpath := Some v |}.

Definition set_id (v : string) (o : Obj) : Obj :=
  {| install_id := (λ _, v) <$> install_id o; needed := needed o; rpath := rpath o |}.

Definition change (old new : string) (o : Obj) : Obj :=
  {| install_id := install_id o;
     needed := map (λ r, if bool_decide (r = old) then new else r) (needed o);
     rpath := rpath o |}.

(** [which], [patchelf --set-rpath] and [install_name_tool -id] and
    [-change]; any other command is not found (status 127). *)
Definition sim_run (w : Machine) (cmd : list string) : Machine * CompletedProcess :=
  match cmd with
  | [prog; tool] =>
      if bool_decide (prog = "which")
      then (w, completed (if bool_decide (tool ∈ installed w) then 0 else 1))
      else (w, completed 127)
  | [prog; opt; v; p] =>
      if bool_decide (prog = "patchelf" ∧ opt = "--set-rpath")
      then patch w p (set_rpath v)
      else if bool_decide (prog = "install_name_tool" ∧ opt = "-id")
      then patch w p (set_id v)
      else (w, completed 127)
  | [prog; opt; old; new; p] =>
      if bool_decide (prog = "install_name_tool" ∧ opt = "-change")
      then patch w p (change old new)
      else (w, completed 127)
  | _ => (w, completed 127)
  end.

Global Instance machine : OS := {|
  World := Machine;
  path_exists := sim_exists;
  is_file := sim_is_file;
  is_symlink := sim_is_symlink;
  resolve := sim_resolve;
  iterdir := sim_iterdir;
  copy2 := sim_copy2;
  list_deps := sim_list_deps;
  subprocess_run := sim_run
|}.

(** A library file with the given references. *)
Definition lib (refs : list string) : Node :=
  File {| install_id := None; needed := refs; rpath := None |}.

(** A Mach-O library with its identifier and references. *)
Definition dylib (id : string) (refs : list string) : Node :=
  File {| install_id := Some id; needed := refs; rpath := None |}.

Definition machine_of (files : list (string * Node)) (tools : list string) : Machine :=
  {| base := list_to_map files; overlay := ∅; installed := tools |}.

(** The references out of a file. *)
Definition refs (o : Obj) : list string := option_list (install_id o) ++ needed o.

(** Where the copies of the files of [files] into [out] go. *)
Definition destinations (out : string) (files : list (string * Node)) : list string :=
  map (λ kv, pathlib.joinpath out (pathlib.name kv.1)) files.

(** A machine with the base [files] on which all that has been written
    are copies of files of the base, at these destinations. *)
Definition copies_only (out : string) (files : list (string * Node)) (w : Machine) : Prop :=
  base w = list_to_map files ∧
  ∀ k o, overlay w !! k = Some o →
    k ∈ destinations out files ∧ ∃ q, (q, File o) ∈ files.

(** A path that is not one of the destinations. *)
Definition outside (out : string) (files : list (string * Node)) (p : string) : Prop :=
  p ∉ destinations out files.

(** No symbolic link of the base leads to a destination. *)
Definition links_outside (out : string) (files : list (string * Node)) : bool :=
  forallb (λ kv, match kv.2 with
                 | Symlink t => bool_decide (t ∉ destinations out files)
                 | _ => true
                 end) files.

(** No destination is an entry of directory [d]. *)
Definition no_entries (out : string) (files : list (string * Node)) (d : string) : bool :=
  forallb (λ k, bool_decide (entry_of d k = None)) (destinations out files).

(** No destination lies under [prefix]. *)
Definition none_under (out : string) (files : list (string * Node)) (prefix : string) : bool :=
  forallb (λ k, negb (Py.startswith k prefix)) (destinations out files).

(** The references of all files of the base. *)
Definition all_refs (files : list (string * Node)) : list string :=
  flat_map (λ kv, match kv.2 with File o => refs o | _ => [] end) files.

(** No reference of the base, looked for in a directory of
    [search_paths], is a destination. *)
Definition joins_outside (out : string) (files : list (string * Node))
    (search_paths : list string) : bool :=
  forallb (λ dep, forallb (λ sp, bool_decide (pathlib.joinpath sp dep ∉ destinations out files))
                    search_paths)
          (all_refs files).

End Sim.

(** ** Two machines to run the scripts on *)

Module Examples.

Import Sim.

(** A Linuxbrew installation: libvips with two libraries of the
    prefix, one reference by bare name, the C library and the C++ run
    time of the system. *)
Definition linuxbrew : string := "/home/linuxbrew/.linuxbrew".

Definition linux_files : list (string * Node) :=
  [("/home/linuxbrew/.linuxbrew/opt/vips/lib/libvips.so.42",
    lib ["/home/linuxbrew/.linuxbrew/lib/libglib-2.0.so.0";
         "/lib/x86_64-linux-gnu/libc.so.6"; "libz.so.1"]);
   ("/home/linuxbrew/.linuxbrew/opt/vips/lib/libvips.so",
    Symlink "/home/linuxbrew/.linuxbrew/opt/vips/lib/libvips.so.42");
   ("/home/linuxbrew/.linuxbrew/lib/libglib-2.0.so.0",
    lib ["/lib/x86_64-linux-gnu/libc.so.6"]);
   ("/home/linuxbrew/.linuxbrew/lib/libz.so.1", lib []);
   ("/lib/x86_64-linux-gnu/libc.so.6", lib []);
   ("/usr/lib/x86_64-linux-gnu/libstdc++.so.6",
    lib ["/lib/x86_64-linux-gnu/libc.so.6"]);
   ("/out/lib", Dir)].

Definition linux : Machine := machine_of linux_files ["patchelf"].

(** The same machine without [patchelf]. *)
Definition linux_bare : Machine :=
  {| base := base linux; overlay := overlay linux; installed := [] |}.

(** The names of the paths of [linux]. *)
Definition linux_names : list string :=
  ["libvips.so.42"; "libvips.so"; "libglib-2.0.so.0"; "libz.so.1"; "libc.so.6";
   "libstdc++.so.6"; "lib"].

(** A Homebrew installation on macOS: libvips with glib and gettext,
    which both refer to a library that is not installed, and with a
    framework binary, whose name has no suffix. *)
Definition homebrew : string := "/opt/homebrew".

Definition macos_files : list (string * Node) :=
  [("/opt/homebrew/opt/vips/lib/libvips.42.dylib",
    dylib "/opt/homebrew/opt/vips/lib/libvips.42.dylib"
      ["/opt/homebrew/opt/glib/lib/libglib-2.0.0.dylib";
       "/opt/homebrew/opt/gettext/lib/libintl.8.dylib";
       "/opt/homebrew/opt/python/Frameworks/Python.framework/Versions/3.12/Python";
       "/usr/lib/libSystem.B.dylib"]);
   ("/opt/homebrew/opt/vips/lib/libvips.dylib",
    Symlink "/opt/homebrew/opt/vips/lib/libvips.42.dylib");
   ("/opt/homebrew/opt/glib/lib/libglib-2.0.0.dylib",
    dylib "/opt/homebrew/opt/glib/lib/libglib-2.0.0.dylib"
      ["/opt/homebrew/opt/pcre2/lib/libpcre2-8.0.dylib"; "/usr/lib/libSystem.B.dylib"]);
   ("/opt/homebrew/opt/gettext/lib/libintl.8.dylib",
    dylib "/opt/homebrew/opt/gettext/lib/libintl.8.dylib"
      ["/opt/homebrew/opt/pcre2/lib/libpcre2-8.0.dylib"; "/usr/lib/libSystem.B.dylib"]);
   ("/opt/homebrew/opt/python/Frameworks/Python.framework/Versions/3.12/Python",
    dylib "/opt/homebrew/opt/python/Frameworks/Python.framework/Versions/3.12/Python"
      ["/opt/homebrew/opt/gettext/lib/libintl.8.dylib"; "/usr/lib/libSystem.B.dylib"]);
   ("/usr/lib/libSystem.B.dylib", dylib "/usr/lib/libSystem.B.dylib" []);
   ("/usr/lib/libstdc++.6.dylib",
    dylib "/usr/lib/libstdc++.6.dylib" ["/usr/lib/libSystem.B.dylib"]);
   ("/out/lib", Dir)].

Definition macos : Machine := machine_of macos_files ["install_name_tool"].

Definition macos_names : list string :=
  ["libvips.42.dylib"; "libvips.dylib"; "libglib-2.0.0.dylib"; "libintl.8.dylib";
   "Python"; "libSystem.B.dylib"; "libstdc++.6.dylib"; "lib"].

(** The closure builder of the macOS script on [macos], and the
    rewriter after it. *)
Definition macos_closure : State * Outcome unit :=
  MacOS.build_closure 10 "/out" homebrew "/opt/homebrew/opt/vips" (init macos).

Definition macos_rewritten : State * Outcome unit :=
  MacOS.fix_library_paths "/out/lib" macos_closure.1.

(** The closure builder of the Linux script on [linux]. *)
Definition linux_closure : State * Outcome unit :=
  Linux.build_closure 10 "/out" linuxbrew "/home/linuxbrew/.linuxbrew/opt/vips"
    (init linux).

(** A release with builds for x64 only, and a request for arm64. *)
Definition release : Windows.ReleaseInfo :=
  {| Windows.assets :=
       Some [ {| Windows.asset_name := "vips-dev-w64-web-8.17.0-static-ffi.zip";
                 Windows.browser_download_url := "https://example.org/ffi.zip" |};
              {| Windows.asset_name := "vips-dev-w64-web-8.17.0-static.zip";
                 Windows.browser_download_url := "https://example.org/web.zip" |};
              {| Windows.asset_name := "vips-dev-w64-all-8.17.0.zip";
                 Windows.browser_download_url := "https://example.org/all.zip" |} ];
     Windows.tag_name := Some "v8.17.0" |}.

Definition for_arch (a : string) : Windows.Args :=
  {| Windows.output := "out"; Windows.arch := a; Windows.build_type := "web";
     Windows.version := "latest"; Windows.include_headers := false;
     Windows.verbose := false |}.

(** A delivery that goes well. *)
Definition delivered (url filename v : string) : list Py.record * Py.result unit :=
  ([], Py.Return tt).

(** The namespace of a command line, [∅] on a usage error. *)
Definition parsed (parser : list argparse.Argument) (argv : list string)
  : gmap string argparse.value :=
  match argparse.parse_args parser argv with
  | Py.Return ns => ns
  | Py.Raise _ => ∅
  end.

End Examples.

(** ** Reading a run *)

Section Reading.

Context `{os : OS}.

Import Py pathlib.

(** [st] with further events. *)
Definition logged (st : State) (events : list Event) : State :=
  {| world := world st; copied := copied st; trace := trace st ++ events |}.

(** The names added to [copied], in order. *)
Definition adds (t : list Event) : list string :=
  omap (λ e, match e with Add n => Some n | _ => None end) t.

(** The copies, additions to [copied] and lister calls of a trace. *)
Definition is_io (e : Event) : bool :=
  match e with
  | Copy2 _ _ | Add _ | ListDeps _ _ => true
  | Log _ | Run _ _ => false
  end.

Definition io (t : list Event) : list Event := List.filter is_io t.

(** The commands run, with their status. *)
Definition runs (t : list Event) : list (list string * Z) :=
  omap (λ e, match e with Run cmd rc => Some (cmd, rc) | _ => None end) t.

(** The lister calls. *)
Definition listings (t : list Event) : list (string * list string) :=
  omap (λ e, match e with ListDeps p deps => Some (p, deps) | _ => None end) t.

(** The machine after the events [t]: the copies and the commands are
    what changes it. *)
Fixpoint replay (w : World) (t : list Event) : option World :=
  match t with
  | [] => Some w
  | Copy2 src dst :: t' =>
      match copy2 w src dst with
      | Some w' => replay w' t'
      | None => None
      end
  | Run cmd _ :: t' => replay (subprocess_run w cmd).1 t'
  | _ :: t' => replay w t'
  end.

(** The set of the names in directory [d]. *)
Definition filenames (w : World) (d : string) : gset string :=
  list_to_set (iterdir w d).

(** A sequence of copies into [output_dir]: each is a copy to the
    destination, the addition of the name to [copied], and the lister
    called on the destination. *)
Inductive blocks (output_dir : string) : list Event → Prop :=
| blocks_nil : blocks output_dir []
| blocks_cons src n deps l :
    blocks output_dir l →
    blocks output_dir (Copy2 src (joinpath output_dir n) :: Add n
                       :: ListDeps (joinpath output_dir n) deps :: l).

(** [st'] is [st] after the events [t]: they add the names [adds t]
    to [copied], each once and none that was there, their copies and
    lister calls come in [blocks], no command is run, and the machine
    of [st'] is the machine of [st] after the copies of [t]. *)
Definition grows (output_dir : string) (st st' : State) (t : list Event) : Prop :=
  trace st' = trace st ++ t ∧
  copied st' = copied st ∪ list_to_set (adds t) ∧
  NoDup (adds t) ∧
  (∀ n, n ∈ adds t → n ∉ copied st) ∧
  blocks output_dir (io t) ∧
  runs t = [] ∧
  replay (world st) t = Some (world st').

(** The warning for a library that is not there. *)
Definition not_found (lib_path : string) : Event :=
  Log (WARNING, "Library not found: " +:+ lib_path).

Definition skipped (lib_path : string) : Event :=
  Log (DEBUG, "Skipping system library: " +:+ lib_path).

(** The run has dealt with the library at [lib_path]: its name is in
    [copied], or the warning that it was not found is in the trace. *)
Definition settled (st : State) (lib_path : string) : Prop :=
  name lib_path ∈ copied st ∨ not_found lib_path ∈ trace st.

(** Every reference in a list the lister gave in [t] that is followed
    to a library the guard lets through is settled in [st']. *)
Definition closes (skips follows : string → bool) (st' : State) (t : list Event) : Prop :=
  ∀ d deps dep,
    ListDeps d deps ∈ t → dep ∈ deps →
    follows dep = true → skips (Path dep) = false →
    settled st' (Path dep).

(** What [run_command(cmd)] leaves in the trace when the command
    completes with [r]. *)
Definition run_events (cmd : list string) (r : CompletedProcess) : list Event :=
  [Log (INFO, "Running command: " +:+ join " " cmd); Run cmd (returncode r)]
  ++ (if bool_decide (returncode r ≠ 0%Z)
      then Log (ERROR, "Command failed with code " +:+ pretty (returncode r))
           :: (if negb (String.eqb (stderr r) "")
               then [Log (ERROR, "stderr: " +:+ stderr r)] else [])
      else []).

(** The commands [fix_library_paths] runs on [dylib] when the lister
    reports [deps] for it and [present] tells which paths exist. *)
Definition change_command (dylib dep : string) : list string :=
  ["install_name_tool"; "-change"; dep; "@rpath/" +:+ name (Path dep); dylib].

Definition id_command (dylib : string) : list string :=
  ["install_name_tool"; "-id"; "@rpath/" +:+ name dylib; dylib].

Definition rewrite_commands (present : string → bool) (output_dir : string)
    (listing : string * list string) : list (list string) :=
  id_command listing.1
  :: map (change_command listing.1)
       (List.filter (λ dep, present (joinpath output_dir (name (Path dep)))) listing.2).

(** What [log_symlink] logs in machine [w]. *)
Definition symlink_lines (w : World) (lib_path real_path : string) : list Event :=
  if is_symlink w lib_path && negb (String.eqb (name lib_path) (name real_path))
  then [Log (INFO, "  (resolved from symlink: " +:+ name lib_path +:+ " -> "
                   +:+ name real_path +:+ ")")]
  else [].

(** What a recursive copier leaves in the trace for the node it
    copies, from "Copying:" to the call of the lister; [w] is the
    machine before the copy and [w'] the one after. *)
Definition copy_block (output_dir lib_path : string) (w w' : World) : list Event :=
  let real_path := resolve w lib_path in
  let dest_path := joinpath output_dir (name lib_path) in
  [Log (INFO, "Copying: " +:+ lib_path); Copy2 real_path dest_path; Add (name lib_path)]
  ++ symlink_lines w' lib_path real_path
  ++ [Log (INFO, "  -> " +:+ dest_path); ListDeps dest_path (list_deps w' dest_path)].

(** The state in which the loop over the dependencies starts. *)
Definition copied_state (output_dir lib_path : string) (st : State) (w' : World) : State :=
  {| world := w';
     copied := {[name lib_path]} ∪ copied st;
     trace := trace st ++ copy_block output_dir lib_path (world st) w' |}.

(** A copy of some file into [output_dir] under a name of [U]. *)
Definition copy_step (U : gset string) (output_dir : string) (w w' : World) : Prop :=
  ∃ src n, n ∈ U ∧ copy2 w src (joinpath output_dir n) = Some w'.

(** The names of the paths that exist, now and after any copies into
    [output_dir], all lie in the finite set [U]. *)
Definition bounded (U : gset string) (output_dir : string) (w0 : World) : Prop :=
  ∀ w, rtc (copy_step U output_dir) w0 w →
  ∀ p, path_exists w p = true → name p ∈ U.

(** The machine of [st] is reached from [w0] by copies, and the
    budget exceeds the number of names of [U] still to be copied. *)
Definition within (U : gset string) (output_dir : string) (w0 : World)
    (fuel : nat) (st : State) : Prop :=
  rtc (copy_step U output_dir) w0 (world st) ∧ size (U ∖ copied st) < fuel.

(** The lines the closure builder logs before and after the walks. *)
Definition closure_head (heading main_lib : string) : list Event :=
  [Log (INFO, "Main library: " +:+ main_lib); Log (INFO, ""); Log (INFO, heading);
   Log (INFO, "----------------------------------------")].

Definition closure_tail (st : State) : list Event :=
  [Log (INFO, "----------------------------------------");
   Log (INFO, "Total libraries copied: " +:+ pretty (size (copied st)))].

(** The body of the loop of [walk] over the dependencies. *)
Definition walk_body (skips : string → bool) (next : World → string → option string)
    (output_dir : string) (fuel : nat) (dep : string) : M unit :=
  target ← ask (λ w, next w dep);
  match target with
  | Some p => walk skips next output_dir fuel p
  | None => ret tt
  end.

(** The body of the loop of [main] over the versioned libraries. *)
Definition walk_sibling (skips : string → bool) (next : World → string → option string)
    (output_dir : string) (fuel : nat) (lib : string) : M unit :=
  copied ← get_copied;
  if bool_decide (name lib ∉ copied)
  then walk skips next output_dir fuel lib
  else ret tt.

(** The two walks of [main]: from the main library, and from every
    library of [vips_lib_dir] matching [pattern] whose name is not in
    [copied] yet. *)
Definition walk_all (skips : string → bool) (next : World → string → option string)
    (output_dir : string) (fuel : nat) (main_lib vips_lib_dir pattern : string) : M unit :=
  walk skips next output_dir fuel main_lib;;
  siblings ← ask (λ w, glob w vips_lib_dir pattern);
  for_each siblings (walk_sibling skips next output_dir fuel).

(** The shape of the closure builder in both [main]s; the two differ
    in the patterns and in the lines they log. *)
Definition closure (skips : string → bool) (next : World → string → option string)
    (patterns : list string) (pattern missing heading : string)
    (fuel : nat) (output vips_prefix : string) : M unit :=
  let lib_output_dir := joinpath output "lib" in
  let vips_lib_dir := joinpath vips_prefix "lib" in
  main_lib ← ask (λ w, find_main_lib w vips_lib_dir patterns);
  match main_lib with
  | None =>
      log ERROR (missing +:+ vips_lib_dir);;
      raise (SystemExit 1)
  | Some main_lib =>
      log INFO ("Main library: " +:+ main_lib);;
      log INFO "";;
      log INFO heading;;
      log INFO "----------------------------------------";;
      walk_all skips next lib_output_dir fuel main_lib vips_lib_dir pattern;;
      log INFO "----------------------------------------";;
      copied ← get_copied;
      log INFO ("Total libraries copied: " +:+ pretty (size copied))
  end.

(** What a second run of the closure builder relies on to repeat the
    first.  [good] holds of the machines the runs pass through and
    [source] of the paths the builder reads libraries from.  On good
    machines the sources look the same, a reference the lister reports
    is resolved the same way and to a source, and the directory of
    libvips lists the same names, all sources.  A copy of a source into
    [output_dir] can be made on every good machine when it can on one,
    leaves a good machine, and the lister reports the same for the
    copies.  Any copy makes its destination, removes no path and, when
    the destination was there, leaves the names of [output_dir] as they
    were. *)
Record repeatable (next : World → string → option string)
    (output_dir vips_lib_dir : string)
    (good : World → Prop) (source : string → Prop) : Prop := {
  rep_exists w v p :
    good w → good v → source p → path_exists w p = path_exists v p;
  rep_next w v w' d dep :
    good w → good v → good w' → dep ∈ list_deps w' d → next w dep = next v dep;
  rep_next_source w w' d dep p :
    good w → good w' → dep ∈ list_deps w' d → next w dep = Some p → source p;
  rep_iterdir w v :
    good w → good v → iterdir w vips_lib_dir = iterdir v vips_lib_dir;
  rep_entry_source w n :
    good w → n ∈ iterdir w vips_lib_dir → source (joinpath vips_lib_dir n);
  rep_copy_good w p w' :
    good w → source p → path_exists w p = true →
    copy2 w (resolve w p) (joinpath output_dir (name p)) = Some w' → good w';
  rep_copy w v p w' :
    good w → good v → source p → path_exists w p = true →
    copy2 w (resolve w p) (joinpath output_dir (name p)) = Some w' →
    ∃ v', copy2 v (resolve v p) (joinpath output_dir (name p)) = Some v'
          ∧ list_deps v' (joinpath output_dir (name p))
            = list_deps w' (joinpath output_dir (name p));
  rep_creates w src dst w' :
    copy2 w src dst = Some w' → path_exists w' dst = true;
  rep_persists w src dst w' p :
    copy2 w src dst = Some w' → path_exists w p = true → path_exists w' p = true;
  rep_overwrites w src dst w' :
    copy2 w src dst = Some w' → path_exists w dst = true →
    filenames w' output_dir = filenames w output_dir
}.

(** Two states on good machines with the same [copied]. *)
Definition alike (good : World → Prop) (st sv : State) : Prop :=
  good (world st) ∧ good (world sv) ∧ copied st = copied sv.

End Reading.

Global Arguments run_events : simpl never.
Global Arguments copy_block : simpl never.
Global Arguments change_command : simpl never.
Global Arguments id_command : simpl never.

(** ** Reading a run: copies, searches and reports *)

Section MoreReading.

Context `{os : OS}.

Import Py pathlib.

(** The copies of a trace. *)
Definition copies (t : list Event) : list (string * string) :=
  omap (λ e, match e with Copy2 src dst => Some (src, dst) | _ => None end) t.

(** [lib_name] is found in directory [d]: the path [d / lib_name]
    exists, or some entry of [d] matching [lib_name*] is a file. *)
Definition found_in (w : World) (lib_name d : string) : bool :=
  path_exists w (joinpath d lib_name)
  || existsb (is_file w) (glob w d (lib_name +:+ "*")).

(** The line [run_command] logs for a command that ends with status
    [rc]. *)
Definition failed (rc : Z) : Event :=
  Log (ERROR, "Command failed with code " +:+ pretty rc).

(** Every command of [t] that ends with a status other than 0 is
    followed at once by the line that reports the status. *)
Definition failures_reported (t : list Event) : Prop :=
  ∀ before cmd rc after,
    t = before ++ Run cmd rc :: after → rc ≠ 0%Z →
    ∃ rest, after = failed rc :: rest.

(** A trace in pieces: events other than commands, and what
    [run_command] leaves. *)
Inductive reported : list Event → Prop :=
| reported_nil : reported []
| reported_event e t :
    match e with Run _ _ => False | _ => True end →
    reported t → reported (e :: t)
| reported_run cmd r t :
    reported t → reported (run_events cmd r ++ t).

(** The call [c] adds to the trace events that satisfy [P]. *)
Definition emits {A} (P : list Event → Prop) (c : M A) : Prop :=
  ∀ st, ∃ t, trace (c st).1 = trace st ++ t ∧ P t.

(** A pattern without [*]. *)
Fixpoint literal (pat : string) : bool :=
  match pat with
  | EmptyString => true
  | String c pat' => negb (Ascii.eqb c "*") && literal pat'
  end.

End MoreReading.

(** ** More of Python's [str]: what the listers scrape with *)

Module Str.

(** [c.isspace()] for a character below 256 *)
Definition isspace (c : ascii) : bool :=
  existsb (N.eqb (N_of_ascii c)) [9; 10; 11; 12; 13; 28; 29; 30; 31; 32; 133; 160]%N.

(** [s.lstrip()] *)
Fixpoint lstrip (s : string) : string :=
  match s with
  | String c s' => if isspace c then lstrip s' else s
  | EmptyString => EmptyString
  end.

(** [s.rstrip()] *)
Fixpoint rstrip (s : string) : string :=
  match s with
  | EmptyString => EmptyString
  | String c s' =>
      match rstrip s' with
      | EmptyString => if isspace c then EmptyString else String c EmptyString
      | r => String c r
      end
  end.

(** [s.strip()] *)
Definition strip (s : string) : string := lstrip (rstrip s).

(** [s.split()]: the runs of characters that are not white space. *)
Fixpoint words_go (s cur : string) : list string :=
  match s with
  | EmptyString => if String.eqb cur "" then [] else [cur]
  | String c s' =>
      if isspace c
      then if String.eqb cur "" then words_go s' "" else cur :: words_go s' ""
      else words_go s' (cur +:+ String c EmptyString)
  end.

Definition words (s : string) : list string := words_go s EmptyString.

(** The characters below 256 that end a line for [splitlines]. *)
Definition is_linebreak (c : ascii) : bool :=
  existsb (N.eqb (N_of_ascii c)) [10; 11; 12; 13; 28; 29; 30; 133]%N.

(** [s.splitlines()]: a carriage return and the line feed after it
    end one line; no empty line is added after a final line break. *)
Fixpoint splitlines_go (s cur : string) : list string :=
  match s with
  | EmptyString => if String.eqb cur "" then [] else [cur]
  | String c s' =>
      if Ascii.eqb c "013"
      then match s' with
           | String "010" s'' => cur :: splitlines_go s'' EmptyString
           | _ => cur :: splitlines_go s' EmptyString
           end
      else if is_linebreak c then cur :: splitlines_go s' EmptyString
      else splitlines_go s' (cur +:+ String c EmptyString)
  end.

Definition splitlines (s : string) : list string := splitlines_go s EmptyString.

(** [s.find(sub)]: the index of the first occurrence, [None] for -1. *)
Fixpoint find_go (sub s : string) (i : nat) : option nat :=
  if String.prefix sub s then Some i
  else match s with
       | EmptyString => None
       | String _ s' => find_go sub s' (S i)
       end.

Definition find (sub s : string) : option nat := find_go sub s 0.

(** [s[a:b]] for indices that are not negative *)
Definition slice (a b : nat) (s : string) : string := String.substring a (b - a) s.

(** No character of [s] is white space; [s] is all white space; [s]
    does not hold the character [c]. *)
Fixpoint spaceless (s : string) : bool :=
  match s with
  | EmptyString => true
  | String c s' => negb (isspace c) && spaceless s'
  end.

Fixpoint blank (s : string) : bool :=
  match s with
  | EmptyString => true
  | String c s' => isspace c && blank s'
  end.

Fixpoint without (c : ascii) (s : string) : bool :=
  match s with
  | EmptyString => true
  | String d s' => negb (Ascii.eqb c d) && without c s'
  end.

End Str.

Module Scrape.

Import Py Str.

(** One line of the output of [ldd] in [get_so_deps]: the
    dependencies it adds, or the [IndexError] of [split()[0]] on a line
    with nothing after its [=>]. *)
Definition ldd_line (line : string) : result (list string) :=
  let line := strip line in
  if contains "=>" line
  then match split "=>" line with
       | _ :: part :: _ =>
           match words (strip part) with
           | [] => Raise IndexError
           | path :: _ =>
               if negb (String.eqb path "") && negb (String.eqb path "not")
                  && negb (startswith path "(")
               then Return [path]
               else Return []
           end
       | _ => Return []
       end
  else if startswith line "/"
  then match words line with
       | [] => Raise IndexError
       | path :: _ => Return [path]
       end
  else Return [].

Fixpoint ldd_loop (lines : list string) (deps : list string) : result (list string) :=
  match lines with
  | [] => Return deps
  | line :: rest =>
      match ldd_line line with
      | Return new => ldd_loop rest (deps ++ new)
      | Raise e => Raise e
      end
  end.

(** The loop of [get_so_deps] over the output of [ldd]. *)
Definition ldd_deps (out : string) : result (list string) :=
  ldd_loop (splitlines out) [].

(** One line of the output of [readelf -d]. *)
Definition readelf_line (line : string) : list string :=
  if contains "NEEDED" line
  then match find "[" line, find "]" line with
       | Some start, Some end_ => [slice (start + 1) end_ line]
       | _, _ => []
       end
  else [].

Definition readelf_deps (out : string) : list string :=
  flat_map readelf_line (splitlines out).

(** One line of the output of [otool -L] in [get_dylib_deps]. *)
Definition otool_line (line : string) : list string :=
  let line := strip line in
  if negb (String.eqb line "")
  then [strip (List.hd "" (split " (" line))]
  else [].

(** The loop of [get_dylib_deps]: the first line is skipped. *)
Definition otool_deps (out : string) : list string :=
  flat_map otool_line (List.tl (splitlines out)).

End Scrape.

(** ** The functions that run a command and read what it prints

    [subprocess_run] always hands back a completed process: a command
    that cannot be started is outside the model. *)

Section Tools.

Context `{os : OS}.

Import Py Str pathlib Scrape.

(** A result that is returned or raised, in a script. *)
Definition lift {A} (r : result A) : M A :=
  match r with
  | Return a => ret a
  | Raise e => raise e
  end.

(** [get_homebrew_prefix()], the same in the Linux and the macOS
    script. *)
Definition get_homebrew_prefix : M string :=
  result ← run_command ["brew"; "--prefix"];
  if bool_decide (returncode result ≠ 0%Z)
  then raise (RuntimeError "Failed to get Homebrew prefix")
  else ret (Path (strip (stdout result))).

(** [get_package_prefix(package)], the same in both scripts. *)
Definition get_package_prefix (package : string) : M string :=
  result ← run_command ["brew"; "--prefix"; package];
  if bool_decide (returncode result ≠ 0%Z)
  then raise (RuntimeError ("Failed to get prefix for " +:+ package))
  else ret (Path (strip (stdout result))).

(** [get_so_deps(so_path)] of the Linux script: [ldd], and [readelf]
    when [ldd] fails.  This is the lister itself, command by command;
    the copier above sees it through [list_deps], as one call. *)
Definition get_so_deps (so_path : string) : M (list string) :=
  result ← run_command ["ldd"; so_path];
  if bool_decide (returncode result = 0%Z)
  then lift (ldd_deps (stdout result))
  else
    result ← run_command ["readelf"; "-d"; so_path];
    if bool_decide (returncode result = 0%Z)
    then ret (readelf_deps (stdout result))
    else ret [].

(** [get_dylib_deps(dylib_path)] of the macOS script, command by
    command as well. *)
Definition get_dylib_deps (dylib_path : string) : M (list string) :=
  result ← run_command ["otool"; "-L"; dylib_path];
  if bool_decide (returncode result ≠ 0%Z)
  then ret []
  else ret (otool_deps (stdout result)).

(** [get_arch()] of the Linux script, given [platform.machine()]. *)
Definition get_arch (machine : string) : string :=
  if bool_decide (machine ∈ ["x86_64"; "amd64"]) then "x86_64"
  else if bool_decide (machine ∈ ["aarch64"; "arm64"]) then "arm64"
  else machine.

End Tools.

(** ** A machine that only answers commands

    A second instance of [OS], to run the functions that read the
    output of a command: it has no files, and answers a command from a
    table, with status 127 for a command that is not in it. *)

Module Console.

Definition Answers : Type := list (list string * CompletedProcess).

Definition console_run (w : Answers) (cmd : list string) : Answers * CompletedProcess :=
  match List.find (λ a, bool_decide (a.1 = cmd)) w with
  | Some a => (w, a.2)
  | None => (w, {| returncode := 127; stdout := ""; stderr := "" |})
  end.

Definition console : OS := {|
  World := Answers;
  path_exists := λ _ _, false;
  is_file := λ _ _, false;
  is_symlink := λ _ _, false;
  resolve := λ _ p, p;
  iterdir := λ _ _, [];
  copy2 := λ _ _ _, None;
  list_deps := λ _ _, [];
  subprocess_run := console_run
|}.

(** A command that goes well and prints [out]. *)
Definition prints (out : string) : CompletedProcess :=
  {| returncode := 0; stdout := out; stderr := "" |}.

(** A text from its lines, each ended by a line feed. *)
Definition text (lines : list string) : string :=
  foldr (λ l s, l +:+ String "010" s) "" lines.

Definition tab : string := String "009" "".

(** What [ldd] prints for a library with a virtual object, a library
    that is found, one that is not, and the loader. *)
Definition ldd_lines : list string :=
  [tab +:+ "linux-vdso.so.1 (0x00007ffc8a5f2000)";
   tab +:+ "libglib-2.0.so.0 => /home/linuxbrew/.linuxbrew/lib/libglib-2.0.so.0 (0x00007f1c)";
   tab +:+ "libmissing.so.3 => not found";
   tab +:+ "/lib64/ld-linux-x86-64.so.2 (0x00007f1d)"].

(** What [otool -L] prints: the file, then its references. *)
Definition otool_lines : list string :=
  ["/opt/homebrew/opt/vips/lib/libvips.42.dylib:";
   tab +:+ "/opt/homebrew/opt/vips/lib/libvips.42.dylib (compatibility version 60.0.0, current version 60.1.0)";
   tab +:+ "/usr/lib/libSystem.B.dylib (compatibility version 1.0.0, current version 1345.100.2)"].

(** A machine on which [brew] knows vips alone. *)
Definition brew : Answers :=
  [(["brew"; "--prefix"; "vips"], prints (text ["/opt/homebrew/opt/vips"]));
   (["brew"; "--prefix"], prints (String "010" ""));
   (["brew"; "--prefix"; "glib"],
    {| returncode := 1; stdout := ""; stderr := "Error: No available formula" |})].

End Console.

(** * Properties *)

(** ** The Windows script *)

Module WindowsSpec.

Import Py Windows.

Lemma first_loop_none arch_suffix build_type l :
  Forall (λ a, asset_matches arch_suffix build_type (asset_name a) = false) l →
  first_loop arch_suffix build_type l = None.
Proof.
  induction 1 as [|a l Ha _ IH]; simpl; [done|].
  by rewrite Ha.
Qed.

Lemma fallback_loop_none arch_suffix build_type l :
  fallback_loop arch_suffix build_type l = None ↔
  Forall (λ a, asset_matches arch_suffix build_type (asset_name a) = false) l.
Proof.
  induction l as [|a l IH]; simpl.
  - split; [constructor | done].
  - destruct (asset_matches _ _ _) eqn:E.
    + split; [done | inversion 1; congruence].
    + rewrite IH. split; [by constructor | by inversion 1].
Qed.

(** [find_asset_for_arch] returns [None] exactly when no asset passes
    the test of its loops. *)
Lemma find_asset_for_arch_none release_info arch build_type :
  (find_asset_for_arch release_info arch build_type).2 = None ↔
  Forall (λ a, asset_matches (default arch (ARCH_MAP !! arch)) build_type
                 (asset_name a) = false) (get_assets release_info).
Proof.
  unfold find_asset_for_arch. split.
  - destruct (first_loop _ _ _) as [[l r]|] eqn:E1; [done|].
    destruct (fallback_loop _ _ _) as [[l r]|] eqn:E2; [done|].
    intros _. by apply fallback_loop_none.
  - intros H. rewrite first_loop_none by done.
    apply fallback_loop_none in H. by rewrite H.
Qed.

Lemma version_loop_raises pre post :
  Forall (λ p, starts_with_digit p = false) pre →
  version_loop (pre ++ "" :: post) = Raise IndexError.
Proof.
  induction 1 as [|p pre Hp _ IH]; simpl; [done|].
  destruct p as [|c p]; [done|]. simpl in Hp. by rewrite Hp.
Qed.

Lemma version_loop_returns parts :
  Forall (λ p, p ≠ "") parts →
  version_loop parts = Return (default "unknown" (List.find starts_with_digit parts)).
Proof.
  induction 1 as [|p parts Hp _ IH]; simpl; [done|].
  destruct p as [|c p]; [done|]. simpl. by destruct (isdigit c).
Qed.

(** C5.  When no asset of the release matches the requested
    architecture and build type, [main] ends in [sys.exit(1)] and the
    last lines it has logged are the heading "Available assets:" followed
    by the name of every asset of the release, in order; and whenever
    [main] returns, the status of the process is 0. *)
Theorem main_exit_status :
  (∀ args fetch_log release_info deliver,
     Forall (λ a, asset_matches (default (arch args) (ARCH_MAP !! arch args))
                    (build_type args) (asset_name a) = false)
            (get_assets release_info) →
     let r := main args (fetch_log, Return release_info) deliver in
     r.2 = Raise (SystemExit 1) ∧ exit_code r.2 = 1%Z ∧
     ∃ before, r.1 = before ++ (ERROR, "Available assets:")
                        :: map (λ a, (ERROR, "  - " +:+ asset_name a))
                               (get_assets release_info)) ∧
  (∀ args fetch deliver z,
     (main args fetch deliver).2 = Return z → exit_code (main args fetch deliver).2 = 0%Z).
Proof.
  split.
  - intros args fetch_log release_info deliver H r. subst r.
    apply find_asset_for_arch_none in H. unfold main.
    destruct (find_asset_for_arch _ _ _) as [l1 [[u f]|]]; [done|]. cbn [fst snd].
    split_and!; [done..|].
    unfold not_found_lines.
    match goal with
    | |- ∃ before, ?l0 ++ l1 ++ [?e1; ?e2] ++ ?names = _ =>
        exists (l0 ++ l1 ++ [e1])
    end.
    by rewrite <-!app_assoc.
  - intros args [lf fetch] deliver z. unfold main.
    destruct fetch as [release_info|e]; [|done].
    destruct (find_asset_for_arch _ _ _) as [l1 [[u f]|]]; [|done].
    destruct (get_version_from_filename f); [|done].
    by destruct (deliver _ _ _) as [l3 [[]|e]].
Qed.

(** C10.  [get_version_from_filename] raises [IndexError] on some
    filename; it does so whenever the parts of the name hold an empty
    part with no part starting with a digit before it; and when no part
    is empty it returns the first part starting with a digit, or
    ["unknown"] when there is none. *)
Theorem get_version_from_filename_partial :
  get_version_from_filename "vips-dev--8.17.0.zip" = Raise IndexError ∧
  (∀ filename pre post,
     filename_parts filename = pre ++ "" :: post →
     Forall (λ p, starts_with_digit p = false) pre →
     get_version_from_filename filename = Raise IndexError) ∧
  (∀ filename,
     Forall (λ p, p ≠ "") (filename_parts filename) →
     get_version_from_filename filename =
       Return (default "unknown" (List.find starts_with_digit (filename_parts filename)))).
Proof.
  split_and!.
  - reflexivity.
  - intros filename pre post Hparts Hpre. unfold get_version_from_filename.
    rewrite Hparts. by apply version_loop_raises.
  - intros filename H. by apply version_loop_returns.
Qed.

End WindowsSpec.

(** ** The command line of the Linux and macOS scripts *)

Module FlagSpec.

Import Py argparse.

Lemma lookup_option_elem parser tok a :
  lookup_option parser tok = Some a → a ∈ parser.
Proof.
  unfold lookup_option. intros H. apply find_some in H as [H _].
  by apply list_elem_of_In.
Qed.

Lemma forallb_ext_elem {A} (f g : A → bool) (l : list A) :
  (∀ x, x ∈ l → f x = g x) → forallb f l = forallb g l.
Proof.
  induction l as [|x l IH]; simpl; intros H; [done|].
  rewrite (H x), IH; [done| |by left].
  intros y Hy. apply H. by right.
Qed.

(** A [store_true] argument whose value is [True] keeps it whatever
    the command line holds. *)
Lemma scan_keeps_true parser d argv :
  (∀ a, a ∈ parser → dest a = d → act a = store_true) →
  ∀ ns seen ns' seen',
    ns !! d = Some (VBool true) →
    scan parser argv ns seen = Some (ns', seen') →
    ns' !! d = Some (VBool true).
Proof.
  intros Hd. induction argv as [argv IH] using (well_founded_induction
    (Wf_nat.well_founded_ltof _ (@length string))).
  intros ns seen ns' seen' Hns Hscan.
  destruct argv as [|tok rest]; simpl in Hscan; [by simplify_eq|].
  destruct (lookup_option parser tok) as [a|] eqn:Ea; [|done].
  pose proof (lookup_option_elem _ _ _ Ea) as Hin.
  assert (∀ v, take a v ns !! d = Some (VBool true)) as Htake.
  { intros v. unfold take. destruct (decide (dest a = d)) as [Heq|Hne].
    - rewrite (Hd a Hin Heq), Heq. apply lookup_insert_eq.
    - destruct (act a); by rewrite lookup_insert_ne. }
  destruct (act a).
  - destruct rest as [|v rest']; [done|].
    destruct (startswith v "-"); [done|].
    eapply (IH rest'); [unfold Wf_nat.ltof; simpl; lia| apply Htake | done].
  - eapply (IH rest); [unfold Wf_nat.ltof; simpl; lia| apply Htake | done].
Qed.

Lemma parse_args_keeps_true parser d argv ns :
  (∀ a, a ∈ parser → dest a = d → act a = store_true) →
  defaults parser !! d = Some (VBool true) →
  parse_args parser argv = Return ns →
  attr ns d = VBool true.
Proof.
  intros Hd Hdef. unfold parse_args, attr.
  destruct (scan _ _ _ _) as [[ns' seen]|] eqn:E; [|done].
  destruct (forallb _ _); [|done]. intros [= <-].
  by erewrite scan_keeps_true.
Qed.

(** Giving a [store_true] flag whose default is [True] changes
    nothing. *)
Lemma parse_args_flag_idle parser a flag argv :
  lookup_option parser flag = Some a →
  act a = store_true →
  required a = false →
  defaults parser !! dest a = Some (VBool true) →
  (∀ b, b ∈ parser → required b = true → dest b ≠ dest a) →
  parse_args parser (flag :: argv) = parse_args parser argv.
Proof.
  intros Ha Hact Hreq Hdef Hother. unfold parse_args. simpl.
  rewrite Ha, Hact. unfold take. rewrite Hact.
  rewrite insert_id by done.
  assert (∀ ns s1 s2,
    (∀ x, x ≠ dest a → x ∈ s1 ↔ x ∈ s2) →
    match scan parser argv ns s1, scan parser argv ns s2 with
    | Some (n1, r1), Some (n2, r2) => n1 = n2 ∧ ∀ x, x ≠ dest a → x ∈ r1 ↔ x ∈ r2
    | None, None => True
    | _, _ => False
    end) as Hscan.
  { clear Ha Hact Hreq Hdef Hother flag.
    induction argv as [argv IH] using (well_founded_induction
      (Wf_nat.well_founded_ltof _ (@length string))).
    intros ns s1 s2 Hs. destruct argv as [|tok rest]; simpl; [done|].
    destruct (lookup_option parser tok) as [b|]; [|done].
    destruct (act b).
    - destruct rest as [|v rest']; [done|].
      destruct (startswith v "-"); [done|].
      apply (IH rest'); [unfold Wf_nat.ltof; simpl; lia|]. intros x Hx. by rewrite !elem_of_union, (Hs x Hx).
    - apply (IH rest); [unfold Wf_nat.ltof; simpl; lia|]. intros x Hx. by rewrite !elem_of_union, (Hs x Hx). }
  specialize (Hscan (defaults parser) ({[dest a]} ∪ ∅) ∅).
  destruct (scan parser argv (defaults parser) ({[dest a]} ∪ ∅)) as [[n1 r1]|],
           (scan parser argv (defaults parser) ∅) as [[n2 r2]|].
  2,3: exfalso; apply Hscan; intros x Hx;
       by rewrite elem_of_union, elem_of_singleton, elem_of_empty; intuition.
  2: done.
  destruct Hscan as [-> Hr].
  { intros x Hx. rewrite elem_of_union, elem_of_singleton, elem_of_empty. intuition. }
  assert (forallb (λ b, negb (required b) || bool_decide (dest b ∈ r1)) parser
          = forallb (λ b, negb (required b) || bool_decide (dest b ∈ r2)) parser) as ->; [|done].
  apply forallb_ext_elem. intros b Hb.
  destruct (required b) eqn:Erb; [|done]. simpl.
  apply bool_decide_ext, Hr, Hother; done.
Qed.

End FlagSpec.

(** ** The recursion of the closure builder *)

Section WalkFacts.

Context `{os : OS}.

Variable skips : string → bool.
Variable next : World → string → option string.
Variable output_dir : string.

Import Py pathlib.

Local Abbreviation walk_ := (walk skips next output_dir).
Local Abbreviation body_ := (walk_body skips next output_dir).

Lemma logged_nil st : logged st [] = st.
Proof. destruct st. unfold logged. simpl. by rewrite app_nil_r. Qed.

Lemma logged_logged st l1 l2 : logged (logged st l1) l2 = logged st (l1 ++ l2).
Proof. unfold logged. simpl. by rewrite app_assoc. Qed.

Lemma log_symlink_eq lib_path real_path st :
  log_symlink lib_path real_path st
  = (logged st (symlink_lines (world st) lib_path real_path), Done tt).
Proof.
  unfold log_symlink, symlink_lines, bind, ask, log, emit, ret.
  destruct (is_symlink _ _); simpl; [|by rewrite logged_nil].
  destruct (String.eqb _ _); simpl; [by rewrite logged_nil|done].
Qed.

(** *** The five ways a call goes *)

Lemma walk_seen fuel lib_path st :
  name lib_path ∈ copied st →
  walk_ (S fuel) lib_path st = (st, Done tt).
Proof.
  intros H. cbn [walk]. unfold bind, get_copied.
  by rewrite bool_decide_eq_true_2.
Qed.

Lemma walk_skipped fuel lib_path st :
  name lib_path ∉ copied st →
  skips lib_path = true →
  walk_ (S fuel) lib_path st = (logged st [skipped lib_path], Done tt).
Proof.
  intros H Hs. cbn [walk]. unfold bind, get_copied.
  by rewrite bool_decide_eq_false_2, Hs.
Qed.

Lemma walk_missing fuel lib_path st :
  name lib_path ∉ copied st →
  skips lib_path = false →
  path_exists (world st) lib_path = false →
  walk_ (S fuel) lib_path st = (logged st [not_found lib_path], Done tt).
Proof.
  intros H Hs He. cbn [walk]. unfold bind, get_copied, ask.
  by rewrite bool_decide_eq_false_2, Hs, He.
Qed.

Lemma walk_copy_fails fuel lib_path st :
  name lib_path ∉ copied st →
  skips lib_path = false →
  path_exists (world st) lib_path = true →
  copy2 (world st) (resolve (world st) lib_path)
        (joinpath output_dir (name lib_path)) = None →
  walk_ (S fuel) lib_path st
  = (logged st [Log (INFO, "Copying: " +:+ lib_path)], Raised OSError).
Proof.
  intros H Hs He Hc. cbn [walk].
  unfold bind, get_copied, ask, log, emit, shutil_copy2.
  rewrite bool_decide_eq_false_2, Hs, He by done. simpl. by rewrite Hc.
Qed.

Lemma walk_copies fuel lib_path st w' :
  name lib_path ∉ copied st →
  skips lib_path = false →
  path_exists (world st) lib_path = true →
  copy2 (world st) (resolve (world st) lib_path)
        (joinpath output_dir (name lib_path)) = Some w' →
  walk_ (S fuel) lib_path st
  = for_each (list_deps w' (joinpath output_dir (name lib_path))) (body_ fuel)
      (copied_state output_dir lib_path st w').
Proof.
  intros H Hs He Hc. cbn [walk].
  unfold bind, get_copied, ask, log, emit, shutil_copy2, copied_add, get_deps.
  rewrite bool_decide_eq_false_2, Hs, He by done. simpl. rewrite Hc.
  rewrite log_symlink_eq. simpl.
  unfold copied_state, copy_block, walk_body, bind, ask. simpl.
  rewrite <-!app_assoc. reflexivity.
Qed.

(** *** What a run adds to the state *)

Lemma adds_app t1 t2 : adds (t1 ++ t2) = adds t1 ++ adds t2.
Proof. apply omap_app. Qed.

Lemma io_app t1 t2 : io (t1 ++ t2) = io t1 ++ io t2.
Proof. apply List.filter_app. Qed.

Lemma blocks_app l1 l2 :
  blocks output_dir l1 → blocks output_dir l2 → blocks output_dir (l1 ++ l2).
Proof. induction 1; simpl; [done|]. intros. constructor. auto. Qed.

Lemma symlink_lines_quiet w a b :
  adds (symlink_lines w a b) = [] ∧ io (symlink_lines w a b) = [].
Proof. unfold symlink_lines. by destruct (_ && _). Qed.

Lemma runs_app t1 t2 : runs (t1 ++ t2) = runs t1 ++ runs t2.
Proof. apply omap_app. Qed.

Lemma replay_app t1 t2 w :
  replay w (t1 ++ t2)
  = match replay w t1 with Some w' => replay w' t2 | None => None end.
Proof.
  revert w. induction t1 as [|e t1 IH]; intros w; [done|].
  destruct e; simpl; auto. by destruct (copy2 w src dst).
Qed.

(** Lines of the log leave the machine as it is. *)
Lemma replay_quiet l w : io l = [] → runs l = [] → replay w l = Some w.
Proof.
  induction l as [|e l IH]; [done|]. destruct e; simpl; try done; auto.
Qed.

Lemma symlink_lines_runs w a b : runs (symlink_lines w a b) = [].
Proof. unfold symlink_lines. by destruct (_ && _). Qed.

Lemma grows_refl st : grows output_dir st st [].
Proof.
  split_and!; simpl;
    [by rewrite app_nil_r| |constructor|intros n []%elem_of_nil|constructor|done..].
  by rewrite (right_id_L ∅ (∪)).
Qed.

Lemma grows_logged st l :
  adds l = [] → io l = [] → runs l = [] → grows output_dir st (logged st l) l.
Proof.
  intros Ha Hio Hr. split_and!; simpl; rewrite ?Ha, ?Hio;
    [done| |constructor| |constructor|done|by apply replay_quiet].
  - simpl. by rewrite (right_id_L ∅ (∪)).
  - intros n []%elem_of_nil.
Qed.

Lemma grows_trans st1 st2 st3 t1 t2 :
  grows output_dir st1 st2 t1 → grows output_dir st2 st3 t2 →
  grows output_dir st1 st3 (t1 ++ t2).
Proof.
  intros (Ht1 & Hc1 & Hn1 & Hf1 & Hb1 & Hr1 & Hw1) (Ht2 & Hc2 & Hn2 & Hf2 & Hb2 & Hr2 & Hw2).
  split_and!.
  - by rewrite Ht2, Ht1, app_assoc.
  - rewrite Hc2, Hc1, adds_app, list_to_set_app_L. by rewrite (assoc_L (∪)).
  - rewrite adds_app. apply NoDup_app. split_and!; [done| |done].
    intros n Hn1' Hn2'. apply (Hf2 n Hn2'). rewrite Hc1.
    apply elem_of_union_r. by apply elem_of_list_to_set.
  - intros n. rewrite adds_app, elem_of_app. intros [Hn|Hn]; [by apply Hf1|].
    intros Hin. apply (Hf2 n Hn). rewrite Hc1. by apply elem_of_union_l.
  - rewrite io_app. by apply blocks_app.
  - by rewrite runs_app, Hr1, Hr2.
  - by rewrite replay_app, Hw1.
Qed.

Lemma grows_copy lib_path st w' :
  name lib_path ∉ copied st →
  copy2 (world st) (resolve (world st) lib_path)
        (joinpath output_dir (name lib_path)) = Some w' →
  grows output_dir st (copied_state output_dir lib_path st w')
        (copy_block output_dir lib_path (world st) w').
Proof.
  intros Hn Hc. pose proof (symlink_lines_quiet w' lib_path (resolve (world st) lib_path))
    as [Ha Hio].
  assert (adds (copy_block output_dir lib_path (world st) w') = [name lib_path]) as Hadds.
  { unfold copy_block. rewrite !adds_app, Ha. reflexivity. }
  split_and!.
  - done.
  - rewrite Hadds. simpl. by rewrite (right_id_L ∅ (∪)), (comm_L (∪)).
  - rewrite Hadds. apply NoDup_singleton.
  - rewrite Hadds. by intros n ->%list_elem_of_singleton.
  - unfold copy_block. rewrite !io_app, Hio. simpl. repeat constructor.
  - unfold copy_block. by rewrite !runs_app, symlink_lines_runs.
  - unfold copy_block. simpl. rewrite Hc. rewrite replay_app.
    rewrite replay_quiet; [done|apply symlink_lines_quiet|apply symlink_lines_runs].
Qed.

Lemma for_each_grows {A} (xs : list A) (body : A → M unit) :
  (∀ x st, ∃ t, grows output_dir st (body x st).1 t) →
  ∀ st, ∃ t, grows output_dir st (for_each xs body st).1 t.
Proof.
  intros Hbody. induction xs as [|x xs IH]; intros st; simpl.
  - exists []. apply grows_refl.
  - unfold bind. destruct (Hbody x st) as [t1 H1].
    destruct (body x st) as [st1 [[]|e|]]; simpl in *; [|by eauto..].
    destruct (IH st1) as [t2 H2]. eauto using grows_trans.
Qed.

Lemma walk_body_grows fuel :
  (∀ p st, ∃ t, grows output_dir st (walk_ fuel p st).1 t) →
  ∀ dep st, ∃ t, grows output_dir st (body_ fuel dep st).1 t.
Proof.
  intros IH dep st. unfold walk_body, bind, ask.
  destruct (next (world st) dep) as [p|]; [apply IH|].
  exists []. apply grows_refl.
Qed.

(** Whatever the machine answers and however the call ends, a call
    adds each name at most once and none that was in [copied], and
    every copy is paired with its lister call. *)
Lemma walk_grows fuel :
  ∀ lib_path st, ∃ t, grows output_dir st (walk_ fuel lib_path st).1 t.
Proof.
  induction fuel as [|fuel IH]; intros lib_path st.
  { exists []. apply grows_refl. }
  destruct (decide (name lib_path ∈ copied st)) as [Hin|Hin].
  { rewrite walk_seen by done. exists []. apply grows_refl. }
  destruct (skips lib_path) eqn:Hs.
  { rewrite walk_skipped by done. eexists. by apply grows_logged. }
  destruct (path_exists (world st) lib_path) eqn:He.
  2: { rewrite walk_missing by done. eexists. by apply grows_logged. }
  destruct (copy2 (world st) (resolve (world st) lib_path)
              (joinpath output_dir (name lib_path))) as [w'|] eqn:Hc.
  2: { rewrite walk_copy_fails by done. eexists. by apply grows_logged. }
  rewrite (walk_copies _ _ _ w') by done.
  destruct (for_each_grows (list_deps w' (joinpath output_dir (name lib_path)))
              (body_ fuel) (walk_body_grows fuel IH)
              (copied_state output_dir lib_path st w')) as [t Ht].
  eexists. eapply grows_trans; [by apply grows_copy | exact Ht].
Qed.

Lemma sibling_grows fuel (lib : string) st :
  ∃ t, grows output_dir st (walk_sibling skips next output_dir fuel lib st).1 t.
Proof.
  unfold walk_sibling, bind, get_copied. destruct (bool_decide _); [apply walk_grows|].
  exists []. apply grows_refl.
Qed.

Lemma walk_all_grows fuel main_lib vips_lib_dir pattern st :
  ∃ t, grows output_dir st
         (walk_all skips next output_dir fuel main_lib vips_lib_dir pattern st).1 t.
Proof.
  unfold walk_all. unfold bind at 1.
  pose proof (walk_grows fuel main_lib st) as [t1 Ht1].
  destruct (walk_ fuel main_lib st) as [st1 [[]|e|]]; simpl in Ht1; [|by eauto..].
  unfold bind at 1, ask.
  destruct (for_each_grows (glob (world st1) vips_lib_dir pattern)
              (walk_sibling skips next output_dir fuel)
              (sibling_grows fuel) st1) as [t2 Ht2].
  eauto using grows_trans.
Qed.

(** *** Every reference that is followed gets settled *)

Lemma settled_mono st st' t lib_path :
  grows output_dir st st' t → settled st lib_path → settled st' lib_path.
Proof.
  intros (Ht & Hc & _) [H|H]; [left|right].
  - rewrite Hc. by apply elem_of_union_l.
  - rewrite Ht. by apply elem_of_app; left.
Qed.

Lemma walk_settles fuel lib_path st st' :
  walk_ fuel lib_path st = (st', Done tt) →
  skips lib_path = false →
  settled st' lib_path.
Proof.
  destruct fuel as [|fuel]; [done|]. intros Hrun Hs.
  destruct (decide (name lib_path ∈ copied st)) as [Hin|Hin].
  { rewrite walk_seen in Hrun by done. simplify_eq. by left. }
  destruct (path_exists (world st) lib_path) eqn:He.
  2: { rewrite walk_missing in Hrun by done. simplify_eq. right. simpl.
       apply elem_of_app. right. by apply list_elem_of_singleton. }
  destruct (copy2 (world st) (resolve (world st) lib_path)
              (joinpath output_dir (name lib_path))) as [w'|] eqn:Hc.
  2: { by rewrite walk_copy_fails in Hrun. }
  rewrite (walk_copies _ _ _ w') in Hrun by done.
  destruct (for_each_grows (list_deps w' (joinpath output_dir (name lib_path)))
              (body_ fuel) (walk_body_grows fuel (walk_grows fuel))
              (copied_state output_dir lib_path st w')) as [t Ht].
  rewrite Hrun in Ht. eapply settled_mono; [exact Ht|].
  left. simpl. apply elem_of_union_l. by apply elem_of_singleton.
Qed.

Lemma for_each_done_inv {A} (xs : list A) (body : A → M unit) st st' :
  (∀ x st, ∃ t, grows output_dir st (body x st).1 t) →
  for_each xs body st = (st', Done tt) →
  ∀ x, x ∈ xs →
    ∃ sta stb, (∃ t, grows output_dir st sta t) ∧ body x sta = (stb, Done tt)
               ∧ (∃ t, grows output_dir stb st' t).
Proof.
  intros Hbody. revert st. induction xs as [|y xs IH]; intros st Hrun x Hx.
  { by apply elem_of_nil in Hx. }
  simpl in Hrun. unfold bind in Hrun.
  destruct (body y st) as [st1 [[]|e|]] eqn:Hy; [|done..].
  apply elem_of_cons in Hx as [->|Hx].
  - exists st, st1. split_and!; [exists []; apply grows_refl | done |].
    pose proof (for_each_grows xs body Hbody st1) as [t Ht].
    rewrite Hrun in Ht. eauto.
  - destruct (IH st1 Hrun x Hx) as (sta & stb & [t Ht] & Hb & Hrest).
    exists sta, stb. split_and!; [|done..].
    pose proof (Hbody y st) as [t1 Ht1]. rewrite Hy in Ht1.
    eauto using grows_trans.
Qed.

Section Followed.

Variable follows : string → bool.
Hypothesis next_follows :
  ∀ w dep, follows dep = true → next w dep = Some (Path dep).

Lemma for_each_closes {A} (xs : list A) (body : A → M unit) :
  (∀ x st, ∃ t, grows output_dir st (body x st).1 t) →
  (∀ x st st' t, body x st = (st', Done tt) →
                 trace st' = trace st ++ t → closes skips follows st' t) →
  ∀ st st' t, for_each xs body st = (st', Done tt) →
              trace st' = trace st ++ t → closes skips follows st' t.
Proof.
  intros Hgrows Hbody. induction xs as [|x xs IH]; intros st st' t Hrun Ht.
  { simpl in Hrun. unfold ret in Hrun. simplify_eq.
    rewrite <-(app_nil_r (trace st')) in Ht at 1. apply app_inv_head in Ht as <-.
    intros d deps dep []%elem_of_nil. }
  simpl in Hrun. unfold bind in Hrun.
  destruct (body x st) as [st1 [[]|e|]] eqn:Hx; [|done..].
  pose proof (Hgrows x st) as [t1 Ht1]. rewrite Hx in Ht1. simpl in Ht1.
  pose proof (for_each_grows xs body Hgrows st1) as [t2 Ht2].
  rewrite Hrun in Ht2. simpl in Ht2.
  assert (t = t1 ++ t2) as ->.
  { destruct Ht1 as [E1 _], Ht2 as [E2 _]. rewrite E2, E1, <-app_assoc in Ht.
    by apply app_inv_head in Ht. }
  intros d deps dep Hin Hdep Hf Hs. apply elem_of_app in Hin as [Hin|Hin].
  - eapply settled_mono; [exact Ht2|].
    eapply (Hbody x st st1 t1); [done|apply Ht1|done..].
  - eapply (IH st1 st' t2); [done|apply Ht2|done..].
Qed.

Lemma walk_closes fuel :
  ∀ lib_path st st' t,
    walk_ fuel lib_path st = (st', Done tt) →
    trace st' = trace st ++ t → closes skips follows st' t.
Proof.
  induction fuel as [|fuel IH]; intros lib_path st st' t Hrun Ht; [done|].
  assert (∀ l, trace (logged st l) = trace st ++ t → t = l) as Hlog.
  { intros l. simpl. by intros ?%app_inv_head. }
  assert (∀ e : Py.record, closes skips follows st' [Log e]) as Hquiet.
  { intros e d deps dep Hin. apply list_elem_of_singleton in Hin. done. }
  destruct (decide (name lib_path ∈ copied st)) as [Hin|Hin].
  { rewrite walk_seen in Hrun by done. simplify_eq.
    rewrite <-(app_nil_r (trace st')) in Ht at 1. apply app_inv_head in Ht as <-.
    intros d deps dep []%elem_of_nil. }
  destruct (skips lib_path) eqn:Hs.
  { rewrite walk_skipped in Hrun by done. simplify_eq.
    apply Hlog in Ht as ->. apply Hquiet. }
  destruct (path_exists (world st) lib_path) eqn:He.
  2: { rewrite walk_missing in Hrun by done. simplify_eq.
       apply Hlog in Ht as ->. apply Hquiet. }
  destruct (copy2 (world st) (resolve (world st) lib_path)
              (joinpath output_dir (name lib_path))) as [w'|] eqn:Hc.
  2: { by rewrite walk_copy_fails in Hrun. }
  rewrite (walk_copies _ _ _ w') in Hrun by done.
  set (deps0 := list_deps w' (joinpath output_dir (name lib_path))) in *.
  set (st1 := copied_state output_dir lib_path st w') in *.
  pose proof (walk_body_grows fuel (walk_grows fuel)) as Hgrows.
  pose proof (for_each_grows deps0 (body_ fuel) Hgrows st1) as [t2 Ht2].
  rewrite Hrun in Ht2. simpl in Ht2.
  assert (t = copy_block output_dir lib_path (world st) w' ++ t2) as ->.
  { destruct Ht2 as [E2 _]. rewrite E2 in Ht. subst st1. simpl in Ht.
    rewrite <-app_assoc in Ht. by apply app_inv_head in Ht. }
  assert (∀ x sta stb tb, body_ fuel x sta = (stb, Done tt) →
            trace stb = trace sta ++ tb → closes skips follows stb tb) as Hbody.
  { intros x sta stb tb. unfold walk_body, bind, ask.
    destruct (next (world sta) x) as [p|]; [apply IH|].
    unfold ret. intros ? Htb. simplify_eq.
    rewrite <-(app_nil_r (trace stb)) in Htb at 1. apply app_inv_head in Htb as <-.
    intros d deps dep []%elem_of_nil. }
  intros d deps dep Hev Hdep Hf Hsk. apply elem_of_app in Hev as [Hev|Hev].
  - assert (deps = deps0) as ->.
    { unfold copy_block in Hev. rewrite !elem_of_app in Hev.
      destruct Hev as [Hev|[Hev|Hev]].
      - repeat (apply elem_of_cons in Hev as [?|Hev]; [done|]).
        by apply elem_of_nil in Hev.
      - unfold symlink_lines in Hev. destruct (_ && _).
        + by apply list_elem_of_singleton in Hev.
        + by apply elem_of_nil in Hev.
      - apply elem_of_cons in Hev as [?|Hev]; [done|].
        apply list_elem_of_singleton in Hev. by simplify_eq. }
    destruct (for_each_done_inv deps0 (body_ fuel) st1 st' Hgrows Hrun dep Hdep)
      as (sta & stb & _ & Hb & [tb Htb]).
    eapply settled_mono; [exact Htb|].
    unfold walk_body, bind, ask in Hb. rewrite (next_follows _ _ Hf) in Hb.
    by eapply walk_settles.
  - eapply (for_each_closes deps0 (body_ fuel) Hgrows Hbody st1 st' t2);
      [done|apply Ht2|done..].
Qed.

Lemma walk_all_closes fuel main_lib vips_lib_dir pattern st st' t :
  walk_all skips next output_dir fuel main_lib vips_lib_dir pattern st = (st', Done tt) →
  trace st' = trace st ++ t →
  closes skips follows st' t ∧ (skips main_lib = false → settled st' main_lib).
Proof.
  intros Hrun Ht.
  pose proof (walk_all_grows fuel main_lib vips_lib_dir pattern st) as [t' Ht'].
  rewrite Hrun in Ht'. simpl in Ht'.
  unfold walk_all in Hrun. unfold bind at 1 in Hrun.
  destruct (walk_ fuel main_lib st) as [st1 [[]|e|]] eqn:Hmain; [|done..].
  unfold bind at 1, ask in Hrun.
  pose proof (walk_grows fuel main_lib st) as [t1 Ht1]. rewrite Hmain in Ht1. simpl in Ht1.
  pose proof (for_each_grows (glob (world st1) vips_lib_dir pattern)
                (walk_sibling skips next output_dir fuel)
                (sibling_grows fuel) st1) as [t2 Ht2].
  rewrite Hrun in Ht2. simpl in Ht2.
  assert (t = t1 ++ t2) as ->.
  { destruct Ht1 as [E1 _], Ht2 as [E2 _]. rewrite E2, E1, <-app_assoc in Ht.
    by apply app_inv_head in Ht. }
  split.
  - intros d deps dep Hev Hdep Hf Hsk. apply elem_of_app in Hev as [Hev|Hev].
    + eapply settled_mono; [exact Ht2|].
      eapply (walk_closes fuel main_lib st st1 t1); [done|apply Ht1|done..].
    + eapply (for_each_closes (glob (world st1) vips_lib_dir pattern)
                (walk_sibling skips next output_dir fuel)
                (sibling_grows fuel)); [|done|apply Ht2|done..].
      intros x sta stb tb. unfold walk_sibling, bind, get_copied.
      destruct (bool_decide _); [apply walk_closes|].
      unfold ret. intros ? Htb. simplify_eq.
      rewrite <-(app_nil_r (trace stb)) in Htb at 1. apply app_inv_head in Htb as <-.
      intros ? ? ? []%elem_of_nil.
  - intros Hs. eapply settled_mono; [exact Ht2|]. by eapply walk_settles.
Qed.

End Followed.

(** *** The recursion ends *)

Section Termination.

Variable U : gset string.
Variable w0 : World.
Hypothesis names_bounded : bounded U output_dir w0.

Lemma size_difference_insert (X : gset string) n :
  n ∈ U → n ∉ X → size (U ∖ ({[n]} ∪ X)) < size (U ∖ X).
Proof.
  intros HU HX. apply subset_size. split.
  - intros x. rewrite !elem_of_difference, elem_of_union. tauto.
  - intros Hsub. specialize (Hsub n).
    rewrite !elem_of_difference, elem_of_union, elem_of_singleton in Hsub. tauto.
Qed.

Lemma for_each_within {A} fuel (xs : list A) (body : A → M unit) :
  (∀ x st, within U output_dir w0 fuel st →
           (body x st).2 ≠ Exhausted ∧ within U output_dir w0 fuel (body x st).1) →
  ∀ st, within U output_dir w0 fuel st →
        (for_each xs body st).2 ≠ Exhausted ∧ within U output_dir w0 fuel (for_each xs body st).1.
Proof.
  intros Hbody. induction xs as [|x xs IH]; intros st Hst; simpl; [done|].
  unfold bind. destruct (Hbody x st Hst) as [Hne Hw].
  destruct (body x st) as [st1 [[]|e|]]; simpl in *; [by apply IH|done..].
Qed.

Lemma walk_within fuel :
  ∀ n lib_path st, within U output_dir w0 fuel st → fuel ≤ n →
    (walk_ n lib_path st).2 ≠ Exhausted ∧ within U output_dir w0 fuel (walk_ n lib_path st).1.
Proof.
  induction fuel as [|fuel IH]; intros n lib_path st [Hreach Hsize] Hn; [lia|].
  destruct n as [|n]; [lia|].
  destruct (decide (name lib_path ∈ copied st)) as [Hin|Hin].
  { by rewrite walk_seen. }
  destruct (skips lib_path) eqn:Hs.
  { by rewrite walk_skipped. }
  destruct (path_exists (world st) lib_path) eqn:He.
  2: { by rewrite walk_missing. }
  destruct (copy2 (world st) (resolve (world st) lib_path)
              (joinpath output_dir (name lib_path))) as [w'|] eqn:Hc.
  2: { by rewrite walk_copy_fails. }
  rewrite (walk_copies _ _ _ w') by done.
  pose proof (names_bounded _ Hreach _ He) as HU.
  assert (within U output_dir w0 fuel (copied_state output_dir lib_path st w')) as Hst1.
  { split; simpl.
    - eapply rtc_r; [done|]. by exists (resolve (world st) lib_path), (name lib_path).
    - pose proof (size_difference_insert (copied st) _ HU Hin). lia. }
  destruct (for_each_within fuel
              (list_deps w' (joinpath output_dir (name lib_path))) (body_ n)) with
    (st := copied_state output_dir lib_path st w') as [Hne [Hr Hsz]]; [|done|].
  { intros x sta Hsta. unfold walk_body, bind, ask.
    destruct (next (world sta) x) as [p|]; [|done].
    apply IH; [done|lia]. }
  split; [done|]. split; [done|lia].
Qed.

(** With a budget above the number of names still to be copied the
    recursion does not run out. *)
Lemma walk_terminates fuel lib_path st :
  rtc (copy_step U output_dir) w0 (world st) →
  size (U ∖ copied st) < fuel →
  (walk_ fuel lib_path st).2 ≠ Exhausted.
Proof. intros Hr Hs. by apply (walk_within fuel fuel lib_path st). Qed.

Lemma walk_all_terminates fuel main_lib vips_lib_dir pattern st :
  rtc (copy_step U output_dir) w0 (world st) →
  size (U ∖ copied st) < fuel →
  (walk_all skips next output_dir fuel main_lib vips_lib_dir pattern st).2 ≠ Exhausted.
Proof.
  intros Hr Hs. unfold walk_all. unfold bind at 1.
  destruct (walk_within fuel fuel main_lib st) as [Hne Hw]; [done..|].
  destruct (walk_ fuel main_lib st) as [st1 [[]|e|]]; [|done..].
  unfold bind at 1, ask.
  apply for_each_within with (fuel := fuel); [|done].
  intros x sta Hsta. unfold walk_sibling, bind, get_copied.
  destruct (bool_decide _); [|done]. by apply walk_within.
Qed.

End Termination.

End WalkFacts.

(** ** The two copiers are instances of [walk] *)

Section Instances.

Context `{os : OS}.

Import Py pathlib.

Lemma bind_ext {A B} (c : M A) (k k' : A → M B) st :
  (∀ a st', k a st' = k' a st') → bind c k st = bind c k' st.
Proof. intros H. unfold bind. destruct (c st) as [st' [a|e|]]; auto. Qed.

Lemma bind_cong {A B} (c c' : M A) (k k' : A → M B) st :
  c st = c' st → (∀ a st', k a st' = k' a st') → bind c k st = bind c' k' st.
Proof. intros Hc H. unfold bind. rewrite Hc. destruct (c' st) as [st' [a|e|]]; auto. Qed.

Lemma bind_assoc {A B C} (c : M A) (k : A → M B) (k' : B → M C) st :
  bind (bind c k) k' st = bind c (λ a, bind (k a) k') st.
Proof. unfold bind. by destruct (c st) as [st' [a|e|]]. Qed.

Lemma for_each_ext {A} (xs : list A) (body body' : A → M unit) st :
  (∀ x st', body x st' = body' x st') → for_each xs body st = for_each xs body' st.
Proof.
  intros H. revert st. induction xs as [|x xs IH]; intros st; simpl; [done|].
  unfold bind. rewrite H. destruct (body' x st) as [st' [[]|e|]]; auto.
Qed.

Ltac same_shape :=
  repeat first
    [ reflexivity
    | apply bind_ext; intros ? ?
    | apply for_each_ext; intros ? ?
    | match goal with
      | |- (if ?b then _ else _) _ = (if ?b then _ else _) _ => destruct b
      end ].

Lemma Linux_walk fuel lib_path output_dir homebrew_prefix search_paths st :
  Linux.copy_shared_libs_recursive fuel lib_path output_dir homebrew_prefix search_paths st
  = walk Linux.skips (Linux.next homebrew_prefix search_paths) output_dir fuel lib_path st.
Proof.
  revert lib_path st. induction fuel as [|fuel IH]; intros lib_path st; [done|].
  cbn [Linux.copy_shared_libs_recursive walk]. same_shape.
  unfold Linux.next, bind, ask.
  destruct (startswith _ _); [apply IH|].
  destruct (negb _); [|done].
  destruct (Linux.find_library _ _ _) as [found|]; [|done].
  destruct (startswith _ _); [apply IH|done].
Qed.

Lemma MacOS_walk fuel lib_path output_dir homebrew_prefix st :
  MacOS.copy_dylibs_recursive fuel lib_path output_dir homebrew_prefix st
  = walk MacOS.skips (MacOS.next homebrew_prefix) output_dir fuel lib_path st.
Proof.
  revert lib_path st. induction fuel as [|fuel IH]; intros lib_path st; [done|].
  cbn [MacOS.copy_dylibs_recursive walk]. same_shape.
  unfold MacOS.next, bind, ask.
  destruct (startswith _ _); [apply IH|done].
Qed.

Lemma Linux_visit fuel output_dir homebrew_prefix search_paths dep st :
  Linux.visit_dep fuel output_dir homebrew_prefix search_paths dep st
  = walk_body Linux.skips (Linux.next homebrew_prefix search_paths) output_dir fuel dep st.
Proof.
  unfold Linux.visit_dep, walk_body, Linux.next, bind, ask.
  destruct (startswith _ _); [apply Linux_walk|].
  destruct (negb _); [|done].
  destruct (Linux.find_library _ _ _) as [found|]; [|done].
  destruct (startswith _ _); [apply Linux_walk|done].
Qed.

Lemma MacOS_visit fuel output_dir homebrew_prefix dep st :
  MacOS.visit_dep fuel output_dir homebrew_prefix dep st
  = walk_body MacOS.skips (MacOS.next homebrew_prefix) output_dir fuel dep st.
Proof.
  unfold MacOS.visit_dep, walk_body, MacOS.next, bind, ask.
  destruct (startswith _ _); [apply MacOS_walk|done].
Qed.

Lemma Linux_closure fuel output homebrew_prefix vips_prefix st :
  Linux.build_closure fuel output homebrew_prefix vips_prefix st
  = closure Linux.skips
      (Linux.next homebrew_prefix [joinpath vips_prefix "lib"; joinpath homebrew_prefix "lib"])
      ["libvips.so"; "libvips.so.*"] "libvips*.so*"
      "Could not find libvips.so in " "Copying shared libraries..."
      fuel output vips_prefix st.
Proof.
  unfold Linux.build_closure, closure. same_shape.
  destruct a as [main_lib|]; [|done]. same_shape.
  unfold walk_all. rewrite bind_assoc.
  apply bind_cong; [apply Linux_walk|]. intros [] ?. rewrite bind_assoc.
  apply bind_ext. intros siblings ?. apply bind_cong; [|done].
  apply for_each_ext. intros lib ?. unfold walk_sibling. same_shape. apply Linux_walk.
Qed.

Lemma MacOS_closure fuel output homebrew_prefix vips_prefix st :
  MacOS.build_closure fuel output homebrew_prefix vips_prefix st
  = closure MacOS.skips (MacOS.next homebrew_prefix)
      ["libvips.dylib"; "libvips.*.dylib"] "libvips*.dylib"
      "Could not find libvips.dylib in " "Copying dynamic libraries..."
      fuel output vips_prefix st.
Proof.
  unfold MacOS.build_closure, closure. same_shape.
  destruct a as [main_lib|]; [|done]. same_shape.
  unfold walk_all. rewrite bind_assoc.
  apply bind_cong; [apply MacOS_walk|]. intros [] ?. rewrite bind_assoc.
  apply bind_ext. intros siblings ?. apply bind_cong; [|done].
  apply for_each_ext. intros lib ?. unfold walk_sibling. same_shape. apply MacOS_walk.
Qed.

End Instances.

(** ** The closure builder of [main] *)

Section ClosureFacts.

Context `{os : OS}.

Variable skips : string → bool.
Variable next : World → string → option string.
Variables (patterns : list string) (pattern missing heading : string).
Variables (fuel : nat) (output vips_prefix : string).

Import Py pathlib.

Local Abbreviation lib_output_dir := (joinpath output "lib").
Local Abbreviation vips_lib_dir := (joinpath vips_prefix "lib").
Local Abbreviation closure_ :=
  (closure skips next patterns pattern missing heading fuel output vips_prefix).

Lemma closure_unfold st :
  closure_ st
  = match find_main_lib (world st) vips_lib_dir patterns with
    | None => (logged st [Log (ERROR, missing +:+ vips_lib_dir)], Raised (SystemExit 1))
    | Some main_lib =>
        match walk_all skips next lib_output_dir fuel main_lib vips_lib_dir pattern
                (logged st (closure_head heading main_lib)) with
        | (st2, Done _) => (logged st2 (closure_tail st2), Done tt)
        | (st2, Raised e) => (st2, Raised e)
        | (st2, Exhausted) => (st2, Exhausted)
        end
    end.
Proof.
  unfold closure. unfold bind at 1, ask.
  destruct (find_main_lib _ _ _) as [main_lib|]; [|done].
  unfold bind at 1 2 3 4, log, emit. simpl. unfold bind at 1.
  replace {| world := world st; copied := copied st;
             trace := (((trace st ++ [Log (INFO, "Main library: " +:+ main_lib)])
                        ++ [Log (INFO, "")]) ++ [Log (INFO, heading)])
                      ++ [Log (INFO, "----------------------------------------")] |}
    with (logged st (closure_head heading main_lib)).
  2: { unfold logged, closure_head. f_equal. by rewrite <-!app_assoc. }
  destruct (walk_all _ _ _ _ _ _ _ _) as [st2 [[]|e|]]; [|done..].
  unfold bind, emit, get_copied. simpl. unfold logged, closure_tail. f_equal. f_equal.
  by rewrite <-app_assoc.
Qed.

Lemma closure_grows st :
  ∃ t, grows lib_output_dir st (closure_ st).1 t.
Proof.
  rewrite closure_unfold. destruct (find_main_lib _ _ _) as [main_lib|].
  2: { eexists. by apply grows_logged. }
  pose proof (walk_all_grows skips next lib_output_dir fuel main_lib vips_lib_dir pattern
                (logged st (closure_head heading main_lib))) as [t Ht].
  assert (grows lib_output_dir st (logged st (closure_head heading main_lib)) (closure_head heading main_lib))
    as Hhead by by apply grows_logged.
  destruct (walk_all _ _ _ _ _ _ _ _) as [st2 [[]|e|]]; simpl in *.
  - eexists. eapply grows_trans; [eapply grows_trans; [exact Hhead|exact Ht]|].
    by apply grows_logged.
  - eexists. eapply grows_trans; [exact Hhead|exact Ht].
  - eexists. eapply grows_trans; [exact Hhead|exact Ht].
Qed.

Lemma closure_closes follows st st' t :
  (∀ w dep, follows dep = true → next w dep = Some (Path dep)) →
  closure_ st = (st', Done tt) →
  trace st' = trace st ++ t →
  closes skips follows st' t ∧
  ∀ main_lib, find_main_lib (world st) vips_lib_dir patterns = Some main_lib →
              skips main_lib = false → settled st' main_lib.
Proof.
  intros Hf Hrun Ht. rewrite closure_unfold in Hrun.
  destruct (find_main_lib _ _ _) as [main_lib|]; [|done].
  destruct (walk_all _ _ _ _ _ _ _ _) as [st2 [[]|e|]] eqn:Hall; [|done..].
  simplify_eq.
  pose proof (walk_all_grows skips next lib_output_dir fuel main_lib vips_lib_dir pattern
                (logged st (closure_head heading main_lib))) as [t2 Ht2].
  rewrite Hall in Ht2. simpl in Ht2.
  assert (grows lib_output_dir st2 (logged st2 (closure_tail st2)) (closure_tail st2))
    as Htail by by apply grows_logged.
  assert (t = closure_head heading main_lib ++ t2 ++ closure_tail st2) as ->.
  { destruct Ht2 as [E2 _]. simpl in Ht, E2. rewrite E2, <-!app_assoc in Ht.
    by apply app_inv_head in Ht. }
  destruct (walk_all_closes skips next lib_output_dir follows Hf fuel main_lib
              vips_lib_dir pattern _ _ t2 Hall) as [Hcl Hroot]; [apply Ht2|].
  split.
  - intros d deps dep Hev Hdep Hfd Hsk. eapply settled_mono; [exact Htail|].
    rewrite !elem_of_app in Hev. destruct Hev as [Hev|[Hev|Hev]].
    + repeat (apply elem_of_cons in Hev as [?|Hev]; [done|]). by apply elem_of_nil in Hev.
    + by eapply Hcl.
    + repeat (apply elem_of_cons in Hev as [?|Hev]; [done|]). by apply elem_of_nil in Hev.
  - intros ? [= <-] Hs. eapply settled_mono; [exact Htail|]. by apply Hroot.
Qed.

Lemma closure_terminates U st :
  bounded U lib_output_dir (world st) →
  size (U ∖ copied st) < fuel →
  (closure_ st).2 ≠ Exhausted.
Proof.
  intros Hb Hs. rewrite closure_unfold. destruct (find_main_lib _ _ _) as [main_lib|]; [|done].
  pose proof (walk_all_terminates skips next lib_output_dir U (world st) Hb fuel main_lib
                vips_lib_dir pattern (logged st (closure_head heading main_lib))) as Hne.
  destruct (walk_all _ _ _ _ _ _ _ _) as [st2 [[]|e|]]; [done..|].
  by apply Hne.
Qed.

End ClosureFacts.

(** ** A second run of the closure builder *)

Section Idempotence.

Context `{os : OS}.

Variable skips : string → bool.
Variable next : World → string → option string.
Variables (patterns : list string) (pattern missing heading : string).
Variables (fuel : nat) (output vips_prefix : string).
Variables (good : World → Prop) (source : string → Prop).

Import Py pathlib.

Local Abbreviation lib_output_dir := (joinpath output "lib").
Local Abbreviation vips_lib_dir := (joinpath vips_prefix "lib").
Local Abbreviation closure_ :=
  (closure skips next patterns pattern missing heading fuel output vips_prefix).

Hypothesis Hrep : repeatable next lib_output_dir vips_lib_dir good source.

(** *** The second run goes the way of the first *)

Lemma for_each_alike {A} (xs : list A) (body : A → M unit) :
  (∀ x st sv st', x ∈ xs → alike good st sv → body x st = (st', Done tt) →
     ∃ sv', body x sv = (sv', Done tt) ∧ alike good st' sv') →
  ∀ st sv st', alike good st sv → for_each xs body st = (st', Done tt) →
     ∃ sv', for_each xs body sv = (sv', Done tt) ∧ alike good st' sv'.
Proof.
  induction xs as [|x xs IH]; intros Hbody st sv st' Hal Hrun; simpl in *.
  - unfold ret in *. simplify_eq. eauto.
  - unfold bind in *. destruct (body x st) as [st1 [[]|e|]] eqn:Hx; [|done..].
    destruct (Hbody x st sv st1) as (sv1 & Hx' & Hal1); [left|done|done|].
    rewrite Hx'. apply (IH (λ y a b c Hy, Hbody y a b c (list_elem_of_further _ _ _ Hy)) st1 sv1);
      done.
Qed.

Lemma walk_alike fuel' :
  ∀ p st sv st', alike good st sv → source p →
    walk skips next lib_output_dir fuel' p st = (st', Done tt) →
    ∃ sv', walk skips next lib_output_dir fuel' p sv = (sv', Done tt) ∧ alike good st' sv'.
Proof.
  induction fuel' as [|fuel' IH]; intros p st sv st' (Hg & Hg' & Hc) Hs Hrun; [done|].
  destruct (decide (name p ∈ copied st)) as [Hin|Hin].
  { rewrite walk_seen in Hrun by done. rewrite walk_seen by (by rewrite <-Hc).
    simplify_eq. by exists sv. }
  assert (name p ∉ copied sv) as Hin' by (by rewrite <-Hc).
  destruct (skips p) eqn:Hsk.
  { rewrite walk_skipped in Hrun by done. rewrite walk_skipped by done.
    simplify_eq. by eexists. }
  assert (path_exists (world sv) p = path_exists (world st) p) as Hex.
  { symmetry. by apply (rep_exists _ _ _ _ _ Hrep). }
  destruct (path_exists (world st) p) eqn:He.
  2: { rewrite walk_missing in Hrun by done. rewrite walk_missing by done.
       simplify_eq. by eexists. }
  destruct (copy2 (world st) (resolve (world st) p) (joinpath lib_output_dir (name p)))
    as [w'|] eqn:Hcp.
  2: { by rewrite walk_copy_fails in Hrun. }
  rewrite (walk_copies _ _ _ _ _ _ w') in Hrun by done.
  destruct (rep_copy _ _ _ _ _ Hrep (world st) (world sv) p w') as (v' & Hcp' & Hdeps);
    [done..|].
  assert (good w') as Hgw by by apply (rep_copy_good _ _ _ _ _ Hrep (world st) p).
  assert (good v') as Hgv by by apply (rep_copy_good _ _ _ _ _ Hrep (world sv) p).
  rewrite (walk_copies _ _ _ _ _ _ v') by done. rewrite Hdeps.
  eapply for_each_alike; [|split_and!|exact Hrun]; [|done|done|simpl; by rewrite Hc].
  intros dep sa sb sa' Hdep (Ha & Hb & Hcc) Hbody.
  unfold walk_body, bind, ask in *.
  rewrite <-(rep_next _ _ _ _ _ Hrep (world sa) (world sb) w'
              (joinpath lib_output_dir (name p)) dep) by done.
  destruct (next (world sa) dep) as [q|] eqn:Hq.
  - apply (IH q sa); [done| |done].
    by apply (rep_next_source _ _ _ _ _ Hrep (world sa) w'
                (joinpath lib_output_dir (name p)) dep).
  - unfold ret in *. simplify_eq. by eexists.
Qed.

Lemma sibling_alike lib st sv st' :
  alike good st sv → source lib →
  walk_sibling skips next lib_output_dir fuel lib st = (st', Done tt) →
  ∃ sv', walk_sibling skips next lib_output_dir fuel lib sv = (sv', Done tt)
         ∧ alike good st' sv'.
Proof.
  intros Hal Hs Hrun. unfold walk_sibling, bind, get_copied in *.
  pose proof Hal as (_ & _ & Hc). rewrite <-Hc.
  destruct (bool_decide _); [by apply (walk_alike fuel lib st)|].
  unfold ret in *. simplify_eq. by eexists.
Qed.

Lemma glob_source w pat lib : good w → lib ∈ glob w vips_lib_dir pat → source lib.
Proof.
  unfold glob. intros Hg (n & -> & Hn)%list_elem_of_fmap.
  apply list_elem_of_In, filter_In in Hn as [Hn _]. apply list_elem_of_In in Hn.
  by apply (rep_entry_source _ _ _ _ _ Hrep w).
Qed.

Lemma glob_alike w v pat :
  good w → good v → glob w vips_lib_dir pat = glob v vips_lib_dir pat.
Proof. intros Hw Hv. unfold glob. by rewrite (rep_iterdir _ _ _ _ _ Hrep w v). Qed.

Lemma find_main_lib_alike w v pats :
  good w → good v →
  find_main_lib w vips_lib_dir pats = find_main_lib v vips_lib_dir pats.
Proof.
  intros Hw Hv. induction pats as [|pat pats IH]; simpl; [done|].
  by rewrite (glob_alike w v), IH.
Qed.

Lemma find_main_lib_source w pats lib :
  good w → find_main_lib w vips_lib_dir pats = Some lib → source lib.
Proof.
  intros Hw. induction pats as [|pat pats IH]; simpl; [done|].
  destruct (glob w vips_lib_dir pat) as [|l ls] eqn:E; [done|].
  intros [= <-]. apply (glob_source w pat); [done|]. rewrite E. left.
Qed.

Lemma walk_all_alike main_lib st sv st' :
  alike good st sv → source main_lib →
  walk_all skips next lib_output_dir fuel main_lib vips_lib_dir pattern st = (st', Done tt) →
  ∃ sv', walk_all skips next lib_output_dir fuel main_lib vips_lib_dir pattern sv
         = (sv', Done tt) ∧ alike good st' sv'.
Proof.
  intros Hal Hs Hrun. unfold walk_all in *. unfold bind at 1 in Hrun. unfold bind at 1.
  destruct (walk skips next lib_output_dir fuel main_lib st) as [st1 [[]|e|]] eqn:Hw;
    [|done..].
  destruct (walk_alike fuel main_lib st sv st1 Hal Hs Hw) as (sv1 & Hw' & Hal1).
  rewrite Hw'. unfold bind at 1, ask in Hrun. unfold bind at 1, ask.
  pose proof Hal1 as (Hg1 & Hg1' & _).
  rewrite <-(glob_alike (world st1) (world sv1)) by done.
  eapply for_each_alike; [|exact Hal1|exact Hrun].
  intros lib sa sb sa' Hlib Hab. apply sibling_alike; [done|].
  by apply (glob_source (world st1) pattern).
Qed.

Lemma closure_alike st sv st' :
  alike good st sv → closure_ st = (st', Done tt) →
  ∃ sv', closure_ sv = (sv', Done tt) ∧ alike good st' sv'.
Proof.
  intros Hal Hrun. rewrite closure_unfold in *. pose proof Hal as (Hg & Hg' & Hc).
  rewrite <-(find_main_lib_alike (world st) (world sv)) by done.
  destruct (find_main_lib (world st) vips_lib_dir patterns) as [main_lib|] eqn:Hm; [|done].
  destruct (walk_all _ _ _ _ _ _ _ (logged st _)) as [st2 [[]|e|]] eqn:Hall; [|done..].
  simplify_eq.
  destruct (walk_all_alike main_lib (logged st (closure_head heading main_lib))
              (logged sv (closure_head heading main_lib)) st2)
    as (sv2 & Hall' & Hal2);
    [done|by apply (find_main_lib_source (world st) patterns)|done|].
  rewrite Hall'. by eexists.
Qed.

(** *** What the copies of a run do to the output directory *)

Lemma replay_persists t w w' p :
  replay w t = Some w' → runs t = [] →
  path_exists w p = true → path_exists w' p = true.
Proof.
  revert w. induction t as [|e t IH]; intros w; simpl; [by intros [= <-]|].
  destruct e; simpl; try done; try apply IH.
  destruct (copy2 w src dst) as [w1|] eqn:E; [|done].
  intros Hr Hq Hp. apply (IH w1); [done..|].
  by apply (rep_persists _ _ _ _ _ Hrep w src dst).
Qed.

Lemma replay_creates t w w' src dst :
  replay w t = Some w' → runs t = [] →
  Copy2 src dst ∈ t → path_exists w' dst = true.
Proof.
  revert w. induction t as [|e t IH]; intros w Hr Hq Hin; [by apply elem_of_nil in Hin|].
  apply elem_of_cons in Hin as [<-|Hin].
  - simpl in Hr. destruct (copy2 w src dst) as [w1|] eqn:E; [|done].
    eapply replay_persists; [exact Hr|done|].
    by apply (rep_creates _ _ _ _ _ Hrep w src).
  - destruct e; simpl in *; try done; eauto.
    destruct (copy2 w src0 dst0) as [w1|]; [|done]. eauto.
Qed.

Lemma replay_overwrites t w w' :
  replay w t = Some w' → runs t = [] →
  (∀ src dst, Copy2 src dst ∈ t → path_exists w dst = true) →
  filenames w' lib_output_dir = filenames w lib_output_dir.
Proof.
  revert w. induction t as [|e t IH]; intros w Hr Hq Hall; simpl in *; [by simplify_eq|].
  assert (∀ src dst, Copy2 src dst ∈ t → path_exists w dst = true) as Hall'.
  { intros src dst Hin. apply (Hall src dst). by right. }
  destruct e; simpl in *; try done; auto.
  destruct (copy2 w src dst) as [w1|] eqn:E; [|done].
  rewrite (IH w1); [|done..|].
  - apply (rep_overwrites _ _ _ _ _ Hrep w src dst); [done|]. apply (Hall src dst). by left.
  - intros s d Hin. apply (rep_persists _ _ _ _ _ Hrep w src dst); [done|]. by eapply Hall'.
Qed.

Lemma io_copy t src dst : Copy2 src dst ∈ t ↔ Copy2 src dst ∈ io t.
Proof.
  unfold io. rewrite !list_elem_of_In, filter_In. split; [by intros ?|by intros [? _]].
Qed.

Lemma adds_io t : adds (io t) = adds t.
Proof.
  induction t as [|e t IH]; [done|]. destruct e; simpl; try done; by f_equal.
Qed.

Lemma blocks_copy l src dst :
  blocks lib_output_dir l → Copy2 src dst ∈ l →
  ∃ n, dst = joinpath lib_output_dir n ∧ n ∈ adds l.
Proof.
  induction 1 as [|src' n deps l Hl IH]; intros Hin; [by apply elem_of_nil in Hin|].
  apply elem_of_cons in Hin as [[= -> ->]|Hin].
  { exists n. split; [done|]. simpl. by left. }
  do 2 (apply elem_of_cons in Hin as [?|Hin]; [done|]).
  destruct (IH Hin) as (m & -> & Hm). exists m. split; [done|]. simpl. by right.
Qed.

Lemma blocks_add l n :
  blocks lib_output_dir l → n ∈ adds l →
  ∃ src, Copy2 src (joinpath lib_output_dir n) ∈ l.
Proof.
  induction 1 as [|src' m deps l Hl IH]; simpl; intros Hin; [by apply elem_of_nil in Hin|].
  apply elem_of_cons in Hin as [->|Hin].
  { exists src'. by left. }
  destruct (IH Hin) as (src & Hsrc). exists src. by do 3 right.
Qed.

(** A run of the closure builder on the machine a first run has left
    goes the same way, ends with the same [copied], copies only onto
    paths that are there and leaves the names of the output directory
    as they were. *)
Lemma closure_repeats w st1 :
  good w → closure_ (init w) = (st1, Done tt) →
  ∃ st2, closure_ (init (world st1)) = (st2, Done tt) ∧ copied st2 = copied st1 ∧
         (∀ src dst, Copy2 src dst ∈ trace st2 → path_exists (world st1) dst = true) ∧
         filenames (world st2) lib_output_dir = filenames (world st1) lib_output_dir.
Proof.
  intros Hg Hrun.
  destruct (closure_alike (init w) (init w) st1) as (st1' & Hrun' & Hal1); [done..|].
  assert (st1' = st1) as -> by congruence. destruct Hal1 as (Hg1 & _ & _).
  destruct (closure_alike (init w) (init (world st1)) st1) as (st2 & Hrun2 & Hal2);
    [done..|].
  exists st2. destruct Hal2 as (_ & _ & Hc). do 2 (split; [done|]).
  pose proof (closure_grows skips next patterns pattern missing heading fuel output
                vips_prefix (init w)) as [t1 G1].
  pose proof (closure_grows skips next patterns pattern missing heading fuel output
                vips_prefix (init (world st1))) as [t2 G2].
  rewrite Hrun in G1. rewrite Hrun2 in G2.
  destruct G1 as (_ & C1 & _ & _ & B1 & R1 & W1).
  destruct G2 as (T2 & C2 & _ & _ & B2 & R2 & W2). simpl in *. rewrite T2.
  enough (∀ src dst, Copy2 src dst ∈ t2 → path_exists (world st1) dst = true) as Hthere.
  { split; [exact Hthere|]. by eapply replay_overwrites. }
  intros src dst Hin. apply io_copy in Hin.
  destruct (blocks_copy _ _ _ B2 Hin) as (n & -> & Hn). rewrite adds_io in Hn.
  assert (n ∈ adds (io t1)) as Hn1.
  { rewrite adds_io. apply (elem_of_list_to_set (C:=gset string)).
    apply (elem_of_list_to_set (C:=gset string)) in Hn.
    assert (n ∈ copied st2) as Hn2 by (rewrite C2; by apply elem_of_union_r).
    rewrite <-Hc, C1 in Hn2. apply elem_of_union in Hn2 as [Hn2|Hn2]; [|done].
    by apply elem_of_empty in Hn2. }
  destruct (blocks_add _ _ B1 Hn1) as (src1 & Hin1). apply io_copy in Hin1.
  by eapply replay_creates.
Qed.

End Idempotence.

(** ** The claims about the closure builder *)

Section ClosureSpec.

Context `{os : OS}.

Import Py pathlib.

Lemma grows_init output_dir w st' t :
  grows output_dir (init w) st' t →
  trace st' = t ∧ copied st' = list_to_set (adds t) ∧ NoDup (adds t)
  ∧ blocks output_dir (io t).
Proof.
  intros (Ht & Hc & Hn & _ & Hb & _). simpl in *.
  by rewrite Hc, (left_id_L ∅ (∪)).
Qed.

(** C1.  A call of either recursive copier on a library whose name
    is in [copied] returns at once and leaves the state as it is: no
    copy, no call of the lister.  Whatever a call does, the names it
    adds to [copied] are added once each and were not there before.  In
    a run of the closure builder of either [main], which starts from the
    empty set, no name is added twice, [copied] ends as the set of the
    names added, and the copies, additions and lister calls come in
    blocks of one copy to the destination, one addition and one lister
    call. *)
Theorem copied_at_most_once :
  (∀ fuel lib_path output_dir homebrew_prefix search_paths st,
     name lib_path ∈ copied st →
     Linux.copy_shared_libs_recursive (S fuel) lib_path output_dir homebrew_prefix
       search_paths st = (st, Done tt)) ∧
  (∀ fuel lib_path output_dir homebrew_prefix st,
     name lib_path ∈ copied st →
     MacOS.copy_dylibs_recursive (S fuel) lib_path output_dir homebrew_prefix st
     = (st, Done tt)) ∧
  (∀ fuel lib_path output_dir homebrew_prefix search_paths st,
     let st' := (Linux.copy_shared_libs_recursive fuel lib_path output_dir
                   homebrew_prefix search_paths st).1 in
     ∃ t, trace st' = trace st ++ t ∧ copied st' = copied st ∪ list_to_set (adds t)
          ∧ NoDup (adds t) ∧ ∀ n, n ∈ adds t → n ∉ copied st) ∧
  (∀ fuel lib_path output_dir homebrew_prefix st,
     let st' := (MacOS.copy_dylibs_recursive fuel lib_path output_dir
                   homebrew_prefix st).1 in
     ∃ t, trace st' = trace st ++ t ∧ copied st' = copied st ∪ list_to_set (adds t)
          ∧ NoDup (adds t) ∧ ∀ n, n ∈ adds t → n ∉ copied st) ∧
  (∀ fuel output homebrew_prefix vips_prefix w,
     let st' := (Linux.build_closure fuel output homebrew_prefix vips_prefix (init w)).1 in
     NoDup (adds (trace st')) ∧ copied st' = list_to_set (adds (trace st'))
     ∧ blocks (joinpath output "lib") (io (trace st'))) ∧
  (∀ fuel output homebrew_prefix vips_prefix w,
     let st' := (MacOS.build_closure fuel output homebrew_prefix vips_prefix (init w)).1 in
     NoDup (adds (trace st')) ∧ copied st' = list_to_set (adds (trace st'))
     ∧ blocks (joinpath output "lib") (io (trace st'))).
Proof.
  split_and!.
  - intros. rewrite Linux_walk. by apply walk_seen.
  - intros. rewrite MacOS_walk. by apply walk_seen.
  - intros fuel lib_path output_dir hp sp st st'. subst st'. rewrite Linux_walk.
    destruct (walk_grows Linux.skips (Linux.next hp sp) output_dir fuel lib_path st)
      as (t & ? & ? & ? & ? & _). eauto.
  - intros fuel lib_path output_dir hp st st'. subst st'. rewrite MacOS_walk.
    destruct (walk_grows MacOS.skips (MacOS.next hp) output_dir fuel lib_path st)
      as (t & ? & ? & ? & ? & _). eauto.
  - intros fuel output hp vp w st'. subst st'. rewrite Linux_closure.
    edestruct closure_grows as [t Ht].
    apply grows_init in Ht as (Etr & Ec & Hn & Hb). rewrite Etr. eauto.
  - intros fuel output hp vp w st'. subst st'. rewrite MacOS_closure.
    edestruct closure_grows as [t Ht].
    apply grows_init in Ht as (Etr & Ec & Hn & Hb). rewrite Etr. eauto.
Qed.

(** C2, as the code has it.  On Linux a library under one of the
    system prefixes whose name holds none of the essential names is
    skipped: the call leaves the machine and [copied] as they are and
    logs at most the line that it skipped the library; one whose name
    holds an essential name is treated as any other library, so that,
    when it is there and not yet copied, it is copied and the loop runs
    over the dependencies of the copy.  On macOS every library under
    [/usr/lib] or [/System] is skipped, whatever its name: there is no
    list of exceptions. *)
Theorem system_libraries_skipped :
  (∀ fuel lib_path output_dir homebrew_prefix search_paths st,
     existsb (λ prefix, startswith lib_path prefix) Linux.system_prefixes = true →
     existsb (λ essential, contains essential (name lib_path)) Linux.essential_libs = false →
     ∃ l, Linux.copy_shared_libs_recursive (S fuel) lib_path output_dir homebrew_prefix
            search_paths st = (logged st l, Done tt)
          ∧ (l = [] ∨ l = [skipped lib_path])) ∧
  (∀ fuel lib_path output_dir homebrew_prefix search_paths st w',
     existsb (λ prefix, startswith lib_path prefix) Linux.system_prefixes = true →
     existsb (λ essential, contains essential (name lib_path)) Linux.essential_libs = true →
     name lib_path ∉ copied st →
     path_exists (world st) lib_path = true →
     copy2 (world st) (resolve (world st) lib_path)
           (joinpath output_dir (name lib_path)) = Some w' →
     Linux.copy_shared_libs_recursive (S fuel) lib_path output_dir homebrew_prefix
       search_paths st
     = for_each (list_deps w' (joinpath output_dir (name lib_path)))
         (Linux.visit_dep fuel output_dir homebrew_prefix search_paths)
         (copied_state output_dir lib_path st w')) ∧
  (∀ fuel lib_path output_dir homebrew_prefix st,
     startswith lib_path "/usr/lib" || startswith lib_path "/System" = true →
     ∃ l, MacOS.copy_dylibs_recursive (S fuel) lib_path output_dir homebrew_prefix st
          = (logged st l, Done tt)
          ∧ (l = [] ∨ l = [skipped lib_path])).
Proof.
  split_and!.
  - intros fuel lib_path output_dir hp sp st Hsys Hess. rewrite Linux_walk.
    destruct (decide (name lib_path ∈ copied st)) as [Hin|Hin].
    + exists []. rewrite walk_seen, logged_nil by done. auto.
    + exists [skipped lib_path]. rewrite walk_skipped; [auto|done|].
      unfold Linux.skips. by rewrite Hsys, Hess.
  - intros fuel lib_path output_dir hp sp st w' Hsys Hess Hin He Hc.
    rewrite Linux_walk, (walk_copies _ _ _ _ _ _ w'); [|done| |done..].
    + apply for_each_ext. intros. symmetry. apply Linux_visit.
    + unfold Linux.skips. by rewrite Hsys, Hess.
  - intros fuel lib_path output_dir hp st Hsys. rewrite MacOS_walk.
    destruct (decide (name lib_path ∈ copied st)) as [Hin|Hin].
    + exists []. rewrite walk_seen, logged_nil by done. auto.
    + exists [skipped lib_path]. rewrite walk_skipped; auto.
Qed.


(** C6.  When either recursive copier copies a library, what remains
    of the call is the loop over the list the lister gives for the
    destination [output_dir / lib_name] on the machine as the copy left
    it; and in every run each call of the lister is on the destination of
    the copy made just before it. *)
Theorem lister_reads_destination :
  (∀ fuel lib_path output_dir homebrew_prefix search_paths st w',
     name lib_path ∉ copied st →
     Linux.skips lib_path = false →
     path_exists (world st) lib_path = true →
     copy2 (world st) (resolve (world st) lib_path)
           (joinpath output_dir (name lib_path)) = Some w' →
     Linux.copy_shared_libs_recursive (S fuel) lib_path output_dir homebrew_prefix
       search_paths st
     = for_each (list_deps w' (joinpath output_dir (name lib_path)))
         (Linux.visit_dep fuel output_dir homebrew_prefix search_paths)
         (copied_state output_dir lib_path st w')) ∧
  (∀ fuel lib_path output_dir homebrew_prefix st w',
     name lib_path ∉ copied st →
     MacOS.skips lib_path = false →
     path_exists (world st) lib_path = true →
     copy2 (world st) (resolve (world st) lib_path)
           (joinpath output_dir (name lib_path)) = Some w' →
     MacOS.copy_dylibs_recursive (S fuel) lib_path output_dir homebrew_prefix st
     = for_each (list_deps w' (joinpath output_dir (name lib_path)))
         (MacOS.visit_dep fuel output_dir homebrew_prefix)
         (copied_state output_dir lib_path st w')) ∧
  (∀ fuel lib_path output_dir homebrew_prefix search_paths st,
     ∃ t, trace (Linux.copy_shared_libs_recursive fuel lib_path output_dir
                   homebrew_prefix search_paths st).1 = trace st ++ t
          ∧ blocks output_dir (io t)) ∧
  (∀ fuel lib_path output_dir homebrew_prefix st,
     ∃ t, trace (MacOS.copy_dylibs_recursive fuel lib_path output_dir
                   homebrew_prefix st).1 = trace st ++ t
          ∧ blocks output_dir (io t)).
Proof.
  split_and!.
  - intros fuel lib_path output_dir hp sp st w' Hin Hs He Hc.
    rewrite Linux_walk, (walk_copies _ _ _ _ _ _ w') by done.
    apply for_each_ext. intros. symmetry. apply Linux_visit.
  - intros fuel lib_path output_dir hp st w' Hin Hs He Hc.
    rewrite MacOS_walk, (walk_copies _ _ _ _ _ _ w') by done.
    apply for_each_ext. intros. symmetry. apply MacOS_visit.
  - intros fuel lib_path output_dir hp sp st. rewrite Linux_walk.
    destruct (walk_grows Linux.skips (Linux.next hp sp) output_dir fuel lib_path st)
      as (t & ? & _ & _ & _ & ? & _). eauto.
  - intros fuel lib_path output_dir hp st. rewrite MacOS_walk.
    destruct (walk_grows MacOS.skips (MacOS.next hp) output_dir fuel lib_path st)
      as (t & ? & _ & _ & _ & ? & _). eauto.
Qed.


End ClosureSpec.

(** ** The path rewriters *)

Section RewriterFacts.

Context `{os : OS}.

Import Py pathlib.

Lemma run_command_eq cmd st :
  run_command cmd st
  = ({| world := (subprocess_run (world st) cmd).1; copied := copied st;
        trace := trace st ++ run_events cmd (subprocess_run (world st) cmd).2 |},
     Done (subprocess_run (world st) cmd).2).
Proof.
  unfold run_command, run_events, bind, log, emit, ret. simpl.
  destruct (subprocess_run (world st) cmd) as [w' r]. simpl.
  destruct (bool_decide _); simpl.
  - destruct (String.eqb _ _); simpl; by rewrite <-?app_assoc.
  - by rewrite <-?app_assoc.
Qed.

Lemma listings_app t1 t2 : listings (t1 ++ t2) = listings t1 ++ listings t2.
Proof. apply omap_app. Qed.

Lemma run_events_quiet cmd r :
  runs (run_events cmd r) = [(cmd, returncode r)] ∧ io (run_events cmd r) = []
  ∧ listings (run_events cmd r) = [].
Proof.
  unfold run_events. rewrite runs_app, io_app, listings_app. simpl.
  destruct (bool_decide _); [|done]. by destruct (negb _).
Qed.

(** *** Linux *)

Lemma set_rpath_eq f st :
  let cmd := ["patchelf"; "--set-rpath"; "$ORIGIN"; f] in
  Linux.set_rpath f st
  = ({| world := (subprocess_run (world st) cmd).1; copied := copied st;
        trace := trace st ++ Log (INFO, "Fixing: " +:+ name f)
                             :: run_events cmd (subprocess_run (world st) cmd).2 |},
     Done tt).
Proof.
  intros cmd. unfold Linux.set_rpath, bind, log, emit, ret.
  rewrite run_command_eq. simpl. by rewrite <-app_assoc.
Qed.

(** The loop of [fix_library_rpath]: one [patchelf] command for each
    file, in order, and nothing else. *)
Lemma rpath_loop so_files :
  ∀ st, ∃ st' t,
    for_each so_files Linux.set_rpath st = (st', Done tt)
    ∧ trace st' = trace st ++ t ∧ copied st' = copied st
    ∧ map fst (runs t) = map (λ f, ["patchelf"; "--set-rpath"; "$ORIGIN"; f]) so_files
    ∧ io t = [].
Proof.
  induction so_files as [|f fs IH]; intros st.
  { exists st, []. simpl. by rewrite app_nil_r. }
  simpl. unfold bind at 1. rewrite set_rpath_eq.
  match goal with
  | |- context [for_each fs _ ?s] =>
      destruct (IH s) as (st' & t & -> & Ht & Hc & Hr & Hio)
  end.
  cbn [world copied trace] in Ht, Hc.
  set (cmd := ["patchelf"; "--set-rpath"; "$ORIGIN"; f]) in *.
  pose proof (run_events_quiet cmd (subprocess_run (world st) cmd).2) as (Hq1 & Hq2 & _).
  exists st', ([Log (INFO, "Fixing: " +:+ name f)]
               ++ run_events cmd (subprocess_run (world st) cmd).2 ++ t).
  split_and!; [done| |done| |].
  - rewrite Ht. simpl. by rewrite <-app_assoc.
  - rewrite !runs_app, Hq1, !map_app, Hr. reflexivity.
  - rewrite !io_app, Hq2, Hio. reflexivity.
Qed.

Lemma fix_library_rpath_eq output_dir st :
  Linux.fix_library_rpath output_dir st
  = let which := subprocess_run (world st) ["which"; "patchelf"] in
    let st1 := {| world := which.1; copied := copied st;
                  trace := trace st
                           ++ [Log (INFO, "Fixing library RPATH for redistribution...")]
                           ++ run_events ["which"; "patchelf"] which.2 |} in
    if bool_decide (returncode which.2 ≠ 0%Z)
    then (logged st1 [Log (WARNING, "patchelf not found, skipping RPATH fixing");
                      Log (WARNING,
                           "Install patchelf with: sudo apt-get install patchelf")],
          Done tt)
    else for_each (glob which.1 output_dir "*.so*") Linux.set_rpath st1.
Proof.
  unfold Linux.fix_library_rpath. unfold bind at 1, log at 1, emit.
  unfold bind at 1. rewrite run_command_eq. cbn [world copied trace].
  rewrite <-app_assoc.
  destruct (bool_decide _); [|done].
  unfold bind, log, emit, logged. simpl. by rewrite <-!app_assoc.
Qed.


(** *** macOS *)

Section Mach.

(** The patch tool leaves the set of existing paths as it is. *)
Hypothesis tools_keep_paths :
  ∀ w cmd p, path_exists (subprocess_run w cmd).1 p = path_exists w p.

Variable output_dir : string.

Lemma fix_dep_eq dylib dep st :
  MacOS.fix_dep output_dir dylib dep st
  = if path_exists (world st) (joinpath output_dir (name (Path dep)))
    then ({| world := (subprocess_run (world st) (change_command dylib dep)).1;
             copied := copied st;
             trace := trace st
                      ++ run_events (change_command dylib dep)
                           (subprocess_run (world st) (change_command dylib dep)).2
                      ++ [Log (INFO, "  Changed: " +:+ dep +:+ " -> " +:+ "@rpath/"
                                     +:+ name (Path dep))] |}, Done tt)
    else (st, Done tt).
Proof.
  unfold MacOS.fix_dep. unfold bind at 1, ask.
  destruct (path_exists _ _); [|done].
  unfold bind. rewrite run_command_eq. unfold log, emit. simpl.
  by rewrite <-app_assoc.
Qed.

Lemma filter_present (w w' : World) (deps : list string) :
  (∀ p, path_exists w' p = path_exists w p) →
  List.filter (λ dep, path_exists w' (joinpath output_dir (name (Path dep)))) deps
  = List.filter (λ dep, path_exists w (joinpath output_dir (name (Path dep)))) deps.
Proof. intros H. apply List.filter_ext. intros dep. apply H. Qed.

Lemma fix_deps_loop dylib deps :
  ∀ st, ∃ st' t,
    for_each deps (MacOS.fix_dep output_dir dylib) st = (st', Done tt)
    ∧ trace st' = trace st ++ t ∧ copied st' = copied st
    ∧ (∀ p, path_exists (world st') p = path_exists (world st) p)
    ∧ map fst (runs t)
      = map (change_command dylib)
          (List.filter (λ dep, path_exists (world st)
                                 (joinpath output_dir (name (Path dep)))) deps)
    ∧ listings t = [] ∧ io t = [].
Proof.
  induction deps as [|dep deps IH]; intros st.
  { exists st, []. simpl. by rewrite app_nil_r. }
  simpl. unfold bind at 1. rewrite fix_dep_eq.
  destruct (path_exists (world st) (joinpath output_dir (name (Path dep)))) eqn:He.
  - match goal with
    | |- context [for_each deps _ ?s] =>
        destruct (IH s) as (st' & t & -> & Ht & Hc & Hp & Hr & Hl & Hio)
    end.
    cbn [world copied trace] in Ht, Hc, Hp, Hr.
    set (cmd := change_command dylib dep) in *.
    pose proof (run_events_quiet cmd (subprocess_run (world st) cmd).2)
      as (Hq1 & Hq2 & Hq3).
    eexists st', (run_events cmd (subprocess_run (world st) cmd).2
                  ++ [Log (INFO, _)] ++ t).
    split_and!; [done| |done| | | |].
    + rewrite Ht. by rewrite <-!app_assoc.
    + intros p. by rewrite Hp, tools_keep_paths.
    + rewrite !runs_app, Hq1, !map_app, Hr. simpl. f_equal. f_equal.
      apply filter_present. intros p. apply tools_keep_paths.
    + by rewrite !listings_app, Hq3, Hl.
    + by rewrite !io_app, Hq2, Hio.
  - destruct (IH st) as (st' & t & -> & Ht & Hc & Hp & Hr & Hl & Hio).
    exists st', t. split_and!; done.
Qed.

Lemma fix_dylib_eq dylib st :
  ∃ st' t,
    MacOS.fix_dylib output_dir dylib st = (st', Done tt)
    ∧ trace st' = trace st ++ t ∧ copied st' = copied st
    ∧ (∀ p, path_exists (world st') p = path_exists (world st) p)
    ∧ (∃ deps, listings t = [(dylib, deps)])
    ∧ map fst (runs t)
      = flat_map (rewrite_commands (path_exists (world st)) output_dir) (listings t)
    ∧ io t = [ListDeps dylib (default [] (snd <$> head (listings t)))].
Proof.
  unfold MacOS.fix_dylib. unfold bind at 1, log at 1, emit.
  unfold bind at 1. rewrite run_command_eq.
  unfold bind at 1, get_deps. cbn [world copied trace].
  set (cmd := ["install_name_tool"; "-id"; "@rpath/" +:+ name dylib; dylib]).
  set (w1 := (subprocess_run (world st) cmd).1).
  set (deps := list_deps w1 dylib).
  match goal with
  | |- context [for_each deps _ ?s] =>
      destruct (fix_deps_loop dylib deps s) as (st' & t & -> & Ht & Hc & Hp & Hr & Hl & Hio)
  end.
  cbn [world copied trace] in Ht, Hc, Hp, Hr.
  pose proof (run_events_quiet cmd (subprocess_run (world st) cmd).2)
    as (Hq1 & Hq2 & Hq3).
  exists st', ([Log (INFO, "Fixing: " +:+ name dylib)]
               ++ run_events cmd (subprocess_run (world st) cmd).2
               ++ [ListDeps dylib deps] ++ t).
  assert (listings ([Log (INFO, "Fixing: " +:+ name dylib)]
                    ++ run_events cmd (subprocess_run (world st) cmd).2
                    ++ [ListDeps dylib deps] ++ t) = [(dylib, deps)]) as Hlist.
  { by rewrite !listings_app, Hq3, Hl. }
  split_and!; [done| |done| | | |].
  - rewrite Ht. by rewrite <-!app_assoc.
  - intros p. rewrite Hp. apply tools_keep_paths.
  - eauto.
  - rewrite Hlist, !runs_app, Hq1, !map_app, Hr. simpl. rewrite app_nil_r.
    unfold rewrite_commands. simpl. f_equal. f_equal.
    apply filter_present. intros p. apply tools_keep_paths.
  - rewrite Hlist, !io_app, Hq2, Hio. reflexivity.
Qed.

Lemma fix_dylibs_loop dylibs :
  ∀ st, ∃ st' t,
    for_each dylibs (MacOS.fix_dylib output_dir) st = (st', Done tt)
    ∧ trace st' = trace st ++ t ∧ copied st' = copied st
    ∧ (∀ p, path_exists (world st') p = path_exists (world st) p)
    ∧ map fst (listings t) = dylibs
    ∧ map fst (runs t)
      = flat_map (rewrite_commands (path_exists (world st)) output_dir) (listings t)
    ∧ adds t = [].
Proof.
  induction dylibs as [|dylib dylibs IH]; intros st.
  { exists st, []. simpl. by rewrite app_nil_r. }
  simpl. unfold bind at 1.
  destruct (fix_dylib_eq dylib st) as (st1 & t1 & -> & Ht1 & Hc1 & Hp1 & [deps Hl1] & Hr1 & Hio1).
  destruct (IH st1) as (st' & t & -> & Ht & Hc & Hp & Hl & Hr & Ha).
  exists st', (t1 ++ t). split_and!; [done| | | | | |].
  - by rewrite Ht, Ht1, app_assoc.
  - by rewrite Hc.
  - intros p. by rewrite Hp.
  - by rewrite listings_app, map_app, Hl1, Hl.
  - rewrite runs_app, listings_app, map_app, flat_map_app, Hr1, Hr. f_equal.
    apply flat_map_ext. intros [d ds]. unfold rewrite_commands. simpl. f_equal. f_equal.
    apply filter_present, Hp1.
  - rewrite adds_app, Ha, app_nil_r.
    assert (adds t1 = adds (io t1)) as ->.
    { clear. induction t1 as [|[] t1 IH]; simpl; by rewrite ?IH. }
    by rewrite Hio1.
Qed.

End Mach.


End RewriterFacts.

(** ** The rewrite phase *)

Section PhaseSpec.

Context `{os : OS}.

Import Py argparse.


End PhaseSpec.

(** ** The small machine *)

Module SimFacts.

Import Py pathlib Sim.

Lemma lookup_write w q o p :
  lookup (write w q o) p = if decide (q = p) then Some (File o) else lookup w p.
Proof.
  unfold lookup, write. simpl. rewrite lookup_insert.
  by destruct (decide (q = p)).
Qed.

Lemma sim_exists_lookup w p : sim_exists w p = true → is_Some (lookup w p).
Proof.
  unfold sim_exists, sim_is_file, read. unfold max_links. simpl.
  by destruct (lookup w p) as [[]|] eqn:E.
Qed.

(** Rewriting a file in place changes no answer of [follow] but the
    contents. *)
Lemma follow_write w q o o' n p :
  lookup w q = Some (File o) →
  fst <$> follow n (write w q o') p = fst <$> follow n w p.
Proof.
  intros Hq. revert p. induction n as [|n IH]; intros p; simpl;
    rewrite lookup_write; destruct (decide (q = p)) as [->|]; rewrite ?Hq; try done.
  all: destruct (lookup w p) as [[]|]; try done.
Qed.

Lemma follow_file n w p q o : follow n w p = Some (q, o) → lookup w q = Some (File o).
Proof.
  revert p. induction n as [|n IH]; intros p; simpl;
    destruct (lookup w p) as [[]|] eqn:E; try done; try (by intros [= <- <-]).
  apply IH.
Qed.

Lemma patch_keeps_paths w p f q :
  sim_exists (patch w p f).1 q = sim_exists w q.
Proof.
  unfold patch. destruct (read w p) as [[r o]|] eqn:E; [|done]. simpl.
  pose proof (follow_file _ _ _ _ _ E) as Hr.
  unfold sim_exists, sim_is_file, read. rewrite lookup_write.
  assert (is_Some (follow max_links (write w r (f o)) q) ↔ is_Some (follow max_links w q))
    as Hiff.
  { rewrite <-!(fmap_is_Some fst). by rewrite (follow_write w r o (f o)). }
  destruct (decide (r = q)) as [->|].
  - rewrite Hr. by apply bool_decide_ext.
  - destruct (lookup w q) as [[]|]; try done; by apply bool_decide_ext.
Qed.

(** The tools of the small machine neither make nor remove a path. *)
Lemma sim_run_keeps_paths (w : Machine) cmd p :
  path_exists (subprocess_run w cmd).1 p = path_exists w p.
Proof.
  simpl. unfold sim_run.
  repeat (case_match; try done); apply patch_keeps_paths.
Qed.

(** When the names of all paths of the machine, and those of the
    destinations of the names of [U], are in [U], the names stay in [U]
    through all copies under names of [U]. *)
Lemma sim_bounded (U : gset string) output_dir (w0 : Machine) :
  (∀ n, n ∈ U → name (joinpath output_dir n) ∈ U) →
  (∀ p, is_Some (lookup w0 p) → name p ∈ U) →
  bounded U output_dir w0.
Proof.
  intros Hout H0 w Hreach.
  assert (∀ p, is_Some (lookup w p) → name p ∈ U) as Hw.
  { induction Hreach as [|w1 w2 w3 Hstep _ IH]; [done|].
    apply IH. intros p. destruct Hstep as (src & n & Hn & Hc).
    simpl in Hc. unfold sim_copy2 in Hc.
    destruct (read w1 src) as [[q o]|]; [|done]. simplify_eq.
    rewrite lookup_write. destruct (decide _) as [<-|]; auto. }
  intros p Hp. by apply Hw, sim_exists_lookup.
Qed.

Lemma machine_of_lookup files tools p :
  is_Some (lookup (machine_of files tools) p) → p ∈ files.*1.
Proof.
  unfold lookup, machine_of. simpl. rewrite lookup_empty. intros [x Hx].
  apply elem_of_list_to_map_2 in Hx. apply list_elem_of_fmap. by exists (p, x).
Qed.

(** The same for a machine given by its files and a set given by its
    elements, in a form that can be computed. *)
Lemma sim_bounded_of names output_dir files tools :
  forallb (λ n, bool_decide (name (joinpath output_dir n) ∈ names)) names = true →
  forallb (λ kv, bool_decide (name kv.1 ∈ names)) files = true →
  bounded (list_to_set names) output_dir (machine_of files tools).
Proof.
  intros H1 H2. rewrite forallb_forall in H1, H2. apply sim_bounded.
  - intros n Hn%elem_of_list_to_set. apply elem_of_list_to_set.
    apply list_elem_of_In in Hn. by eapply bool_decide_eq_true_1, H1.
  - intros p Hp%machine_of_lookup. apply elem_of_list_to_set.
    apply list_elem_of_fmap in Hp as ([q x] & -> & Hin).
    apply list_elem_of_In in Hin. eapply bool_decide_eq_true_1. by apply (H2 (q, x)).
Qed.

(** *** Copies into a directory apart from the libraries *)

Lemma elem_of_keys {A} (m : gmap string A) p :
  p ∈ (map_to_list m).*1 ↔ is_Some (m !! p).
Proof.
  rewrite list_elem_of_fmap. split.
  - intros ([k x] & -> & H%elem_of_map_to_list). by exists x.
  - intros [x H]. exists (p, x). split; [done|]. by apply elem_of_map_to_list.
Qed.

Lemma elem_of_paths w p : p ∈ paths w ↔ is_Some (lookup w p).
Proof.
  unfold paths, lookup.
  rewrite list_elem_of_In, in_app_iff, filter_In, <-!list_elem_of_In.
  rewrite !elem_of_keys, bool_decide_eq_true.
  destruct (overlay w !! p) as [o|] eqn:E.
  - split; [by eexists|]. intros _. left. by eexists.
  - split; [by intros [[]|[]]|]. intros H. by right.
Qed.

Lemma follow_write_is_Some n w q o p :
  is_Some (follow n w p) → is_Some (follow n (write w q o) p).
Proof.
  revert p. induction n as [|n IH]; intros p; simpl; rewrite lookup_write;
    destruct (decide (q = p)) as [->|]; try (by eexists);
    destruct (lookup w p) as [[]|]; try done.
  apply IH.
Qed.

(** A copy makes its destination. *)
Lemma sim_copy_creates w src dst w' :
  sim_copy2 w src dst = Some w' → sim_exists w' dst = true.
Proof.
  unfold sim_copy2. destruct (read w src) as [[q o]|]; [|done]. intros [= <-].
  unfold sim_exists, sim_is_file, read. unfold max_links. simpl.
  rewrite lookup_write, decide_True by done. by apply bool_decide_eq_true; eexists.
Qed.

(** A copy removes no path. *)
Lemma sim_copy_persists w src dst w' p :
  sim_copy2 w src dst = Some w' → sim_exists w p = true → sim_exists w' p = true.
Proof.
  unfold sim_copy2. destruct (read w src) as [[q o]|]; [|done]. intros [= <-].
  unfold sim_exists, sim_is_file, read. rewrite lookup_write.
  destruct (decide (dst = p)) as [->|].
  - intros _. apply bool_decide_eq_true. unfold max_links. simpl.
    rewrite lookup_write, decide_True by done. by eexists.
  - destruct (lookup w p) as [[]|]; try done;
      rewrite !bool_decide_eq_true; apply follow_write_is_Some.
Qed.

(** A copy onto a path that is there leaves the names of every
    directory as they were. *)
Lemma sim_copy_overwrites w src dst w' d :
  sim_copy2 w src dst = Some w' → sim_exists w dst = true →
  filenames w' d = filenames w d.
Proof.
  unfold sim_copy2. destruct (read w src) as [[q o]|]; [|done]. intros [= <-] Hex.
  apply sim_exists_lookup in Hex.
  apply set_eq. intros n. unfold filenames. simpl. unfold sim_iterdir.
  rewrite !elem_of_list_to_set, !list_elem_of_omap.
  split; intros (k & Hk & Hn); exists k; (split; [|done]);
    apply elem_of_paths; apply elem_of_paths in Hk; rewrite lookup_write in *;
    destruct (decide (dst = k)) as [->|]; done.
Qed.

Section Copies.

Variables (out : string) (files : list (string * Node)).

Local Abbreviation K := (destinations out files).
Local Abbreviation good := (copies_only out files).
Local Abbreviation source := (outside out files).

Hypothesis Hlinks : links_outside out files = true.

Lemma link_outside p t : (p, Symlink t) ∈ files → source t.
Proof.
  intros Hin%list_elem_of_In.
  pose proof (proj1 (forallb_forall _ _) Hlinks _ Hin) as H. simpl in H.
  by apply bool_decide_eq_true_1 in H.
Qed.

Lemma lookup_outside w p :
  good w → source p → lookup w p = (list_to_map files : gmap string Node) !! p.
Proof.
  intros [Hb Ho] Hp. unfold lookup. destruct (overlay w !! p) as [o|] eqn:E.
  - by apply Ho in E as [Hk _].
  - by rewrite Hb.
Qed.

Lemma lookup_file w p x : good w → lookup w p = Some x →
  (∃ o, x = File o ∧ ∃ q, (q, File o) ∈ files) ∨ (p, x) ∈ files.
Proof.
  intros [Hb Ho]. unfold lookup. destruct (overlay w !! p) as [o|] eqn:E.
  - intros [= <-]. left. exists o. split; [done|]. by apply Ho in E as [_ ?].
  - rewrite Hb. intros H%elem_of_list_to_map_2. by right.
Qed.

Lemma follow_alike n w v p :
  good w → good v → source p → follow n w p = follow n v p.
Proof.
  intros Hw Hv. revert p. induction n as [|n IH]; intros p Hp; simpl;
    rewrite !lookup_outside by done;
    destruct (list_to_map files !! p) as [[o|t|]|] eqn:E; try done.
  apply IH. apply elem_of_list_to_map_2 in E. by eapply link_outside.
Qed.

Lemma follow_outside n w p q o :
  good w → source p → follow n w p = Some (q, o) → source q ∧ (q, File o) ∈ files.
Proof.
  intros Hw. revert p. induction n as [|n IH]; intros p Hp; simpl;
    rewrite !lookup_outside by done;
    destruct (list_to_map files !! p) as [[o'|t|]|] eqn:E; try done;
    apply elem_of_list_to_map_2 in E; try (by intros [= <- <-]).
  apply IH. by eapply link_outside.
Qed.

Lemma sim_exists_alike w v p :
  good w → good v → source p → sim_exists w p = sim_exists v p.
Proof.
  intros Hw Hv Hp. unfold sim_exists, sim_is_file, read.
  by rewrite !lookup_outside, (follow_alike _ w v) by done.
Qed.

Lemma sim_is_file_alike w v p :
  good w → good v → source p → sim_is_file w p = sim_is_file v p.
Proof.
  intros Hw Hv Hp. unfold sim_is_file, read. by rewrite (follow_alike _ w v).
Qed.

Lemma sim_resolve_alike w v p :
  good w → good v → source p → sim_resolve w p = sim_resolve v p.
Proof.
  intros Hw Hv Hp. unfold sim_resolve, read. by rewrite (follow_alike _ w v).
Qed.

Lemma sim_resolve_outside w p : good w → source p → source (sim_resolve w p).
Proof.
  intros Hw Hp. unfold sim_resolve, read.
  destruct (follow max_links w p) as [[q o]|] eqn:E; [|done].
  by apply follow_outside in E as [? _].
Qed.

Lemma sim_copy_good w p w' :
  good w → source p → sim_exists w p = true →
  sim_copy2 w (sim_resolve w p) (joinpath out (name p)) = Some w' → good w'.
Proof.
  intros Hw Hp Hex. unfold sim_copy2.
  destruct (read w (sim_resolve w p)) as [[q o]|] eqn:E; [|done]. intros [= <-].
  apply follow_outside in E as [_ Ho]; [|done|by apply sim_resolve_outside].
  apply sim_exists_lookup in Hex as [x Hx]. rewrite lookup_outside in Hx by done.
  apply elem_of_list_to_map_2 in Hx.
  destruct Hw as [Hb Hov]. split; [done|]. intros k o'. simpl.
  rewrite lookup_insert. destruct (decide (joinpath out (name p) = k)) as [<-|].
  - intros [= <-]. split; [|by eexists].
    apply list_elem_of_fmap. by exists (p, x).
  - apply Hov.
Qed.

Lemma sim_copy_alike w v p w' :
  good w → good v → source p →
  sim_copy2 w (sim_resolve w p) (joinpath out (name p)) = Some w' →
  ∃ v', sim_copy2 v (sim_resolve v p) (joinpath out (name p)) = Some v'
        ∧ sim_list_deps v' (joinpath out (name p))
          = sim_list_deps w' (joinpath out (name p)).
Proof.
  intros Hw Hv Hp. rewrite <-(sim_resolve_alike w v) by done. unfold sim_copy2, read.
  rewrite <-(follow_alike _ w v) by (done || by apply sim_resolve_outside).
  destruct (follow max_links w (sim_resolve w p)) as [[q o]|]; [|done]. intros [= <-].
  eexists. split; [done|]. unfold sim_list_deps, read. unfold max_links. simpl.
  by rewrite !lookup_write, !decide_True.
Qed.

(** The references the lister reports on a good machine are
    references of the base. *)
Lemma sim_list_deps_refs w d dep :
  good w → dep ∈ sim_list_deps w d → dep ∈ all_refs files.
Proof.
  intros Hw. unfold sim_list_deps.
  destruct (read w d) as [[q o]|] eqn:E; [|by intros ?%elem_of_nil].
  apply follow_file in E. intros Hdep.
  assert (∃ q', (q', File o) ∈ files) as [q' Hq'].
  { apply (lookup_file w q) in E as [(o' & [= <-] & ?)|?]; [done| |done]. by eexists. }
  unfold all_refs. apply list_elem_of_In, in_flat_map. exists (q', File o).
  split; [by apply list_elem_of_In|]. by apply list_elem_of_In.
Qed.

Section Directory.

Variable d : string.
Hypothesis Hd : no_entries out files d = true.

Lemma entry_outside k n : entry_of d k = Some n → source k.
Proof.
  intros He Hk%list_elem_of_In.
  pose proof (proj1 (forallb_forall _ _) Hd _ Hk) as H. simpl in H.
  apply bool_decide_eq_true_1 in H. congruence.
Qed.

Lemma omap_entries_filter (f : string → bool) l :
  (∀ k n, entry_of d k = Some n → f k = true) →
  omap (entry_of d) (List.filter f l) = omap (entry_of d) l.
Proof.
  intros Hf. induction l as [|k l IH]; [done|]. cbn [List.filter].
  change (k :: l) with ([k] ++ l). rewrite omap_app, <-IH. destruct (f k) eqn:E.
  - change (k :: List.filter f l) with ([k] ++ List.filter f l). by rewrite omap_app.
  - destruct (entry_of d k) as [n|] eqn:En; [|by simpl; rewrite En].
    apply Hf in En. congruence.
Qed.

Lemma omap_entries_nil l :
  (∀ k, k ∈ l → ¬ source k) → omap (entry_of d) l = [].
Proof.
  intros Hl. induction l as [|k l IH]; [done|].
  change (k :: l) with ([k] ++ l). rewrite omap_app, IH.
  - destruct (entry_of d k) as [n|] eqn:En; [|by simpl; rewrite En].
    apply entry_outside in En. destruct (Hl k); [by left|done].
  - intros k' Hk'. apply Hl. by right.
Qed.

(** The names in [d] are those of the base. *)
Lemma sim_iterdir_base w :
  good w →
  sim_iterdir w d
  = omap (entry_of d) (map_to_list (list_to_map files : gmap string Node)).*1.
Proof.
  intros [Hb Ho]. unfold sim_iterdir, paths. rewrite omap_app, omap_entries_nil.
  - simpl. rewrite Hb. apply omap_entries_filter. intros k n Hn%entry_outside.
    apply bool_decide_eq_true. destruct (overlay w !! k) as [o|] eqn:E; [|done].
    by apply Ho in E as [? _].
  - intros k [o Hk]%elem_of_keys Hs. by apply Ho in Hk as [? _].
Qed.

Lemma sim_entry_source w n : good w → n ∈ sim_iterdir w d → source (joinpath d n).
Proof.
  intros Hw. unfold sim_iterdir. intros (k & _ & Hk)%list_elem_of_omap.
  pose proof (entry_outside _ _ Hk) as Hs. unfold entry_of in Hk.
  case_bool_decide as Hb; [|done]. destruct Hb as [Hb _]. simplify_eq. by rewrite <-Hb.
Qed.

End Directory.

Lemma under_outside prefix p :
  none_under out files prefix = true → startswith p prefix = true → source p.
Proof.
  intros Hu Hp Hin%list_elem_of_In.
  pose proof (proj1 (forallb_forall _ _) Hu _ Hin) as H. simpl in H.
  by rewrite Hp in H.
Qed.

Lemma find_ext {A} (f g : A → bool) l :
  (∀ x, x ∈ l → f x = g x) → List.find f l = List.find g l.
Proof.
  induction l as [|x l IH]; intros H; [done|]. simpl.
  rewrite <-(H x) by by left. destruct (f x); [done|].
  apply IH. intros y Hy. apply H. by right.
Qed.

Lemma find_library_alike w v dep search_paths :
  good w → good v →
  forallb (no_entries out files) search_paths = true →
  forallb (λ sp, bool_decide (source (joinpath sp dep))) search_paths = true →
  Linux.find_library w dep search_paths = Linux.find_library v dep search_paths.
Proof.
  intros Hw Hv. induction search_paths as [|sp sps IH]; [done|].
  cbn [forallb]. intros [Hd Hds]%andb_prop [Hj Hjs]%andb_prop.
  apply bool_decide_eq_true_1 in Hj. cbn [Linux.find_library].
  replace (@path_exists machine w (joinpath sp dep))
    with (@path_exists machine v (joinpath sp dep)) by by apply sim_exists_alike.
  destruct (@path_exists machine v (joinpath sp dep)); [done|].
  assert (@glob machine w sp (dep +:+ "*") = @glob machine v sp (dep +:+ "*")) as Hg.
  { unfold glob. simpl. by rewrite !(sim_iterdir_base sp Hd). }
  rewrite Hg, (find_ext (@is_file machine w) (@is_file machine v)), (IH Hds Hjs); [done|].
  intros lib Hlib. apply sim_is_file_alike; [done..|].
  unfold glob in Hlib. apply list_elem_of_fmap in Hlib as (n & -> & Hn).
  apply list_elem_of_In, filter_In in Hn as [Hn _]. apply list_elem_of_In in Hn.
  by apply (sim_entry_source sp Hd v).
Qed.

(** The macOS closure builder can be repeated on the small machine. *)
Lemma macos_repeatable homebrew_prefix d :
  no_entries out files d = true →
  none_under out files homebrew_prefix = true →
  repeatable (MacOS.next homebrew_prefix) out d good source.
Proof.
  intros Hd Hu. split.
  - intros. by apply sim_exists_alike.
  - done.
  - intros w w' d' dep p _ _ _. unfold MacOS.next.
    destruct (startswith _ _) eqn:E; [|done]. intros [= <-]. by eapply under_outside.
  - intros w v Hw Hv. simpl. by rewrite !(sim_iterdir_base d Hd).
  - intros. by eapply sim_entry_source.
  - intros. by eapply sim_copy_good.
  - intros w v p w' Hw Hv Hp _. by apply sim_copy_alike.
  - apply sim_copy_creates.
  - apply sim_copy_persists.
  - intros. by eapply sim_copy_overwrites.
Qed.

(** And so can the Linux one. *)
Lemma linux_repeatable homebrew_prefix search_paths d :
  no_entries out files d = true →
  forallb (no_entries out files) search_paths = true →
  none_under out files homebrew_prefix = true →
  joins_outside out files search_paths = true →
  repeatable (Linux.next homebrew_prefix search_paths) out d good source.
Proof.
  intros Hd Hsp Hu Hj. split.
  - intros. by apply sim_exists_alike.
  - intros w v w' d' dep Hw Hv Hw' Hdep. unfold Linux.next.
    destruct (startswith _ _); [done|]. destruct (negb _); [|done].
    rewrite (find_library_alike w v); [done..|].
    apply sim_list_deps_refs, list_elem_of_In in Hdep; [|done].
    pose proof (proj1 (forallb_forall _ _) Hj _ Hdep) as H. exact H.
  - intros w w' d' dep p _ _ _. unfold Linux.next.
    destruct (startswith _ _) eqn:E; [intros [= <-]; by eapply under_outside|].
    destruct (negb _); [|done].
    destruct (Linux.find_library _ _ _) as [found|]; [|done].
    destruct (startswith found _) eqn:E'; [|done].
    intros [= <-]. by eapply under_outside.
  - intros w v Hw Hv. simpl. by rewrite !(sim_iterdir_base d Hd).
  - intros. by eapply sim_entry_source.
  - intros. by eapply sim_copy_good.
  - intros w v p w' Hw Hv Hp _. by apply sim_copy_alike.
  - apply sim_copy_creates.
  - apply sim_copy_persists.
  - intros. by eapply sim_copy_overwrites.
Qed.

End Copies.

Lemma machine_of_good out files tools : copies_only out files (machine_of files tools).
Proof. split; [done|]. intros k o. simpl. by rewrite lookup_empty. Qed.

End SimFacts.

(** ** Patterns and prefixes *)

Module TextFacts.

Import Py pathlib.

Lemma prefix_refl s : String.prefix s s = true.
Proof. induction s as [|c s IH]; simpl; [done|]. by destruct (ascii_dec c c). Qed.

Lemma append_cons c s t : String c s +:+ t = String c (s +:+ t).
Proof. reflexivity. Qed.

Lemma append_nil s : "" +:+ s = s.
Proof. reflexivity. Qed.

Lemma prefix_nil s : String.prefix "" s = true.
Proof. by destruct s. Qed.

Lemma prefix_trans a b c :
  String.prefix a b = true → String.prefix b c = true → String.prefix a c = true.
Proof.
  revert a b. induction c as [|x c IH]; intros a b.
  - destruct b; [|by destruct a]. by destruct a.
  - destruct a as [|y a]; [done|]. destruct b as [|z b]; [by destruct a|]. simpl.
    destruct (ascii_dec y z) as [->|]; [|done].
    destruct (ascii_dec z x) as [->|]; [|done]. apply IH.
Qed.

(** Two prefixes of one string: one is a prefix of the other. *)
Lemma prefix_comparable a b s :
  String.prefix a s = true → String.prefix b s = true →
  String.prefix a b = true ∨ String.prefix b a = true.
Proof.
  revert a b. induction s as [|x s IH]; intros a b.
  - destruct a; [|done]. left. apply prefix_nil.
  - destruct a as [|y a]; [left; apply prefix_nil|].
    destruct b as [|z b]; [right; apply prefix_nil|]. simpl.
    destruct (ascii_dec y x) as [->|]; [|done].
    destruct (ascii_dec z x) as [->|]; [|done].
    destruct (ascii_dec x x); [|done]. apply IH.
Qed.

Lemma prefix_app a s : String.prefix a (a +:+ s) = true.
Proof.
  induction a as [|c a IH]; [apply prefix_nil|].
  rewrite append_cons. simpl. by destruct (ascii_dec c c).
Qed.

Lemma prefix_inv a s : String.prefix a s = true → ∃ rest, s = a +:+ rest.
Proof.
  revert s. induction a as [|c a IH]; intros s; [by exists s|].
  destruct s as [|d s]; [done|]. simpl. destruct (ascii_dec c d) as [->|]; [|done].
  intros [rest ->]%IH. by exists rest.
Qed.

Lemma fnmatch_cons c pat n :
  c ≠ "*"%char →
  fnmatch (String c pat) n
  = match n with String d n' => Ascii.eqb c d && fnmatch pat n' | EmptyString => false end.
Proof.
  intros Hc. cbn [fnmatch].
  destruct c as [[] [] [] [] [] [] [] []]; try reflexivity. done.
Qed.

Lemma fnmatch_star_empty n : fnmatch "*" n = true.
Proof. cbn [fnmatch]. induction n as [|c n IH]; [done|]. simpl. apply IH. Qed.

(** [*] can match nothing. *)
Lemma fnmatch_star_skip pat n : fnmatch pat n = true → fnmatch (String "*" pat) n = true.
Proof. intros H. cbn [fnmatch]. destruct n; by rewrite H. Qed.

(** [*] can match one more character. *)
Lemma fnmatch_star_more pat c n :
  fnmatch (String "*" pat) n = true → fnmatch (String "*" pat) (String c n) = true.
Proof. cbn [fnmatch]. intros H. destruct (fnmatch pat (String c n)); [done|]. exact H. Qed.

Lemma fnmatch_star_app pat pre n :
  fnmatch (String "*" pat) n = true → fnmatch (String "*" pat) (pre +:+ n) = true.
Proof. intros H. induction pre as [|c pre IH]; [done|]. by apply fnmatch_star_more. Qed.

Lemma fnmatch_literal_app lit pat n :
  literal lit = true → fnmatch pat n = true → fnmatch (lit +:+ pat) (lit +:+ n) = true.
Proof.
  intros Hl Hp. induction lit as [|c lit IH]; [done|]. simpl in Hl.
  apply andb_prop in Hl as [Hc Hl]. apply negb_true_iff, Ascii.eqb_neq in Hc.
  rewrite !append_cons. rewrite fnmatch_cons by done. by rewrite Ascii.eqb_refl, IH.
Qed.

Lemma fnmatch_literal lit n : literal lit = true → fnmatch lit n = String.eqb lit n.
Proof.
  revert n. induction lit as [|c lit IH]; intros n Hl.
  - by destruct n.
  - simpl in Hl. apply andb_prop in Hl as [Hc Hl]. apply negb_true_iff, Ascii.eqb_neq in Hc.
    rewrite fnmatch_cons by done. destruct n as [|d n]; [done|]. simpl.
    rewrite IH by done. by destruct (Ascii.eqb c d).
Qed.

Lemma fnmatch_literal_star lit n :
  literal lit = true → fnmatch (lit +:+ "*") n = String.prefix lit n.
Proof.
  revert n. induction lit as [|c lit IH]; intros n Hl.
  - simpl. rewrite fnmatch_star_empty. by destruct n.
  - simpl in Hl. apply andb_prop in Hl as [Hc Hl]. apply negb_true_iff, Ascii.eqb_neq in Hc.
    rewrite !append_cons. rewrite fnmatch_cons by done. destruct n as [|d n]; [done|]. simpl.
    rewrite IH by done. destruct (ascii_dec c d) as [->|Hne].
    + by rewrite Ascii.eqb_refl.
    + by apply Ascii.eqb_neq in Hne as ->.
Qed.

End TextFacts.

(** ** The asset selection, the guard and the search *)

Module WindowsMore.

Import Py Windows.

Lemma first_loop_some suffix bt l ev url name :
  first_loop suffix bt l = Some (ev, (url, name)) →
  ∃ before asset after,
    l = before ++ asset :: after ∧ asset_name asset = name
    ∧ browser_download_url asset = url
    ∧ asset_matches suffix bt name = true ∧ contains "ffi" name = false
    ∧ Forall (λ a, asset_matches suffix bt (asset_name a)
                   && negb (contains "ffi" (asset_name a)) = false) before.
Proof.
  induction l as [|a l IH]; simpl; [done|].
  destruct (asset_matches suffix bt (asset_name a) && negb (contains "ffi" (asset_name a)))
    eqn:E.
  - intros [= <- <- <-]. apply andb_prop in E as [E1 E2%negb_true_iff].
    exists [], a, l. by split_and!.
  - intros (before & asset & after & -> & ?)%IH.
    exists (a :: before), asset, after. split; [done|]. split_and!; try tauto.
    constructor; tauto.
Qed.

Lemma first_loop_none_inv suffix bt l :
  first_loop suffix bt l = None →
  Forall (λ a, asset_matches suffix bt (asset_name a)
               && negb (contains "ffi" (asset_name a)) = false) l.
Proof.
  induction l as [|a l IH]; simpl; [constructor|].
  destruct (asset_matches suffix bt (asset_name a) && negb (contains "ffi" (asset_name a)))
    eqn:E; [done|]. intros H. constructor; auto.
Qed.

Lemma fallback_loop_some suffix bt l ev url name :
  fallback_loop suffix bt l = Some (ev, (url, name)) →
  ∃ before asset after,
    l = before ++ asset :: after ∧ asset_name asset = name
    ∧ browser_download_url asset = url
    ∧ asset_matches suffix bt name = true
    ∧ Forall (λ a, asset_matches suffix bt (asset_name a) = false) before.
Proof.
  induction l as [|a l IH]; simpl; [done|].
  destruct (asset_matches suffix bt (asset_name a)) eqn:E.
  - intros [= <- <- <-]. exists [], a, l. by split_and!.
  - intros (before & asset & after & -> & ?)%IH.
    exists (a :: before), asset, after. split; [done|]. split_and!; try tauto.
    constructor; tauto.
Qed.

(** X1.  The asset [find_asset_for_arch] returns is the first asset of
    the release that passes the test and is not an ffi build when
    there is one, and otherwise the first asset that passes the test. *)
Theorem find_asset_for_arch_choice release_info arch build_type url name :
  (find_asset_for_arch release_info arch build_type).2 = Some (url, name) →
  let wanted a := asset_matches (default arch (ARCH_MAP !! arch)) build_type (asset_name a) in
  let plain a := negb (contains "ffi" (asset_name a)) in
  ∃ before asset after,
    get_assets release_info = before ++ asset :: after ∧
    asset_name asset = name ∧ browser_download_url asset = url ∧
    wanted asset = true ∧
    if plain asset
    then Forall (λ a, wanted a && plain a = false) before
    else Forall (λ a, wanted a = false) before
         ∧ Forall (λ a, wanted a && plain a = false) after.
Proof.
  intros H wanted plain. unfold find_asset_for_arch in H.
  destruct (first_loop _ _ _) as [[l [u f]]|] eqn:E1.
  - simpl in H. injection H as -> ->.
    apply first_loop_some in E1
      as (before & asset & after & Hl & <- & <- & Hm & Hf & Hb).
    exists before, asset, after. split_and!; [done..|].
    unfold plain. by rewrite Hf.
  - apply first_loop_none_inv in E1.
    destruct (fallback_loop _ _ _) as [[l [u f]]|] eqn:E2; [|done].
    simpl in H. injection H as -> ->.
    apply fallback_loop_some in E2
      as (before & asset & after & Hl & <- & <- & Hm & Hb).
    exists before, asset, after. split_and!; [done..|].
    rewrite Hl in E1. apply Forall_app in E1 as [_ E1].
    apply Forall_cons in E1 as [Ha E1]. rewrite Hm in Ha. simpl in Ha.
    unfold plain. rewrite Ha. by split.
Qed.

End WindowsMore.

Section GuardFacts.

Context `{os : OS}.

Import Py pathlib TextFacts.

(** X2.  The guard of the Linux copier is a test on the text of the
    path: a path is skipped exactly when it begins with [/lib] or
    [/usr/lib] and its name holds neither [libstdc++] nor [libgcc_s];
    the prefixes [/lib64] and [/usr/lib64] of the list add nothing. *)
Theorem system_prefix_test_is_textual lib_path :
  Linux.skips lib_path
  = (startswith lib_path "/lib" || startswith lib_path "/usr/lib")
    && negb (contains "libstdc++" (name lib_path) || contains "libgcc_s" (name lib_path)).
Proof.
  unfold Linux.skips, Linux.system_prefixes, Linux.essential_libs. simpl.
  rewrite !orb_false_r. f_equal. unfold startswith.
  destruct (String.prefix "/lib64" lib_path) eqn:E1.
  { by rewrite (prefix_trans "/lib" "/lib64" lib_path). }
  destruct (String.prefix "/usr/lib64" lib_path) eqn:E2.
  { rewrite (prefix_trans "/usr/lib" "/usr/lib64" lib_path) by done.
    by rewrite !orb_true_r. }
  by rewrite !orb_false_r.
Qed.

(** X3.  With a Homebrew prefix that neither lies under a system
    prefix nor holds one, the loop over the dependencies never hands a
    path under a system prefix to the Linux copier: for each dependency
    it does nothing, or it calls the copier on a path under the
    Homebrew prefix that the guard lets through. *)
Theorem allow_list_out_of_reach homebrew_prefix :
  forallb (λ sys, negb (startswith homebrew_prefix sys) && negb (startswith sys homebrew_prefix))
          Linux.system_prefixes = true →
  ∀ fuel output_dir search_paths dep st,
    Linux.visit_dep fuel output_dir homebrew_prefix search_paths dep st = (st, Done tt) ∨
    ∃ p, Linux.visit_dep fuel output_dir homebrew_prefix search_paths dep st
         = Linux.copy_shared_libs_recursive fuel p output_dir homebrew_prefix search_paths st
         ∧ startswith p homebrew_prefix = true
         ∧ existsb (λ prefix, startswith p prefix) Linux.system_prefixes = false
         ∧ Linux.skips p = false.
Proof.
  intros Hhp fuel output_dir search_paths dep st.
  assert (∀ p, startswith p homebrew_prefix = true →
               existsb (λ prefix, startswith p prefix) Linux.system_prefixes = false) as Hout.
  { intros p Hp. apply not_true_is_false. intros (sys & Hin & Hsys)%existsb_exists.
    pose proof (proj1 (forallb_forall _ _) Hhp sys Hin) as H.
    apply andb_prop in H as [H1%negb_true_iff H2%negb_true_iff].
    destruct (prefix_comparable homebrew_prefix sys p Hp Hsys); unfold startswith in *;
      congruence. }
  unfold Linux.visit_dep, bind, ask.
  destruct (startswith (Path dep) homebrew_prefix) eqn:E.
  { right. exists (Path dep). split_and!; [done..|by apply Hout|].
    unfold Linux.skips. by rewrite Hout. }
  destruct (negb _); [|by left].
  destruct (Linux.find_library _ _ _) as [found|]; [|by left].
  destruct (startswith found homebrew_prefix) eqn:E'; [|by left].
  right. exists found. split_and!; [done..|by apply Hout|].
  unfold Linux.skips. by rewrite Hout.
Qed.

Lemma found_in_false w lib_name d :
  found_in w lib_name d = false ↔
  path_exists w (joinpath d lib_name) = false
  ∧ List.find (is_file w) (glob w d (lib_name +:+ "*")) = None.
Proof.
  unfold found_in. rewrite orb_false_iff. split; intros [H1 H2]; (split; [done|]).
  - destruct (List.find _ _) as [x|] eqn:E; [|done].
    apply find_some in E as [E1 E2].
    assert (existsb (is_file w) (glob w d (lib_name +:+ "*")) = true) as Hex
      by (apply existsb_exists; eauto). congruence.
  - apply not_true_is_false. intros (x & Hx & Hf)%existsb_exists.
    by rewrite (find_none _ _ H2 x Hx) in Hf.
Qed.

(** X4.  [find_library] looks through the search paths in order: it
    returns nothing exactly when the library is found in none of them,
    and otherwise what it returns comes from the first search path in
    which the library is found: the path [search_path / lib_name] when
    that exists, else the first entry matching [lib_name*] that is a
    file. *)
Theorem find_library_first_hit w lib_name search_paths :
  (Linux.find_library w lib_name search_paths = None ↔
   Forall (λ d, found_in w lib_name d = false) search_paths) ∧
  (∀ p, Linux.find_library w lib_name search_paths = Some p →
     ∃ before d after,
       search_paths = before ++ d :: after ∧
       Forall (λ d, found_in w lib_name d = false) before ∧
       if path_exists w (joinpath d lib_name)
       then p = joinpath d lib_name
       else List.find (is_file w) (glob w d (lib_name +:+ "*")) = Some p).
Proof.
  induction search_paths as [|d sps [IH1 IH2]]; cbn [Linux.find_library].
  { split; [split; [constructor|done]|done]. }
  destruct (path_exists w (joinpath d lib_name)) eqn:E.
  { split.
    - split; [done|]. intros [H _]%Forall_cons. unfold found_in in H. by rewrite E in H.
    - intros p [= <-]. exists [], d, sps. rewrite E. by split_and!. }
  destruct (List.find (is_file w) (glob w d (lib_name +:+ "*"))) as [lib|] eqn:Eg.
  { split.
    - split; [done|]. intros [H _]%Forall_cons.
      apply found_in_false in H as [_ H]. congruence.
    - intros p [= <-]. exists [], d, sps. rewrite E. by split_and!. }
  assert (found_in w lib_name d = false) as Hd by by apply found_in_false.
  split.
  - rewrite IH1. split; [by constructor|by intros [_ ?]%Forall_cons].
  - intros p (before & d' & after & -> & Hb & Hp)%IH2.
    exists (d :: before), d', after. split_and!; [done|by constructor|done].
Qed.

Lemma find_main_lib_none w d patterns :
  find_main_lib w d patterns = None ↔
  Forall (λ pat, Forall (λ n, fnmatch pat n = false) (iterdir w d)) patterns.
Proof.
  induction patterns as [|pat pats IH]; simpl; [split; [constructor|done]|].
  unfold glob at 1.
  destruct (List.filter (fnmatch pat) (iterdir w d)) as [|n l] eqn:E; simpl.
  - rewrite IH. split; [|by intros [_ ?]%Forall_cons]. intros H. constructor; [|done].
    apply Forall_forall. intros n Hn. apply not_true_is_false. intros Hm.
    assert (In n (List.filter (fnmatch pat) (iterdir w d))) as Hin
      by (apply filter_In; split; [by apply list_elem_of_In|done]).
    by rewrite E in Hin.
  - split; [done|]. intros [H _]%Forall_cons.
    assert (In n (List.filter (fnmatch pat) (iterdir w d))) as Hin by (rewrite E; by left).
    apply filter_In in Hin as [Hin Hm]. apply list_elem_of_In in Hin.
    rewrite Forall_forall in H. by rewrite (H n Hin) in Hm.
Qed.

Lemma find_main_lib_some w d patterns lib :
  find_main_lib w d patterns = Some lib →
  ∃ before pat after n,
    patterns = before ++ pat :: after ∧
    Forall (λ pat, Forall (λ n, fnmatch pat n = false) (iterdir w d)) before ∧
    n ∈ iterdir w d ∧ fnmatch pat n = true ∧ lib = joinpath d n.
Proof.
  induction patterns as [|pat pats IH]; simpl; [done|].
  destruct (glob w d pat) as [|x l] eqn:E.
  - intros (before & pat' & after & n & -> & Hb & Hn)%IH.
    exists (pat :: before), pat', after, n. split_and!; [done| |tauto..].
    constructor; [|done].
    assert (find_main_lib w d [pat] = None) as H by (simpl; by rewrite E).
    by apply find_main_lib_none, Forall_cons in H as [? _].
  - intros [= <-]. unfold glob in E.
    assert (x ∈ map (joinpath d) (List.filter (fnmatch pat) (iterdir w d))) as Hx
      by (rewrite E; left).
    apply list_elem_of_fmap in Hx as (n & -> & Hn).
    apply list_elem_of_In, filter_In in Hn as [Hn Hm]. apply list_elem_of_In in Hn.
    exists [], pat, pats, n. by split_and!.
Qed.

(** X5.  When no entry of the library directory of libvips matches
    either pattern of the main library, the closure builder of either
    [main] logs that it could not find the library and ends in
    [sys.exit(1)], whatever the budget, having copied nothing and left
    the machine and [copied] as they were; and a main library that is
    found is an entry of that directory matching the first pattern that
    has a match. *)
Theorem no_main_library_exits :
  (∀ fuel output homebrew_prefix vips_prefix st,
     Forall (λ n, fnmatch "libvips.so" n = false ∧ fnmatch "libvips.so.*" n = false)
            (iterdir (world st) (joinpath vips_prefix "lib")) →
     Linux.build_closure fuel output homebrew_prefix vips_prefix st
     = (logged st [Log (ERROR, "Could not find libvips.so in " +:+ joinpath vips_prefix "lib")],
        Raised (SystemExit 1))) ∧
  (∀ fuel output homebrew_prefix vips_prefix st,
     Forall (λ n, fnmatch "libvips.dylib" n = false ∧ fnmatch "libvips.*.dylib" n = false)
            (iterdir (world st) (joinpath vips_prefix "lib")) →
     MacOS.build_closure fuel output homebrew_prefix vips_prefix st
     = (logged st [Log (ERROR, "Could not find libvips.dylib in "
                               +:+ joinpath vips_prefix "lib")],
        Raised (SystemExit 1))) ∧
  (∀ w d patterns lib,
     find_main_lib w d patterns = Some lib →
     ∃ before pat after n,
       patterns = before ++ pat :: after ∧
       Forall (λ pat, Forall (λ n, fnmatch pat n = false) (iterdir w d)) before ∧
       n ∈ iterdir w d ∧ fnmatch pat n = true ∧ lib = joinpath d n).
Proof.
  split_and!.
  - intros fuel output hp vp st H. rewrite Linux_closure, closure_unfold.
    assert (find_main_lib (world st) (joinpath vp "lib") ["libvips.so"; "libvips.so.*"] = None)
      as ->; [|done].
    apply find_main_lib_none.
    repeat constructor; (eapply Forall_impl; [exact H|]); by intros n [? ?].
  - intros fuel output hp vp st H. rewrite MacOS_closure, closure_unfold.
    assert (find_main_lib (world st) (joinpath vp "lib") ["libvips.dylib"; "libvips.*.dylib"]
            = None) as ->; [|done].
    apply find_main_lib_none.
    repeat constructor; (eapply Forall_impl; [exact H|]); by intros n [? ?].
  - apply find_main_lib_some.
Qed.

Lemma fnmatch_literal_inv lit pat n :
  literal lit = true → fnmatch (lit +:+ pat) n = true →
  ∃ r, n = lit +:+ r ∧ fnmatch pat r = true.
Proof.
  revert n. induction lit as [|c lit IH]; intros n Hl; [by exists n|].
  simpl in Hl. apply andb_prop in Hl as [Hc Hl]. apply negb_true_iff, Ascii.eqb_neq in Hc.
  rewrite append_cons, fnmatch_cons by done. destruct n as [|d n]; [done|].
  intros [->%Ascii.eqb_eq H]%andb_prop. destruct (IH n Hl H) as (r & -> & Hr).
  by exists r.
Qed.

(** X6.  Every name the patterns of the main library match is matched
    by the pattern of the loop over the versioned libraries as well, on
    Linux and on macOS: that loop meets the main library again. *)
Theorem main_library_is_a_sibling n :
  (fnmatch "libvips.so" n || fnmatch "libvips.so.*" n = true →
   fnmatch "libvips*.so*" n = true) ∧
  (fnmatch "libvips.dylib" n || fnmatch "libvips.*.dylib" n = true →
   fnmatch "libvips*.dylib" n = true).
Proof.
  split; intros [H|H]%orb_prop.
  - rewrite fnmatch_literal in H by done. apply String.eqb_eq in H as <-. reflexivity.
  - apply (fnmatch_literal_inv "libvips.so." "*") in H as (r & -> & _); [|done].
    apply (fnmatch_literal_app "libvips" "*.so*" (".so." +:+ r)); [done|].
    apply fnmatch_star_skip.
    apply (fnmatch_literal_app ".so" "*" ("." +:+ r)); [done|]. apply fnmatch_star_empty.
  - rewrite fnmatch_literal in H by done. apply String.eqb_eq in H as <-. reflexivity.
  - apply (fnmatch_literal_inv "libvips." "*.dylib") in H as (r & -> & H); [|done].
    apply (fnmatch_literal_app "libvips" "*.dylib" ("." +:+ r)); [done|].
    by apply (fnmatch_star_more ".dylib" "." r).
Qed.

End GuardFacts.

(** ** What a run leaves, reports and lets out *)

Section OutputFacts.

Context `{os : OS}.

Import Py pathlib.

Hypothesis creates :
  ∀ w src dst w', copy2 w src dst = Some w' → path_exists w' dst = true.
Hypothesis persists :
  ∀ w src dst w' p, copy2 w src dst = Some w' → path_exists w p = true →
                    path_exists w' p = true.

Lemma replay_keeps t w w' p :
  replay w t = Some w' → runs t = [] →
  path_exists w p = true → path_exists w' p = true.
Proof.
  revert w. induction t as [|e t IH]; intros w; simpl; [by intros [= <-]|].
  destruct e; simpl; try done; try apply IH.
  destruct (copy2 w src dst) as [w1|] eqn:E; [|done].
  intros Hr Hq Hp. apply (IH w1); [done..|]. by eapply persists.
Qed.

Lemma replay_makes t w w' src dst :
  replay w t = Some w' → runs t = [] →
  Copy2 src dst ∈ t → path_exists w' dst = true.
Proof.
  revert w. induction t as [|e t IH]; intros w Hr Hq Hin; [by apply elem_of_nil in Hin|].
  apply elem_of_cons in Hin as [<-|Hin].
  - simpl in Hr. destruct (copy2 w src dst) as [w1|] eqn:E; [|done].
    eapply replay_keeps; [exact Hr|done|]. by eapply creates.
  - destruct e; simpl in *; try done; eauto.
    destruct (copy2 w src0 dst0) as [w1|]; [|done]. eauto.
Qed.

Lemma copies_io t : copies (io t) = copies t.
Proof.
  induction t as [|e t IH]; [done|]. destruct e; simpl; try done; by f_equal.
Qed.

Lemma adds_of_io t : adds (io t) = adds t.
Proof.
  induction t as [|e t IH]; [done|]. destruct e; simpl; try done; by f_equal.
Qed.

Lemma blocks_copies output_dir l :
  blocks output_dir l → map snd (copies l) = map (joinpath output_dir) (adds l).
Proof. induction 1 as [|src n deps l Hl IH]; [done|]. simpl. by f_equal. Qed.

Lemma copies_elem t src dst : (src, dst) ∈ copies t → Copy2 src dst ∈ t.
Proof.
  unfold copies. intros (e & He & Hs)%list_elem_of_omap. destruct e; try done.
  by injection Hs as -> ->.
Qed.

Lemma grows_output output_dir w st' t :
  grows output_dir (init w) st' t →
  map snd (copies (trace st')) = map (joinpath output_dir) (adds (trace st')) ∧
  size (copied st') = length (copies (trace st')) ∧
  ∀ n, n ∈ copied st' → path_exists (world st') (joinpath output_dir n) = true.
Proof.
  intros (Ht & Hc & Hn & _ & Hb & Hr & Hw). simpl in *. subst t.
  assert (map snd (copies (trace st')) = map (joinpath output_dir) (adds (trace st')))
    as Hdst.
  { rewrite <-copies_io, <-adds_of_io. by apply blocks_copies. }
  split_and!; [done| |].
  - rewrite Hc, (left_id_L ∅ (∪)), size_list_to_set by done.
    by rewrite <-(length_map snd (copies _)), Hdst, length_map.
  - intros n. rewrite Hc, (left_id_L ∅ (∪)), elem_of_list_to_set. intros Hin.
    assert (joinpath output_dir n ∈ map snd (copies (trace st'))) as Hd.
    { rewrite Hdst. apply list_elem_of_fmap. by exists n. }
    apply list_elem_of_fmap in Hd as ([src dst] & Hdst' & Hcp). simpl in Hdst'. subst dst.
    apply copies_elem in Hcp. by eapply replay_makes.
Qed.

End OutputFacts.

Section OutputSpec.

Context `{os : OS}.

Import Py pathlib.

(** X7.  When a copy makes its destination and removes no path, then
    however the closure builder of either [main] ends, every name in
    [copied] is the name of a path that exists in the output directory,
    the copies made went to these paths in the order the names were
    added, and the size of [copied] is the number of copies made. *)
Theorem copied_names_are_files :
  (∀ w src dst w', copy2 w src dst = Some w' → path_exists w' dst = true) →
  (∀ w src dst w' p, copy2 w src dst = Some w' → path_exists w p = true →
                     path_exists w' p = true) →
  ∀ fuel output homebrew_prefix vips_prefix w,
    (let st' := (Linux.build_closure fuel output homebrew_prefix vips_prefix (init w)).1 in
     map snd (copies (trace st'))
     = map (joinpath (joinpath output "lib")) (adds (trace st')) ∧
     size (copied st') = length (copies (trace st')) ∧
     ∀ n, n ∈ copied st' →
          path_exists (world st') (joinpath (joinpath output "lib") n) = true) ∧
    (let st' := (MacOS.build_closure fuel output homebrew_prefix vips_prefix (init w)).1 in
     map snd (copies (trace st'))
     = map (joinpath (joinpath output "lib")) (adds (trace st')) ∧
     size (copied st') = length (copies (trace st')) ∧
     ∀ n, n ∈ copied st' →
          path_exists (world st') (joinpath (joinpath output "lib") n) = true).
Proof.
  intros Hc Hp fuel output hp vp w. split; intros st'; subst st'.
  - rewrite Linux_closure. edestruct closure_grows as [t Ht].
    by eapply grows_output.
  - rewrite MacOS_closure. edestruct closure_grows as [t Ht].
    by eapply grows_output.
Qed.

End OutputSpec.

Section ReportFacts.

Context `{os : OS}.

Import Py pathlib.

Lemma reported_app t1 t2 : reported t1 → reported t2 → reported (t1 ++ t2).
Proof.
  induction 1 as [|e t He Ht IH|cmd r t Ht IH]; intros H2; simpl; [done| |].
  - apply reported_event; auto.
  - rewrite <-app_assoc. apply reported_run. auto.
Qed.

Lemma run_events_head cmd r :
  run_events cmd r
  = Log (INFO, "Running command: " +:+ join " " cmd) :: Run cmd (returncode r)
    :: (if bool_decide (returncode r ≠ 0%Z)
        then failed (returncode r)
             :: (if negb (String.eqb (stderr r) "")
                 then [Log (ERROR, "stderr: " +:+ stderr r)] else [])
        else []).
Proof. reflexivity. Qed.

Lemma reported_failures t : reported t → failures_reported t.
Proof.
  induction 1 as [|e t He Ht IH|cmd r t Ht IH]; intros before c rc after Heq Hrc.
  - by destruct before.
  - destruct before as [|e' before]; simpl in Heq.
    + injection Heq as -> _. done.
    + injection Heq as _ Heq. by eapply IH.
  - rewrite run_events_head in Heq.
    destruct before as [|e1 before]; [done|]. simpl in Heq. injection Heq as _ Heq.
    destruct before as [|e2 before]; simpl in Heq.
    { injection Heq as <- <- <-. rewrite bool_decide_eq_true_2 by done. simpl. eauto. }
    injection Heq as _ Heq.
    case_bool_decide as Hr; simpl in Heq; [|by eapply IH].
    destruct before as [|e3 before]; simpl in Heq; [done|]. injection Heq as _ Heq.
    destruct (negb _); simpl in Heq; [|by eapply IH].
    destruct before as [|e4 before]; simpl in Heq; [done|]. injection Heq as _ Heq.
    by eapply IH.
Qed.

Lemma emits_ret {A} (P : list Event → Prop) (a : A) : P [] → emits P (ret a).
Proof. intros H st. exists []. simpl. by rewrite app_nil_r. Qed.

Lemma emits_ask {A} (P : list Event → Prop) (f : World → A) : P [] → emits P (ask f).
Proof. intros H st. exists []. simpl. by rewrite app_nil_r. Qed.

Lemma emits_bind {A B} (P : list Event → Prop) (c : M A) (k : A → M B) :
  (∀ t1 t2, P t1 → P t2 → P (t1 ++ t2)) →
  emits P c → (∀ a, emits P (k a)) → emits P (bind c k).
Proof.
  intros Happ Hc Hk st. unfold bind. destruct (Hc st) as (t1 & Ht1 & H1).
  destruct (c st) as [st1 [a|e|]]; simpl in *; [|by eauto..].
  destruct (Hk a st1) as (t2 & Ht2 & H2). exists (t1 ++ t2).
  rewrite Ht2, Ht1, app_assoc. auto.
Qed.

Lemma emits_for_each {A} (P : list Event → Prop) (xs : list A) (body : A → M unit) :
  P [] → (∀ t1 t2, P t1 → P t2 → P (t1 ++ t2)) →
  (∀ x, emits P (body x)) → emits P (for_each xs body).
Proof.
  intros Hnil Happ Hbody. induction xs as [|x xs IH]; simpl.
  - by apply emits_ret.
  - apply emits_bind; auto.
Qed.

Lemma emits_log lvl msg : emits reported (log lvl msg).
Proof.
  intros st. exists [Log (lvl, msg)]. split; [done|].
  apply reported_event; [done|constructor].
Qed.

Lemma emits_get_deps path : emits reported (get_deps path).
Proof.
  intros st. eexists [_]. split; [done|]. apply reported_event; [done|constructor].
Qed.

Lemma emits_run_command cmd : emits reported (run_command cmd).
Proof.
  intros st. rewrite run_command_eq.
  exists (run_events cmd (subprocess_run (world st) cmd).2). split; [done|].
  rewrite <-(app_nil_r (run_events cmd _)). apply reported_run. constructor.
Qed.

End ReportFacts.

Section ReportSpec.

Context `{os : OS}.

Import Py pathlib.

Local Ltac report :=
  repeat first
    [ apply emits_log | apply emits_run_command | apply emits_get_deps
    | apply emits_ask; constructor | apply emits_ret; constructor
    | apply emits_for_each; [constructor|apply reported_app|intros ?]
    | apply emits_bind; [apply reported_app| |intros ?]
    | match goal with |- emits _ (if ?b then _ else _) => destruct b end ].

Lemma fix_library_rpath_reported output_dir :
  emits reported (Linux.fix_library_rpath output_dir).
Proof. unfold Linux.fix_library_rpath. report. Qed.

Lemma fix_library_paths_reported output_dir :
  emits reported (MacOS.fix_library_paths output_dir).
Proof.
  unfold MacOS.fix_library_paths. report.
Qed.


End ReportSpec.

Section FailureFacts.

Context `{os : OS}.

Variable skips : string → bool.
Variable next : World → string → option string.
Variable output_dir : string.

Import Py pathlib.

Lemma for_each_raises {A} (xs : list A) (body : A → M unit) :
  (∀ x st e, (body x st).2 = Raised e → e = OSError) →
  ∀ st e, (for_each xs body st).2 = Raised e → e = OSError.
Proof.
  intros Hbody. induction xs as [|x xs IH]; intros st e; simpl; [done|].
  unfold bind. destruct (body x st) as [st1 [[]|e1|]] eqn:E; simpl; [apply IH| |done].
  intros [= <-]. apply (Hbody x st). by rewrite E.
Qed.

Lemma walk_raises fuel :
  ∀ lib_path st e, (walk skips next output_dir fuel lib_path st).2 = Raised e → e = OSError.
Proof.
  induction fuel as [|fuel IH]; intros lib_path st e; [done|].
  destruct (decide (name lib_path ∈ copied st)) as [Hin|Hin].
  { by rewrite walk_seen. }
  destruct (skips lib_path) eqn:Hs.
  { by rewrite walk_skipped. }
  destruct (path_exists (world st) lib_path) eqn:He.
  2: { by rewrite walk_missing. }
  destruct (copy2 (world st) (resolve (world st) lib_path)
              (joinpath output_dir (name lib_path))) as [w'|] eqn:Hc.
  2: { rewrite walk_copy_fails by done. by intros [= <-]. }
  rewrite (walk_copies _ _ _ _ _ _ w') by done.
  apply for_each_raises. intros dep st1 e1. unfold walk_body, bind, ask.
  destruct (next (world st1) dep); [apply IH|done].
Qed.

Lemma walk_all_raises fuel main_lib vips_lib_dir pattern st e :
  (walk_all skips next output_dir fuel main_lib vips_lib_dir pattern st).2 = Raised e →
  e = OSError.
Proof.
  unfold walk_all. unfold bind at 1.
  destruct (walk skips next output_dir fuel main_lib st) as [st1 [[]|e1|]] eqn:E; simpl.
  - unfold bind, ask. apply for_each_raises. intros lib st2 e2.
    unfold walk_sibling, bind, get_copied. destruct (bool_decide _); [apply walk_raises|done].
  - intros [= <-]. apply (walk_raises fuel main_lib st). by rewrite E.
  - done.
Qed.

End FailureFacts.

Section FailureSpec.

Context `{os : OS}.

Import Py pathlib.

Lemma closure_raises skips next patterns pattern missing heading fuel output vips_prefix st e :
  (closure skips next patterns pattern missing heading fuel output vips_prefix st).2
  = Raised e →
  (e = SystemExit 1 ∧ find_main_lib (world st) (joinpath vips_prefix "lib") patterns = None)
  ∨ e = OSError.
Proof.
  rewrite closure_unfold. destruct (find_main_lib _ _ _) as [main_lib|].
  2: { intros [= <-]. by left. }
  destruct (walk_all _ _ _ _ _ _ _ _) as [st2 [[]|e2|]] eqn:E; simpl; [done| |done].
  intros [= <-]. right. eapply walk_all_raises. by rewrite E.
Qed.


End FailureSpec.

Module WindowsMore2.

Import Py Windows.

(** X10.  [main] returns only when every stage has gone well: the
    release was fetched, an asset was found in it, a version was read
    off its name, and the delivery of that asset, called with the URL,
    the name and the version, returned; what it returns is then 0. *)
Theorem main_returns_after_every_stage args fetch deliver z :
  (main args fetch deliver).2 = Return z →
  z = 0%Z ∧
  ∃ release_info url filename v,
    fetch.2 = Return release_info ∧
    (find_asset_for_arch release_info (arch args) (build_type args)).2
    = Some (url, filename) ∧
    get_version_from_filename filename = Return v ∧
    (deliver url filename v).2 = Return tt.
Proof.
  unfold main. destruct fetch as [lf [release_info|e]]; [|done].
  destruct (find_asset_for_arch _ _ _) as [l1 [[u f]|]] eqn:Ef; [|done].
  destruct (get_version_from_filename f) as [v|] eqn:Ev; [|done].
  destruct (deliver u f v) as [l3 [[]|e]] eqn:Ed; [|done].
  simpl. intros [= <-]. split; [done|]. exists release_info, u, f, v.
  by rewrite Ef, Ev, Ed.
Qed.

End WindowsMore2.

(** ** Python strings *)

Module StrFacts.

Import Py Str TextFacts.

Lemma str_app_nil_r s : s +:+ "" = s.
Proof. induction s as [|c s IH]; [done|]. by rewrite append_cons, IH. Qed.

Lemma str_app_assoc a b c : (a +:+ b) +:+ c = a +:+ (b +:+ c).
Proof. induction a as [|x a IH]; [done|]. by rewrite !append_cons, IH. Qed.

Lemma str_app_snoc a c b : (a +:+ String c "") +:+ b = a +:+ String c b.
Proof. by rewrite str_app_assoc. Qed.

Lemma str_app_eq_nil a b : a +:+ b = "" → a = "" ∧ b = "".
Proof. destruct a; [done|]. by rewrite append_cons. Qed.

Lemma str_length_app a b : String.length (a +:+ b) = String.length a + String.length b.
Proof. induction a as [|x a IH]; [done|]. rewrite append_cons. simpl. by rewrite IH. Qed.

Lemma eqb_nil_app a c : String.eqb (a +:+ String c "") "" = false.
Proof. destruct a; [done|]. by rewrite append_cons. Qed.

(** *** White space *)

Lemma spaceless_app a b : spaceless (a +:+ b) = spaceless a && spaceless b.
Proof.
  induction a as [|c a IH]; [done|]. rewrite append_cons. simpl.
  by rewrite IH, andb_assoc.
Qed.

Lemma blank_app a b : blank (a +:+ b) = blank a && blank b.
Proof.
  induction a as [|c a IH]; [done|]. rewrite append_cons. simpl.
  by rewrite IH, andb_assoc.
Qed.

Lemma without_app c a b : without c (a +:+ b) = without c a && without c b.
Proof.
  induction a as [|d a IH]; [done|]. rewrite append_cons. simpl.
  by rewrite IH, andb_assoc.
Qed.

(** *** [lstrip], [rstrip], [strip] *)

Lemma lstrip_blank ws s : blank ws = true → lstrip (ws +:+ s) = lstrip s.
Proof.
  induction ws as [|c ws IH]; [done|]. rewrite append_cons. simpl.
  intros [Hc Hw]%andb_prop. rewrite Hc. auto.
Qed.

Lemma lstrip_head s :
  match lstrip s with String c _ => isspace c = false | EmptyString => True end.
Proof.
  induction s as [|c s IH]; [done|]. simpl. destruct (isspace c) eqn:E; [done|]. done.
Qed.

Lemma lstrip_fixed c s : isspace c = false → lstrip (String c s) = String c s.
Proof. intros H. simpl. by rewrite H. Qed.

Lemma lstrip_app_fixed a c b :
  isspace c = false → lstrip (a +:+ String c b) = lstrip a +:+ String c b.
Proof.
  intros Hc. induction a as [|d a IH]; [by apply lstrip_fixed|].
  rewrite append_cons. simpl. by destruct (isspace d).
Qed.

Lemma lstrip_idem s : lstrip (lstrip s) = lstrip s.
Proof.
  induction s as [|c s IH]; [done|]. simpl. destruct (isspace c) eqn:E; [done|].
  simpl. by rewrite E.
Qed.

Lemma rstrip_cons_fixed c s : isspace c = false → rstrip (String c s) = String c (rstrip s).
Proof. intros H. simpl. rewrite H. by destruct (rstrip s). Qed.

Lemma rstrip_blank ws : blank ws = true → rstrip ws = "".
Proof.
  induction ws as [|c ws IH]; [done|]. simpl. intros [Hc Hw]%andb_prop.
  by rewrite IH, Hc.
Qed.

Lemma rstrip_app a b :
  rstrip (a +:+ b) = if String.eqb (rstrip b) "" then rstrip a else a +:+ rstrip b.
Proof.
  induction a as [|c a IH].
  - simpl. destruct (rstrip b) eqn:E; [done|]. done.
  - rewrite append_cons. simpl. rewrite IH.
    destruct (rstrip b) as [|d r] eqn:E; simpl; [done|].
    rewrite append_cons. destruct a; by rewrite ?append_cons.
Qed.

Lemma rstrip_app_blank a ws : blank ws = true → rstrip (a +:+ ws) = rstrip a.
Proof. intros H. by rewrite rstrip_app, rstrip_blank. Qed.

Lemma rstrip_app_fixed a c b :
  isspace c = false → rstrip (a +:+ String c b) = a +:+ String c (rstrip b).
Proof. intros H. by rewrite rstrip_app, rstrip_cons_fixed. Qed.

Lemma rstrip_idem s : rstrip (rstrip s) = rstrip s.
Proof.
  induction s as [|c s IH]; [done|]. simpl.
  destruct (rstrip s) as [|d r] eqn:E.
  - destruct (isspace c) eqn:Hc; [done|]. simpl. by rewrite Hc.
  - simpl in *. by rewrite IH.
Qed.

Lemma rstrip_spaceless s : spaceless s = true → rstrip s = s.
Proof.
  induction s as [|c s IH]; [done|]. simpl. intros [Hc Hs]%andb_prop.
  apply negb_true_iff in Hc. rewrite IH, Hc by done. by destruct s.
Qed.

Lemma rstrip_lstrip s : rstrip (lstrip s) = lstrip (rstrip s).
Proof.
  induction s as [|c s IH]; [done|].
  destruct (isspace c) eqn:Hc.
  - simpl. rewrite Hc, IH. destruct (rstrip s) as [|d r] eqn:E; simpl; [done|].
    by rewrite Hc.
  - rewrite lstrip_fixed, rstrip_cons_fixed, lstrip_fixed by done. done.
Qed.

Lemma strip_idem s : strip (strip s) = strip s.
Proof.
  unfold strip. by rewrite (rstrip_lstrip (rstrip s)), rstrip_idem, lstrip_idem.
Qed.

Lemma strip_blank ws : blank ws = true → strip ws = "".
Proof. intros H. unfold strip. by rewrite rstrip_blank. Qed.

Lemma lstrip_nil_blank s : lstrip s = "" → blank s = true.
Proof.
  induction s as [|c s IH]; [done|]. simpl. destruct (isspace c); [auto|done].
Qed.

Lemma rstrip_nil_blank s : rstrip s = "" → blank s = true.
Proof.
  induction s as [|c s IH]; [done|]. simpl.
  destruct (rstrip s) as [|d r]; [|done]. destruct (isspace c); [auto|done].
Qed.

Lemma blank_lstrip s : blank s = true → blank (lstrip s) = true.
Proof.
  induction s as [|c s IH]; [done|]. simpl. intros [Hc Hs]%andb_prop. rewrite Hc. auto.
Qed.

Lemma strip_nil_blank s : strip s = "" ↔ blank s = true.
Proof.
  split; [|apply strip_blank]. unfold strip. rewrite <-rstrip_lstrip.
  intros H%rstrip_nil_blank. destruct (blank s) eqn:E; [done|].
  assert (lstrip (lstrip s) = "") as H'.
  { clear E. induction (lstrip s) as [|c t IH]; [done|]. simpl in *.
    apply andb_prop in H as [Hc Ht]. rewrite Hc. auto. }
  rewrite lstrip_idem in H'. apply lstrip_nil_blank in H'. congruence.
Qed.

Lemma without_lstrip c s : without c s = true → without c (lstrip s) = true.
Proof.
  induction s as [|d s IH]; [done|]. simpl. intros H.
  destruct (isspace d); [|done]. apply andb_prop in H as [_ H]. auto.
Qed.

Lemma without_rstrip c s : without c s = true → without c (rstrip s) = true.
Proof.
  induction s as [|d s IH]; [done|]. simpl. intros [Hd Hs]%andb_prop.
  specialize (IH Hs). destruct (rstrip s) as [|e r].
  - destruct (isspace d); [done|]. simpl. by rewrite Hd.
  - simpl in *. by rewrite Hd, IH.
Qed.

(** What is left of a string that begins with white space begins
    with white space. *)
Lemma rstrip_head s :
  match s with String c _ => isspace c = true | EmptyString => True end →
  match rstrip s with String c _ => isspace c = true | EmptyString => True end.
Proof.
  destruct s as [|c s]; [done|]. simpl. intros Hc.
  destruct (rstrip s); [by rewrite Hc|done].
Qed.

(** *** [split()] *)

Lemma words_go_feed tok rest cur :
  spaceless tok = true → words_go (tok +:+ rest) cur = words_go rest (cur +:+ tok).
Proof.
  revert cur. induction tok as [|c tok IH]; intros cur; [by rewrite str_app_nil_r|].
  rewrite append_cons. simpl. intros [Hc Ht]%andb_prop. apply negb_true_iff in Hc.
  rewrite Hc, IH by done. by rewrite str_app_snoc.
Qed.

Lemma words_go_blank ws s : blank ws = true → words_go (ws +:+ s) "" = words_go s "".
Proof.
  induction ws as [|c ws IH]; [done|]. rewrite append_cons. simpl.
  intros [Hc Hw]%andb_prop. rewrite Hc. auto.
Qed.

Lemma words_go_spaceless s cur :
  spaceless cur = true →
  Forall (λ w, w ≠ "" ∧ spaceless w = true) (words_go s cur).
Proof.
  revert cur. induction s as [|c s IH]; intros cur Hcur; simpl.
  - destruct (String.eqb cur "") eqn:E; [constructor|].
    apply String.eqb_neq in E. by repeat constructor.
  - destruct (isspace c) eqn:Hc.
    + destruct (String.eqb cur "") eqn:E; [by apply IH|].
      apply String.eqb_neq in E. constructor; [done|]. by apply IH.
    + apply IH. by rewrite spaceless_app, Hcur; simpl; rewrite Hc.
Qed.

(** The first word begins with what has been read of it. *)
Lemma words_go_first s cur :
  cur ≠ "" → ∃ more ws, words_go s cur = (cur +:+ more) :: ws.
Proof.
  revert cur. induction s as [|c s IH]; intros cur Hcur; simpl.
  - apply String.eqb_neq in Hcur. rewrite Hcur. exists "", []. by rewrite str_app_nil_r.
  - destruct (isspace c).
    + apply String.eqb_neq in Hcur. rewrite Hcur. exists "". eexists.
      by rewrite str_app_nil_r.
    + destruct (IH (cur +:+ String c "")) as (more & ws & ->).
      { intros [? _]%str_app_eq_nil. done. }
      exists (String c more), ws. by rewrite str_app_snoc.
Qed.

Lemma words_token tok rest :
  tok ≠ "" → spaceless tok = true →
  match rest with String c _ => isspace c = true | EmptyString => True end →
  ∃ ws, words (tok +:+ rest) = tok :: ws.
Proof.
  intros Hne Hs Hr. unfold words. rewrite words_go_feed, append_nil by done.
  destruct rest as [|c rest]; simpl.
  - apply String.eqb_neq in Hne. rewrite Hne. by eexists.
  - rewrite Hr. apply String.eqb_neq in Hne. rewrite Hne. by eexists.
Qed.

(** *** [split] with a separator of two characters *)

Section Two.

Variables c1 c2 : ascii.
Hypothesis distinct : c1 ≠ c2.

Local Abbreviation sep := (String c1 (String c2 "")).

Lemma prefix_sep_without s :
  without c2 (match s with String _ s' => s' | EmptyString => "" end) = true →
  match s with String _ (String d _) => d ≠ c2 | _ => True end.
Proof.
  destruct s as [|x [|d s]]; try done. simpl. intros [H _]%andb_prop.
  apply negb_true_iff, Ascii.eqb_neq in H. congruence.
Qed.

Lemma prefix_sep_false x s :
  match s with String d _ => d ≠ c2 | EmptyString => True end →
  String.prefix sep (String x s) = false.
Proof.
  intros H. simpl. destruct (ascii_dec c1 x); [|done].
  destruct s as [|d s]; [done|]. simpl. destruct (ascii_dec c2 d); [congruence|done].
Qed.

Lemma split_two_none s cur :
  without c2 s = true → split_go sep s 0 cur = [cur +:+ s].
Proof.
  revert cur. induction s as [|x s IH]; intros cur; [by rewrite str_app_nil_r|].
  intros H. pose proof H as [Hx Hs]%andb_prop. cbn [split_go].
  rewrite prefix_sep_false.
  - rewrite IH by done. by rewrite str_app_snoc.
  - destruct s as [|d s]; [done|]. simpl in Hs. apply andb_prop in Hs as [Hd _].
    apply negb_true_iff, Ascii.eqb_neq in Hd. congruence.
Qed.

Lemma split_two_first a b cur :
  without c2 a = true →
  split_go sep (a +:+ sep +:+ b) 0 cur = (cur +:+ a) :: split_go sep b 0 "".
Proof.
  revert cur. induction a as [|x a IH]; intros cur H.
  - rewrite str_app_nil_r. rewrite append_nil. rewrite !append_cons, append_nil.
    cbn [split_go]. assert (String.prefix sep (String c1 (String c2 b)) = true) as ->.
    { simpl. destruct (ascii_dec c1 c1); [|done]. destruct (ascii_dec c2 c2); [|done].
      apply prefix_nil. }
    reflexivity.
  - pose proof H as [Hx Ha]%andb_prop. rewrite append_cons. cbn [split_go].
    rewrite prefix_sep_false.
    + rewrite IH by done. by rewrite str_app_snoc.
    + destruct a as [|d a].
      * rewrite append_nil, append_cons. done.
      * rewrite append_cons. simpl in Ha. apply andb_prop in Ha as [Hd _].
        apply negb_true_iff, Ascii.eqb_neq in Hd. congruence.
Qed.

Lemma contains_app_sep a b : contains sep (a +:+ sep +:+ b) = true.
Proof.
  induction a as [|x a IH].
  - rewrite append_nil, !append_cons, append_nil. simpl.
    destruct (ascii_dec c1 c1); [|done]. destruct (ascii_dec c2 c2); [|done].
    by rewrite prefix_nil.
  - rewrite append_cons. cbn [contains]. rewrite IH. by destruct (String.prefix _ _).
Qed.

Lemma contains_without s : without c2 s = true → contains sep s = false.
Proof.
  induction s as [|x s IH]; [done|]. intros H. pose proof H as [Hx Hs]%andb_prop.
  cbn [contains]. rewrite prefix_sep_false, IH; [done..|].
  destruct s as [|d s]; [done|]. simpl in Hs. apply andb_prop in Hs as [Hd _].
  apply negb_true_iff, Ascii.eqb_neq in Hd. congruence.
Qed.

End Two.

(** *** [find] and slices *)

Lemma find_go_first c a b i :
  without c a = true → find_go (String c "") (a +:+ String c b) i = Some (i + String.length a).
Proof.
  revert i. induction a as [|d a IH]; intros i.
  - intros _. rewrite append_nil. simpl. destruct (ascii_dec c c); [|done].
    rewrite prefix_nil. f_equal. lia.
  - rewrite append_cons. simpl. intros [Hd Ha]%andb_prop.
    apply negb_true_iff, Ascii.eqb_neq in Hd.
    destruct (ascii_dec c d); [done|]. rewrite IH by done. f_equal. simpl. lia.
Qed.

Lemma find_go_none c s i : without c s = true → find_go (String c "") s i = None.
Proof.
  revert i. induction s as [|d s IH]; intros i; [done|].
  simpl. intros [Hd Hs]%andb_prop. apply negb_true_iff, Ascii.eqb_neq in Hd.
  destruct (ascii_dec c d); [done|]. by apply IH.
Qed.

Lemma substring_skip a b n : substring (String.length a) n (a +:+ b) = substring 0 n b.
Proof. induction a as [|c a IH]; [done|]. by rewrite append_cons. Qed.

Lemma substring_take a b : substring 0 (String.length a) (a +:+ b) = a.
Proof.
  induction a as [|c a IH]; [by destruct b|]. rewrite append_cons. simpl. by rewrite IH.
Qed.

(** *** [splitlines] *)

Lemma splitlines_go_feed h rest cur :
  forallb (λ c, negb (is_linebreak c)) (list_ascii_of_string h) = true →
  splitlines_go (h +:+ rest) cur = splitlines_go rest (cur +:+ h).
Proof.
  revert cur. induction h as [|c h IH]; intros cur; [by rewrite str_app_nil_r|].
  rewrite append_cons. cbn [splitlines_go]. simpl. intros [Hc Hh]%andb_prop.
  apply negb_true_iff in Hc.
  assert (Ascii.eqb c "013" = false) as ->.
  { apply Ascii.eqb_neq. intros ->. done. }
  rewrite Hc, IH by done. by rewrite str_app_snoc.
Qed.

End StrFacts.

(** ** The output of the listers *)

Module ScrapeFacts.

Import Py Str Scrape TextFacts StrFacts.

Lemma spaceless_head tok :
  tok ≠ "" → spaceless tok = true → ∃ c t, tok = String c t ∧ isspace c = false.
Proof.
  destruct tok as [|c t]; [done|]. simpl. intros _ [Hc _]%andb_prop.
  exists c, t. split; [done|]. by apply negb_true_iff.
Qed.

Lemma rstrip_token a tok rest :
  tok ≠ "" → spaceless tok = true →
  rstrip (a +:+ tok +:+ rest) = a +:+ tok +:+ rstrip rest.
Proof.
  intros Hne Hs. destruct (spaceless_head tok Hne Hs) as (c & t & -> & Hc).
  rewrite append_cons, rstrip_app_fixed by done. f_equal. f_equal.
  simpl in Hs. apply andb_prop in Hs as [_ Ht].
  rewrite rstrip_app, (rstrip_spaceless t) by done.
  destruct (String.eqb (rstrip rest) "") eqn:E; [|done].
  apply String.eqb_eq in E. by rewrite E, str_app_nil_r.
Qed.

Lemma lstrip_token ws tok rest :
  blank ws = true → tok ≠ "" → spaceless tok = true →
  lstrip (ws +:+ tok +:+ rest) = tok +:+ rest.
Proof.
  intros Hw Hne Hs. destruct (spaceless_head tok Hne Hs) as (c & t & -> & Hc).
  rewrite lstrip_blank by done. rewrite append_cons. by apply lstrip_fixed.
Qed.

Lemma strip_token ws tok rest :
  blank ws = true → tok ≠ "" → spaceless tok = true →
  strip (ws +:+ tok +:+ rest) = tok +:+ rstrip rest.
Proof.
  intros Hw Hne Hs. unfold strip. by rewrite rstrip_token, lstrip_token.
Qed.

(** What [ldd_line] adds is a word that is neither ["not"] nor begins
    with a parenthesis. *)
Lemma ldd_line_sound line new :
  ldd_line line = Return new →
  Forall (λ d, d ≠ "" ∧ spaceless d = true ∧ d ≠ "not" ∧ startswith d "(" = false) new.
Proof.
  unfold ldd_line. destruct (contains "=>" (strip line)).
  - destruct (split "=>" (strip line)) as [|? [|part ?]]; try (intros [= <-]; constructor).
    pose proof (words_go_spaceless (strip part) "" eq_refl) as Hw.
    fold (words (strip part)) in Hw.
    destruct (words (strip part)) as [|path ws]; [done|].
    apply Forall_cons in Hw as [[Hne Hsp] _].
    destruct (negb (String.eqb path "") && negb (String.eqb path "not")
              && negb (startswith path "(")) eqn:E; intros [= <-]; [|constructor].
    apply andb_prop in E as [[E1 E2]%andb_prop E3].
    constructor; [|constructor]. split_and!; [done..| |by apply negb_true_iff].
    by apply String.eqb_neq, negb_true_iff.
  - destruct (startswith (strip line) "/") eqn:E; [|intros [= <-]; constructor].
    unfold startswith in E. apply prefix_inv in E as [rest E]. rewrite E.
    rewrite append_cons, append_nil. unfold words. cbn [words_go].
    assert (isspace "/" = false) as -> by done. rewrite append_nil.
    pose proof (words_go_spaceless rest "/" eq_refl) as Hw.
    destruct (words_go_first rest "/") as (more & ws & Heq); [done|].
    rewrite Heq in Hw |- *. intros [= <-].
    apply Forall_cons in Hw as [[Hne Hsp] _].
    constructor; [|constructor]. split_and!; [done..| |].
    + by rewrite append_cons.
    + by rewrite append_cons.
Qed.

Lemma ldd_loop_sound lines deps result :
  Forall (λ d, d ≠ "" ∧ spaceless d = true ∧ d ≠ "not" ∧ startswith d "(" = false) deps →
  ldd_loop lines deps = Return result →
  Forall (λ d, d ≠ "" ∧ spaceless d = true ∧ d ≠ "not" ∧ startswith d "(" = false) result.
Proof.
  revert deps. induction lines as [|line lines IH]; intros deps Hd; simpl.
  - by intros [= <-].
  - destruct (ldd_line line) as [new|e] eqn:E; [|done].
    apply IH. apply Forall_app. split; [done|]. by apply ldd_line_sound in E.
Qed.

Lemma ldd_line_raises line e : ldd_line line = Raise e → e = IndexError.
Proof.
  unfold ldd_line. repeat case_match; try done; by intros [= <-].
Qed.

Lemma ldd_loop_raises lines deps e : ldd_loop lines deps = Raise e → e = IndexError.
Proof.
  revert deps. induction lines as [|line lines IH]; intros deps; simpl; [done|].
  destruct (ldd_line line) as [new|e'] eqn:E; [apply IH|].
  intros [= <-]. by apply ldd_line_raises in E.
Qed.

Lemma ldd_loop_bad lines deps :
  Exists (λ line, ldd_line line = Raise IndexError) lines →
  ldd_loop lines deps = Raise IndexError.
Proof.
  revert deps. induction lines as [|line lines IH]; intros deps H; [by inversion H|].
  simpl. destruct (ldd_line line) as [new|e] eqn:E.
  - apply IH. inversion H; [congruence|done].
  - by apply ldd_line_raises in E as ->.
Qed.

(** X11.  A line of the output of [ldd] that resolves a name, "name =>
    target ...", adds the target, unless the target is the word "not"
    (of "not found") or begins with a parenthesis (an address with no
    path), in which case the line adds nothing: a dependency [ldd] could
    not resolve is dropped without a word. *)
Theorem ldd_line_resolved ws name tok rest :
  blank ws = true →
  name ≠ "" → spaceless name = true → without ">" name = true →
  tok ≠ "" → spaceless tok = true → without ">" tok = true →
  without ">" rest = true →
  match rest with String c _ => isspace c = true | EmptyString => True end →
  ldd_line (ws +:+ name +:+ " => " +:+ tok +:+ rest)
  = Return (if negb (String.eqb tok "not") && negb (startswith tok "(")
            then [tok] else []).
Proof.
  intros Hws Hn1 Hn2 Hn3 Ht1 Ht2 Ht3 Hr1 Hr2. unfold ldd_line.
  assert (strip (ws +:+ name +:+ " => " +:+ tok +:+ rest)
          = (name +:+ " ") +:+ "=>" +:+ (" " +:+ tok +:+ rstrip rest)) as ->.
  { unfold strip.
    replace (ws +:+ name +:+ " => " +:+ tok +:+ rest)
      with ((ws +:+ name +:+ " => ") +:+ tok +:+ rest) by by rewrite !str_app_assoc.
    rewrite rstrip_token by done. rewrite !str_app_assoc.
    by rewrite lstrip_token. }
  set (rest' := rstrip rest).
  assert (without ">" rest' = true) as Hr1' by by apply without_rstrip.
  assert (match rest' with String c _ => isspace c = true | EmptyString => True end)
    as Hr2' by by apply rstrip_head.
  rewrite (contains_app_sep "=" ">"). unfold split.
  rewrite (split_two_first "=" ">") by (done || by rewrite without_app, Hn3).
  rewrite (split_two_none "=" ">") by (done || by rewrite !without_app, Ht3, Hr1').
  rewrite !append_nil.
  assert (strip (" " +:+ tok +:+ rest') = tok +:+ rest') as ->.
  { rewrite strip_token by done. unfold rest'. by rewrite rstrip_idem. }
  destruct (words_token tok rest' Ht1 Ht2 Hr2') as [ws' ->].
  apply String.eqb_neq in Ht1. rewrite Ht1. cbn [negb andb].
  by destruct (negb _ && negb _).
Qed.

(** X12.  A line of the output of [ldd] with nothing but white space
    after its [=>] makes the loop of [get_so_deps] raise [IndexError];
    and one such line among the lines is enough for the whole output
    to be lost. *)
Theorem ldd_line_empty_target :
  (∀ ws name ws',
     blank ws = true → without ">" name = true → blank ws' = true →
     ldd_line (ws +:+ name +:+ "=>" +:+ ws') = Raise IndexError) ∧
  (∀ out, Exists (λ line, ldd_line line = Raise IndexError) (splitlines out) →
          ldd_deps out = Raise IndexError).
Proof.
  split.
  - intros ws name ws' Hws Hn Hws'. unfold ldd_line.
    assert (strip (ws +:+ name +:+ "=>" +:+ ws') = lstrip name +:+ "=>" +:+ "") as ->.
    { unfold strip.
      replace (ws +:+ name +:+ "=>" +:+ ws') with ((ws +:+ name +:+ "=") +:+ String ">" ws')
        by by rewrite !str_app_assoc.
      rewrite rstrip_app_fixed, (rstrip_blank ws') by done.
      rewrite !str_app_assoc, lstrip_blank by done.
      change ("=" +:+ ">") with (String "=" ">").
      by rewrite (lstrip_app_fixed name "="). }
    rewrite (contains_app_sep "=" ">"). unfold split.
    rewrite (split_two_first "=" ">") by (done || by apply without_lstrip).
    reflexivity.
  - intros out H. by apply ldd_loop_bad.
Qed.

(** X13.  From a line of the output of [readelf -d] that holds
    "NEEDED", [get_so_deps] takes what stands between the first [[] and
    the first []]: for a line "... [name] ..." with no bracket before
    the name and no []] in it, that is the name. *)
Theorem readelf_line_extracts pre name post :
  contains "NEEDED" (pre +:+ "[" +:+ name +:+ "]" +:+ post) = true →
  without "[" pre = true → without "]" pre = true → without "]" name = true →
  readelf_line (pre +:+ "[" +:+ name +:+ "]" +:+ post) = [name].
Proof.
  intros Hn Hp1 Hp2 Hname. unfold readelf_line. rewrite Hn. unfold find.
  change ("[" +:+ name +:+ "]" +:+ post) with (String "[" (name +:+ "]" +:+ post)) at 1.
  rewrite (find_go_first "[" pre) by done.
  replace (pre +:+ "[" +:+ name +:+ "]" +:+ post)
    with ((pre +:+ "[" +:+ name) +:+ String "]" post) at 1 by by rewrite !str_app_assoc.
  rewrite (find_go_first "]") by by rewrite !without_app, Hp2, Hname.
  unfold slice. f_equal. simpl.
  replace (String.length (pre +:+ "[" +:+ name) - (String.length pre + 1))
    with (String.length name) by (rewrite !str_length_app; simpl; lia).
  replace (pre +:+ "[" +:+ name +:+ "]" +:+ post)
    with ((pre +:+ "[") +:+ name +:+ "]" +:+ post) by by rewrite !str_app_assoc.
  replace (String.length pre + 1) with (String.length (pre +:+ "["))
    by (rewrite str_length_app; simpl; lia).
  by rewrite substring_skip, substring_take.
Qed.

(** What [otool_line] adds is not empty and has no white space at
    either end. *)
Lemma split_go_hd sep s cur :
  ∃ more, List.hd "" (split_go sep s 0 cur) = cur +:+ more.
Proof.
  revert cur. induction s as [|c s IH]; intros cur.
  - exists "". simpl. by rewrite str_app_nil_r.
  - cbn [split_go]. destruct (String.prefix sep (String c s)).
    + exists "". simpl. by rewrite str_app_nil_r.
    + destruct (IH (cur +:+ String c "")) as [more ->]. exists (String c more).
      by rewrite str_app_snoc.
Qed.

Lemma otool_line_sound line :
  Forall (λ d, d ≠ "" ∧ strip d = d) (otool_line line).
Proof.
  unfold otool_line. destruct (String.eqb (strip line) "") eqn:E; simpl; [constructor|].
  constructor; [|constructor]. split; [|apply strip_idem].
  apply String.eqb_neq in E. pose proof (lstrip_head (rstrip line)) as Hh.
  fold (strip line) in Hh. destruct (strip line) as [|c s]; [done|].
  unfold split. cbn [split_go].
  assert (String.prefix " (" (String c s) = false) as ->.
  { cbn [String.prefix]. destruct (ascii_dec " " c) as [<-|]; [by vm_compute in Hh|done]. }
  destruct (split_go_hd " (" s ("" +:+ String c "")) as [more ->].
  rewrite append_nil, append_cons, append_nil. unfold strip.
  rewrite rstrip_cons_fixed, lstrip_fixed by done. done.
Qed.

Lemma otool_line_length line :
  length (otool_line line) = if blank line then 0 else 1.
Proof.
  unfold otool_line. destruct (String.eqb (strip line) "") eqn:E; simpl.
  - apply String.eqb_eq, strip_nil_blank in E. by rewrite E.
  - destruct (blank line) eqn:B; [|done]. apply strip_nil_blank in B.
    apply String.eqb_neq in E. done.
Qed.

(** X14.  A line of the output of [otool -L], "path (compatibility
    version ...)", gives back the path, whatever stands in the
    parentheses, when the path has no white space at either end and no
    parenthesis. *)
Theorem otool_line_round_trip ws path info :
  blank ws = true →
  path ≠ "" → lstrip path = path → rstrip path = path → without "(" path = true →
  otool_line (ws +:+ path +:+ " (" +:+ info) = [path].
Proof.
  intros Hws Hne Hl Hr Hp. unfold otool_line.
  assert (strip (ws +:+ path +:+ " (" +:+ info) = path +:+ " (" +:+ rstrip info) as ->.
  { unfold strip.
    replace (ws +:+ path +:+ " (" +:+ info) with ((ws +:+ path +:+ " ") +:+ String "(" info)
      by by rewrite !str_app_assoc.
    rewrite rstrip_app_fixed by done. rewrite !str_app_assoc, lstrip_blank by done.
    destruct path as [|c p]; [done|]. pose proof (lstrip_head (String c p)) as Hh.
    rewrite Hl in Hh. rewrite append_cons. by apply lstrip_fixed. }
  assert (String.eqb (path +:+ " (" +:+ rstrip info) "" = false) as ->.
  { destruct path; [done|]. by rewrite append_cons. }
  simpl negb. cbv iota. unfold split.
  rewrite (split_two_first " " "(") by done. rewrite append_nil. simpl List.hd.
  unfold strip. by rewrite Hr, Hl.
Qed.

Lemma otool_deps_trimmed out : Forall (λ d, d ≠ "" ∧ strip d = d) (otool_deps out).
Proof.
  unfold otool_deps. induction (List.tl (splitlines out)) as [|l ls IH];
    simpl; [constructor|]. apply Forall_app. split; [apply otool_line_sound|done].
Qed.

End ScrapeFacts.

Module ScrapeSpec.

Import Py Str Scrape TextFacts StrFacts ScrapeFacts.

(** X15.  Every dependency the loop of [get_so_deps] takes from the
    output of [ldd] is a word without white space that is not empty, is
    not ["not"] and does not begin with a parenthesis; and the loop
    raises nothing but [IndexError]. *)
Theorem ldd_deps_sound out :
  (∀ deps, ldd_deps out = Return deps →
     Forall (λ d, d ≠ "" ∧ spaceless d = true ∧ d ≠ "not" ∧ startswith d "(" = false) deps) ∧
  (∀ e, ldd_deps out = Raise e → e = IndexError).
Proof.
  split.
  - intros deps. by apply ldd_loop_sound.
  - intros e. apply ldd_loop_raises.
Qed.

(** X16.  What [get_dylib_deps] takes from the output of [otool -L]:
    never the first line; one path for each later line that is not
    blank, not empty and without white space at either end. *)
Theorem otool_deps_shape :
  (∀ out, Forall (λ d, d ≠ "" ∧ strip d = d) (otool_deps out)) ∧
  (∀ out, length (otool_deps out)
          = length (List.filter (λ l, negb (blank l)) (List.tl (splitlines out)))) ∧
  (∀ header rest,
     forallb (λ c, negb (is_linebreak c)) (list_ascii_of_string header) = true →
     otool_deps (header +:+ String "010" rest) = flat_map otool_line (splitlines rest)).
Proof.
  split_and!.
  - apply otool_deps_trimmed.
  - intros out. unfold otool_deps. induction (List.tl (splitlines out)) as [|l ls IH];
      simpl; [done|]. rewrite length_app, otool_line_length, IH.
    by destruct (blank l).
  - intros header rest H. unfold otool_deps, splitlines.
    rewrite splitlines_go_feed by done. by rewrite append_nil.
Qed.

End ScrapeSpec.

Section ToolSpec.

Context `{os : OS}.

Import Py Str pathlib Scrape.

(** X17.  [get_so_deps] runs [ldd] and, only when [ldd] ends with a
    status other than 0, [readelf -d]; with [ldd] at status 0 it gives
    what the loop over the output of [ldd] gives, raising [IndexError]
    when that does; otherwise it gives what it reads from [readelf], and
    nothing when [readelf] fails too.  It runs no other command. *)
Theorem get_so_deps_outcomes so_path st :
  let ldd := subprocess_run (world st) ["ldd"; so_path] in
  let readelf := subprocess_run ldd.1 ["readelf"; "-d"; so_path] in
  let r := get_so_deps so_path st in
  copied r.1 = copied st ∧
  ∃ t, trace r.1 = trace st ++ t ∧
    if bool_decide (returncode ldd.2 = 0%Z)
    then map fst (runs t) = [["ldd"; so_path]] ∧ world r.1 = ldd.1 ∧
         r.2 = match ldd_deps (stdout ldd.2) with
               | Return deps => Done deps
               | Raise _ => Raised IndexError
               end
    else map fst (runs t) = [["ldd"; so_path]; ["readelf"; "-d"; so_path]] ∧
         world r.1 = readelf.1 ∧
         r.2 = Done (if bool_decide (returncode readelf.2 = 0%Z)
                     then readelf_deps (stdout readelf.2) else []).
Proof.
  intros ldd readelf r. subst r. unfold get_so_deps, bind.
  rewrite run_command_eq. fold ldd. cbn [fst snd].
  case_bool_decide as Hl.
  - destruct (ldd_deps (stdout ldd.2)) as [deps|e] eqn:E; simpl.
    + split; [done|]. eexists. split; [done|]. by rewrite (proj1 (run_events_quiet _ _)).
    + apply ScrapeFacts.ldd_loop_raises in E as ->.
      split; [done|]. eexists. split; [done|]. by rewrite (proj1 (run_events_quiet _ _)).
  - rewrite run_command_eq. cbn [world copied trace fst snd]. fold readelf.
    case_bool_decide; simpl; (split; [done|]); eexists;
      (split; [by rewrite <-app_assoc|]); by rewrite runs_app, !(proj1 (run_events_quiet _ _)).
Qed.

(** X18.  [get_dylib_deps] never raises: it runs [otool -L] on the
    path, and nothing else, gives no dependency when the command ends
    with a status other than 0, and otherwise what it takes from the
    output; no dependency it gives is empty or has white space at either
    end. *)
Theorem get_dylib_deps_total dylib_path st :
  let otool := subprocess_run (world st) ["otool"; "-L"; dylib_path] in
  let r := get_dylib_deps dylib_path st in
  copied r.1 = copied st ∧ world r.1 = otool.1 ∧
  ∃ deps t,
    r.2 = Done deps ∧ trace r.1 = trace st ++ t ∧
    map fst (runs t) = [["otool"; "-L"; dylib_path]] ∧
    deps = (if bool_decide (returncode otool.2 ≠ 0%Z) then []
            else otool_deps (stdout otool.2)) ∧
    Forall (λ d, d ≠ "" ∧ strip d = d) deps.
Proof.
  intros otool r. subst r. unfold get_dylib_deps, bind.
  rewrite run_command_eq. fold otool. cbn [fst snd].
  case_bool_decide; simpl; (split; [done|]); (split; [done|]); eexists _, _;
    (split; [done|]); (split; [done|]); (split; [by rewrite (proj1 (run_events_quiet _ _))|]);
    (split; [done|]).
  - constructor.
  - apply ScrapeFacts.otool_deps_trimmed.
Qed.

(** X19.  [get_arch] gives one name to each architecture: it is
    idempotent, gives [x86_64] exactly for [x86_64] and [amd64], [arm64]
    exactly for [aarch64] and [arm64], and leaves any other name as it
    is. *)
Theorem get_arch_normalises machine :
  get_arch (get_arch machine) = get_arch machine ∧
  (get_arch machine = "x86_64" ↔ machine ∈ ["x86_64"; "amd64"]) ∧
  (get_arch machine = "arm64" ↔ machine ∈ ["aarch64"; "arm64"]) ∧
  (machine ∉ ["x86_64"; "amd64"; "aarch64"; "arm64"] → get_arch machine = machine).
Proof.
  unfold get_arch.
  repeat case_bool_decide;
    repeat match goal with
           | H : _ ∈ _ |- _ => rewrite !elem_of_cons, elem_of_nil in H
           | H : _ ∉ _ |- _ => rewrite !elem_of_cons, elem_of_nil in H
           end;
    rewrite ?elem_of_cons, ?elem_of_nil;
    intuition (subst; try discriminate; try congruence; auto).
Qed.

End ToolSpec.

(** ** The prefixes of Homebrew *)

Section PrefixSpec.

Context `{os : OS}.

Import Py Str pathlib Scrape StrFacts TextFacts.

Lemma strip_around ws p ws' :
  blank ws = true → blank ws' = true → lstrip p = p → rstrip p = p →
  strip (ws +:+ p +:+ ws') = p.
Proof.
  intros Hw Hw' Hl Hr. unfold strip.
  rewrite rstrip_app, (rstrip_app_blank p ws' Hw'), Hr.
  destruct (String.eqb_spec p "") as [->|Hp].
  - by rewrite (rstrip_blank ws Hw).
  - by rewrite lstrip_blank, Hl.
Qed.

(** X20.  [get_package_prefix] runs [brew --prefix] with the package
    and raises [RuntimeError] with the name of the package when the
    command ends with a status other than 0; otherwise it returns the
    output without the white space around it as a path, which is the
    current directory when the output is blank.  [get_homebrew_prefix]
    does the same with [brew --prefix] alone. *)
Theorem brew_prefix_outcomes :
  (∀ package st,
     let brew := subprocess_run (world st) ["brew"; "--prefix"; package] in
     let r := get_package_prefix package st in
     world r.1 = brew.1 ∧ copied r.1 = copied st ∧
     (returncode brew.2 ≠ 0%Z →
      r.2 = Raised (RuntimeError ("Failed to get prefix for " +:+ package))) ∧
     (returncode brew.2 = 0%Z → blank (stdout brew.2) = true → r.2 = Done ".") ∧
     (∀ ws p ws',
        returncode brew.2 = 0%Z → stdout brew.2 = ws +:+ p +:+ ws' →
        blank ws = true → blank ws' = true → lstrip p = p → rstrip p = p →
        r.2 = Done (Path p))) ∧
  (∀ st,
     let brew := subprocess_run (world st) ["brew"; "--prefix"] in
     let r := get_homebrew_prefix st in
     world r.1 = brew.1 ∧ copied r.1 = copied st ∧
     (returncode brew.2 ≠ 0%Z →
      r.2 = Raised (RuntimeError "Failed to get Homebrew prefix")) ∧
     (returncode brew.2 = 0%Z → blank (stdout brew.2) = true → r.2 = Done ".") ∧
     (∀ ws p ws',
        returncode brew.2 = 0%Z → stdout brew.2 = ws +:+ p +:+ ws' →
        blank ws = true → blank ws' = true → lstrip p = p → rstrip p = p →
        r.2 = Done (Path p))).
Proof.
  split.
  - intros package st brew r. subst r. unfold get_package_prefix, bind.
    rewrite run_command_eq. fold brew. cbn [fst snd].
    case_bool_decide as Hrc; simpl; split_and!; try done.
    + intros ? Hb. by rewrite strip_blank.
    + intros ws p ws' _ -> Hw Hw' Hl Hr. by rewrite strip_around.
  - intros st brew r. subst r. unfold get_homebrew_prefix, bind.
    rewrite run_command_eq. fold brew. cbn [fst snd].
    case_bool_decide as Hrc; simpl; split_and!; try done.
    + intros ? Hb. by rewrite strip_blank.
    + intros ws p ws' _ -> Hw Hw' Hl Hr. by rewrite strip_around.
Qed.

End PrefixSpec.

(** ** The claims on the two machines *)

Module Runs.

Import Py pathlib Sim Examples.

Lemma done_pair {S A} (r : S * Outcome A) a : r.2 = Done a → r = (r.1, Done a).
Proof. destruct r as [s o]. simpl. by intros ->. Defined.

(** C1 at work: on [linux], with the name of glib already in
    [copied], the Linux copier returns at once; and so does the macOS
    copier on [macos]. *)
Lemma copied_at_most_once_witness :
  (let st := {| world := linux; copied := {["libglib-2.0.so.0"]}; trace := [] |} in
   Linux.copy_shared_libs_recursive 3 "/home/linuxbrew/.linuxbrew/lib/libglib-2.0.so.0"
     "/out/lib" linuxbrew [] st = (st, Done tt)) ∧
  (let st := {| world := macos; copied := {["libintl.8.dylib"]}; trace := [] |} in
   MacOS.copy_dylibs_recursive 3 "/opt/homebrew/opt/gettext/lib/libintl.8.dylib"
     "/out/lib" homebrew st = (st, Done tt)).
Proof.
  split; intros st.
  - apply (proj1 copied_at_most_once). apply elem_of_singleton. by vm_compute.
  - apply (proj1 (proj2 copied_at_most_once)). apply elem_of_singleton. by vm_compute.
Defined.

(** C2 as stated fails on macOS: [libstdc++.6.dylib] under
    [/usr/lib] bears an essential name and is there, yet the macOS
    copier skips it: nothing is copied and the lister is not called. *)
Lemma macos_skips_essential_name :
  let lib_path := "/usr/lib/libstdc++.6.dylib" in
  let r := MacOS.copy_dylibs_recursive 5 lib_path "/out/lib" homebrew (init macos) in
  existsb (λ essential, contains essential (name lib_path)) Linux.essential_libs = true ∧
  path_exists macos lib_path = true ∧
  r.2 = Done tt ∧ copied r.1 = ∅ ∧ trace r.1 = [skipped lib_path].
Proof. by vm_compute. Qed.

Lemma system_libraries_skipped_witness :
  (∃ l, Linux.copy_shared_libs_recursive 5 "/lib/x86_64-linux-gnu/libc.so.6" "/out/lib"
          linuxbrew [] (init linux) = (logged (init linux) l, Done tt)
        ∧ (l = [] ∨ l = [skipped "/lib/x86_64-linux-gnu/libc.so.6"])) ∧
  (let lib_path := "/usr/lib/x86_64-linux-gnu/libstdc++.so.6" in
   let w' := default linux (copy2 linux lib_path "/out/lib/libstdc++.so.6") in
   Linux.copy_shared_libs_recursive 5 lib_path "/out/lib" linuxbrew [] (init linux)
   = for_each (list_deps w' (joinpath "/out/lib" (name lib_path)))
       (Linux.visit_dep 4 "/out/lib" linuxbrew [])
       (copied_state "/out/lib" lib_path (init linux) w')) ∧
  (∃ l, MacOS.copy_dylibs_recursive 5 "/usr/lib/libstdc++.6.dylib" "/out/lib"
          homebrew (init macos) = (logged (init macos) l, Done tt)
        ∧ (l = [] ∨ l = [skipped "/usr/lib/libstdc++.6.dylib"])).
Proof.
  split_and!.
  - apply (proj1 system_libraries_skipped); by vm_compute.
  - intros lib_path w'.
    apply (proj1 (proj2 system_libraries_skipped)); by vm_compute.
  - apply (proj2 (proj2 system_libraries_skipped)). by vm_compute.
Defined.





Lemma main_exit_status_witness :
  (let r := Windows.main (for_arch "arm64") ([], Return release) delivered in
   r.2 = Raise (SystemExit 1) ∧ exit_code r.2 = 1%Z ∧
   ∃ before, r.1 = before ++ (ERROR, "Available assets:")
                      :: map (λ a, (ERROR, "  - " +:+ Windows.asset_name a))
                             (Windows.get_assets release)) ∧
  exit_code (Windows.main (for_arch "x64") ([], Return release) delivered).2 = 0%Z.
Proof.
  split.
  - apply (proj1 WindowsSpec.main_exit_status (for_arch "arm64") [] release delivered).
    apply (bool_decide_unpack _). by vm_compute.
  - apply (proj2 WindowsSpec.main_exit_status (for_arch "x64") ([], Return release)
             delivered 0%Z).
    by vm_compute.
Defined.

Lemma get_version_from_filename_partial_witness :
  Windows.get_version_from_filename "vips-dev--8.17.0.zip" = Raise IndexError ∧
  Windows.get_version_from_filename "vips-dev-w64-web-8.17.0-static.zip" = Return "8.17.0" ∧
  Windows.get_version_from_filename "vips-dev-w64-web.zip" = Return "unknown".
Proof.
  split_and!.
  - apply (proj1 (proj2 WindowsSpec.get_version_from_filename_partial)
             "vips-dev--8.17.0.zip" ["vips"; "dev"] ["8.17.0"]); [by vm_compute|].
    apply (bool_decide_unpack _). by vm_compute.
  - apply (proj2 (proj2 WindowsSpec.get_version_from_filename_partial)
             "vips-dev-w64-web-8.17.0-static.zip").
    apply (bool_decide_unpack _). by vm_compute.
  - apply (proj2 (proj2 WindowsSpec.get_version_from_filename_partial)
             "vips-dev-w64-web.zip").
    apply (bool_decide_unpack _). by vm_compute.
Defined.

Lemma lister_reads_destination_witness :
  (let lib_path := "/home/linuxbrew/.linuxbrew/lib/libglib-2.0.so.0" in
   let w' := default linux (copy2 linux lib_path "/out/lib/libglib-2.0.so.0") in
   Linux.copy_shared_libs_recursive 5 lib_path "/out/lib" linuxbrew [] (init linux)
   = for_each (list_deps w' (joinpath "/out/lib" (name lib_path)))
       (Linux.visit_dep 4 "/out/lib" linuxbrew [])
       (copied_state "/out/lib" lib_path (init linux) w')) ∧
  (let lib_path := "/opt/homebrew/opt/gettext/lib/libintl.8.dylib" in
   let w' := default macos (copy2 macos lib_path "/out/lib/libintl.8.dylib") in
   MacOS.copy_dylibs_recursive 5 lib_path "/out/lib" homebrew (init macos)
   = for_each (list_deps w' (joinpath "/out/lib" (name lib_path)))
       (MacOS.visit_dep 4 "/out/lib" homebrew)
       (copied_state "/out/lib" lib_path (init macos) w')).
Proof.
  split; intros lib_path w'.
  - apply (proj1 lister_reads_destination); by vm_compute.
  - apply (proj1 (proj2 lister_reads_destination)); by vm_compute.
Defined.




End Runs.

(** ** More runs *)

Module MoreRuns.

Import Py pathlib Sim Examples Str Scrape Console.

(** The asset chosen for x64 on [release] is the second one: the
    first is an ffi build. *)
Lemma find_asset_for_arch_choice_witness :
  let wanted a := Windows.asset_matches "w64" "web" (Windows.asset_name a) in
  let plain a := negb (contains "ffi" (Windows.asset_name a)) in
  ∃ before asset after,
    Windows.get_assets release = before ++ asset :: after ∧
    Windows.asset_name asset = "vips-dev-w64-web-8.17.0-static.zip" ∧
    Windows.browser_download_url asset = "https://example.org/web.zip" ∧
    wanted asset = true ∧
    if plain asset
    then Forall (λ a, wanted a && plain a = false) before
    else Forall (λ a, wanted a = false) before
         ∧ Forall (λ a, wanted a && plain a = false) after.
Proof.
  apply (WindowsMore.find_asset_for_arch_choice release "x64" "web"). by vm_compute.
Defined.

(** The C library is under a system prefix: the loop does nothing
    for it, on [linux]. *)
Lemma allow_list_out_of_reach_witness :
  let dep := "/lib/x86_64-linux-gnu/libc.so.6" in
  Linux.visit_dep 3 "/out/lib" linuxbrew [] dep (init linux) = (init linux, Done tt) ∨
  ∃ p, Linux.visit_dep 3 "/out/lib" linuxbrew [] dep (init linux)
       = Linux.copy_shared_libs_recursive 3 p "/out/lib" linuxbrew [] (init linux)
       ∧ startswith p linuxbrew = true
       ∧ existsb (λ prefix, startswith p prefix) Linux.system_prefixes = false
       ∧ Linux.skips p = false.
Proof. intros dep. apply (allow_list_out_of_reach linuxbrew). by vm_compute. Defined.

(** [libz.so.1] is not under [/nowhere]; it is found under the
    library directory of the prefix. *)
Lemma find_library_first_hit_witness :
  let search_paths := ["/nowhere"; "/home/linuxbrew/.linuxbrew/lib"] in
  let p := "/home/linuxbrew/.linuxbrew/lib/libz.so.1" in
  ∃ before d after,
    search_paths = before ++ d :: after ∧
    Forall (λ d, found_in linux "libz.so.1" d = false) before ∧
    if path_exists linux (joinpath d "libz.so.1")
    then p = joinpath d "libz.so.1"
    else List.find (is_file linux) (glob linux d ("libz.so.1" +:+ "*")) = Some p.
Proof.
  intros search_paths p.
  apply (proj2 (@find_library_first_hit machine linux "libz.so.1" search_paths)). by vm_compute.
Defined.

(** With the prefix of glib given for libvips, either closure
    builder exits; and the main library found on [linux] is an entry of
    its directory. *)
Lemma no_main_library_exits_witness :
  (Linux.build_closure 10 "/out" linuxbrew linuxbrew (init linux)
   = (logged (init linux)
        [Log (ERROR, "Could not find libvips.so in " +:+ joinpath linuxbrew "lib")],
      Raised (SystemExit 1))) ∧
  (MacOS.build_closure 10 "/out" homebrew "/opt/homebrew/opt/glib" (init macos)
   = (logged (init macos)
        [Log (ERROR, "Could not find libvips.dylib in "
                     +:+ joinpath "/opt/homebrew/opt/glib" "lib")],
      Raised (SystemExit 1))) ∧
  (let d := "/home/linuxbrew/.linuxbrew/opt/vips/lib" in
   let patterns := ["libvips.so"; "libvips.so.*"] in
   ∃ before pat after n,
     patterns = before ++ pat :: after ∧
     Forall (λ pat, Forall (λ n, fnmatch pat n = false) (iterdir linux d)) before ∧
     n ∈ iterdir linux d ∧ fnmatch pat n = true ∧
     "/home/linuxbrew/.linuxbrew/opt/vips/lib/libvips.so" = joinpath d n).
Proof.
  split_and!.
  - apply (proj1 no_main_library_exits). apply (bool_decide_unpack _). by vm_compute.
  - apply (proj1 (proj2 no_main_library_exits)). apply (bool_decide_unpack _). by vm_compute.
  - intros d patterns.
    apply (proj2 (proj2 (@no_main_library_exits machine)) linux d patterns). by vm_compute.
Defined.

Lemma main_library_is_a_sibling_witness :
  fnmatch "libvips*.so*" "libvips.so.42" = true ∧
  fnmatch "libvips*.dylib" "libvips.42.dylib" = true.
Proof.
  split.
  - apply (proj1 (main_library_is_a_sibling "libvips.so.42")). by vm_compute.
  - apply (proj2 (main_library_is_a_sibling "libvips.42.dylib")). by vm_compute.
Defined.

(** On [linux] every name in [copied] after the closure builder is
    a file of the output directory. *)
Lemma copied_names_are_files_witness :
  let st' := linux_closure.1 in
  map snd (copies (trace st'))
  = map (joinpath (joinpath "/out" "lib")) (adds (trace st')) ∧
  size (copied st') = length (copies (trace st')) ∧
  ∀ n, n ∈ copied st' →
       path_exists (world st') (joinpath (joinpath "/out" "lib") n) = true.
Proof.
  apply (proj1 (@copied_names_are_files machine SimFacts.sim_copy_creates SimFacts.sim_copy_persists
                  10 "/out" linuxbrew "/home/linuxbrew/.linuxbrew/opt/vips" linux)).
Defined.



(** For x64 on [release], with a delivery that goes well, [main]
    returns 0, and each stage has gone well. *)
Lemma main_returns_after_every_stage_witness :
  let args := for_arch "x64" in
  let fetch : list record * result Windows.ReleaseInfo := ([], Return release) in
  0%Z = 0%Z ∧
  ∃ release_info url filename v,
    fetch.2 = Return release_info ∧
    (Windows.find_asset_for_arch release_info (Windows.arch args)
       (Windows.build_type args)).2 = Some (url, filename) ∧
    Windows.get_version_from_filename filename = Return v ∧
    (delivered url filename v).2 = Return tt.
Proof.
  intros args fetch.
  apply (WindowsMore2.main_returns_after_every_stage args fetch delivered).
  by vm_compute.
Defined.

(** The second line of [ldd_lines] gives its target, the third
    nothing. *)
Lemma ldd_line_resolved_witness :
  ldd_line (tab +:+ "libglib-2.0.so.0" +:+ " => "
            +:+ "/home/linuxbrew/.linuxbrew/lib/libglib-2.0.so.0" +:+ " (0x00007f1c)")
  = Return ["/home/linuxbrew/.linuxbrew/lib/libglib-2.0.so.0"] ∧
  ldd_line (tab +:+ "libmissing.so.3" +:+ " => " +:+ "not" +:+ " found") = Return [].
Proof.
  split.
  - apply (ScrapeFacts.ldd_line_resolved tab "libglib-2.0.so.0"
             "/home/linuxbrew/.linuxbrew/lib/libglib-2.0.so.0" " (0x00007f1c)");
      by vm_compute.
  - apply (ScrapeFacts.ldd_line_resolved tab "libmissing.so.3" "not" " found");
      by vm_compute.
Defined.

(** A line that ends after its [=>] loses the whole output. *)
Lemma ldd_line_empty_target_witness :
  ldd_line (tab +:+ "libfoo.so.1" +:+ "=>" +:+ " ") = Raise IndexError ∧
  ldd_deps (text (ldd_lines ++ [tab +:+ "libfoo.so.1 =>"])) = Raise IndexError.
Proof.
  split.
  - apply (proj1 ScrapeFacts.ldd_line_empty_target tab "libfoo.so.1" " "); by vm_compute.
  - apply (proj2 ScrapeFacts.ldd_line_empty_target).
    apply Exists_exists. exists (tab +:+ "libfoo.so.1 =>"). split; [|by vm_compute].
    apply (bool_decide_unpack _). by vm_compute.
Defined.

Lemma readelf_line_extracts_witness :
  readelf_line (" 0x0000000000000001 (NEEDED)             Shared library: "
                +:+ "[" +:+ "libz.so.1" +:+ "]" +:+ "")
  = ["libz.so.1"].
Proof.
  apply (ScrapeFacts.readelf_line_extracts
           " 0x0000000000000001 (NEEDED)             Shared library: " "libz.so.1" "");
    by vm_compute.
Defined.

Lemma otool_line_round_trip_witness :
  otool_line (tab +:+ "/usr/lib/libSystem.B.dylib" +:+ " ("
              +:+ "compatibility version 1.0.0, current version 1345.100.2)")
  = ["/usr/lib/libSystem.B.dylib"].
Proof.
  apply (ScrapeFacts.otool_line_round_trip tab "/usr/lib/libSystem.B.dylib"
           "compatibility version 1.0.0, current version 1345.100.2)");
    by vm_compute.
Defined.

(** From [ldd_lines] the loop takes the library that is found and
    the loader. *)
Lemma ldd_deps_sound_witness :
  let deps := ["/home/linuxbrew/.linuxbrew/lib/libglib-2.0.so.0";
               "/lib64/ld-linux-x86-64.so.2"] in
  ldd_deps (text ldd_lines) = Return deps ∧
  Forall (λ d, d ≠ "" ∧ spaceless d = true ∧ d ≠ "not" ∧ startswith d "(" = false) deps.
Proof.
  intros deps.
  assert (ldd_deps (text ldd_lines) = Return deps) as H by (by vm_compute).
  split; [exact H|]. exact (proj1 (ScrapeSpec.ldd_deps_sound (text ldd_lines)) deps H).
Defined.

(** The first line of [otool_lines] is passed over. *)
Lemma otool_deps_shape_witness :
  otool_deps (text otool_lines) = flat_map otool_line (splitlines (text (List.tl otool_lines))).
Proof.
  apply (proj2 (proj2 ScrapeSpec.otool_deps_shape)
           "/opt/homebrew/opt/vips/lib/libvips.42.dylib:" (text (List.tl otool_lines))).
  by vm_compute.
Defined.

(** On [brew]: the prefix of vips is the line printed, that of glib
    is not known, and the blank answer for Homebrew itself gives the
    current directory. *)
Lemma brew_prefix_outcomes_witness :
  (@get_package_prefix console "vips" (@init console brew)).2
  = Done (Path "/opt/homebrew/opt/vips") ∧
  (@get_package_prefix console "glib" (@init console brew)).2
  = Raised (RuntimeError ("Failed to get prefix for " +:+ "glib")) ∧
  (@get_homebrew_prefix console (@init console brew)).2 = Done ".".
Proof.
  split_and!.
  - destruct (proj1 (@brew_prefix_outcomes console) "vips" (@init console brew))
      as (_ & _ & _ & _ & H).
    apply (H "" "/opt/homebrew/opt/vips" (String "010" "")); by vm_compute.
  - destruct (proj1 (@brew_prefix_outcomes console) "glib" (@init console brew))
      as (_ & _ & H & _).
    apply H. by vm_compute.
  - destruct (proj2 (@brew_prefix_outcomes console) (@init console brew))
      as (_ & _ & _ & H & _).
    apply H; by vm_compute.
Defined.

Lemma get_arch_normalises_witness : get_arch "riscv64" = "riscv64".
Proof.
  apply (proj2 (proj2 (proj2 (get_arch_normalises "riscv64")))).
  apply (bool_decide_unpack _). by vm_compute.
Defined.

End MoreRuns.
